(** * pukka: a shallow embedding of the validation engine

    The development follows the TypeScript sources file by file:
    - [issue.ts]    paths, issues, the core issue registry;
    - [context.ts]  parse options, [ContextKeyError];
    - [internal.ts] [ParseContextInternal], the path-tracking proxy,
                    [IssueTrackingContext];
    - [base.ts]     [BaseType] / [Type]: [parseInput], [validate],
                    [validateAsync], [safeParse], extensions;
    - [types.ts]    the scalar and composite type nodes;
    - [pukka.ts]    the factory.

    Modelling conventions.
    - JavaScript objects and arrays live in a heap and are handled through
      their address, so that aliasing between the caller's input and the
      values the engine works on is visible.  Property order is insertion
      order; only own properties are modelled.
    - Numbers are integers ([Z]); the builtin [Number] conversion is a
      parameter of the development.  Reading and printing a number
      ([parseInt], [String]) are exact here, as they are in the runtime for
      integers of magnitude up to [2^53] ([safe_integer]); beyond that the
      runtime rounds to a double and prints exponents, and the statements
      below that depend on the digits of a number are made for safe
      integers only.
    - A string is the sequence of its UTF-16 code units, and a character of
      the model is a code unit below 256; strings with other code units are
      not represented.
    - Issue objects carry an identity ([issue_id]): the issue set of a
      context is a [Set<Issue>] compared by identity and kept in insertion
      order.
    - User callbacks (refinements, message overrides) are command trees over
      the [ParseContext] interface and the path-tracking view; the engine
      interprets them against the current context.  Awaiting an asynchronous
      refinement is sequential inside one parse call, so both phases share
      one interpreter.
    - Thrown exceptions are an explicit outcome; state changes made before a
      throw persist, as they do in JavaScript. *)

From Stdlib Require Import ZArith Ascii Bool Lia.
From stdpp Require Import base option list strings gmap pretty.

Set Warnings "-register-all".

Local Open Scope string_scope.
Local Open Scope list_scope.
Local Open Scope Z_scope.

(** ** JavaScript values *)

Definition addr := nat.

Inductive Value :=
| VUndefined
| VNull
| VBool (b : bool)
| VNum (n : Z)
| VStr (s : string)
| VFile (name : string)
| VObj (a : addr)          (* a plain object, [constructor === Object] *)
| VArr (a : addr).         (* an array *)

Inductive HeapObj :=
| HObject (fields : list (string * Value))
| HArray (items : list (option Value)).     (* [None] is a hole of a sparse array *)

Definition Heap := list HeapObj.

(** Tree-shaped literals: what a schema author or a caller writes down.
    [alloc] loads one into the heap, [readback] prints a heap value. *)
Inductive Data :=
| DUndefined
| DNull
| DBool (b : bool)
| DNum (n : Z)
| DStr (s : string)
| DFile (name : string)
| DObject (fields : list (string * Data))
| DArray (items : list (option Data)).

#[global] Instance Value_eq_dec : EqDecision Value.
Proof. solve_decision. Defined.

(** [value == null] *)
Definition isNullish (v : Value) : bool :=
  match v with VUndefined | VNull => true | _ => false end.

(** [a === b] on the modelled values (objects and arrays by address). *)
Definition strictEq (a b : Value) : bool := bool_decide (a = b).

(** ** [issue.ts] *)

Inductive Key :=
| KStr (s : string)
| KNum (n : Z).

Definition Path := list Key.

#[global] Instance Key_eq_dec : EqDecision Key.
Proof. solve_decision. Defined.

Definition key_to_string (k : Key) : string :=
  match k with KStr s => s | KNum n => pretty n end.

(** [path.join(".")] *)
Fixpoint join (p : Path) : string :=
  match p with
  | [] => ""
  | [k] => key_to_string k
  | k :: rest => key_to_string k +:+ "." +:+ join rest
  end.

Record Issue := mkIssue {
  issue_id : nat;            (* object identity *)
  path : Path;
  code : string;
  message : string;
}.

Definition same_issue (i j : Issue) : bool := Nat.eqb (issue_id i) (issue_id j).

Definition issue_path (i : Issue) : Path := path i.

Inductive Error :=
| ContextKeyError (key : string)     (* [new ContextKeyError(key)] *)
| JsError (message : string)         (* [new Error(message)] raised by the library *)
| TypeError (message : string)       (* raised by the runtime, e.g. reading a property of null *)
| UserError (message : string)       (* raised by a callback *)
| ParseError (issues : list Issue).  (* [new ParseError(input, issues)] *)

Definition error_message (e : Error) : string :=
  match e with
  | ContextKeyError key => "Context key missing: " +:+ key
  | JsError m | TypeError m | UserError m => m
  | ParseError _ => ""
  end.

Inductive Outcome (A : Type) :=
| Ok (a : A)
| Thrown (e : Error).
Arguments Ok {A} a.
Arguments Thrown {A} e.

(** ** Strings and numbers of the runtime *)

(** [WhiteSpace] and [LineTerminator] of the language, which [trim] and
    [parseInt] strip: among the code units below 256 these are TAB, LF, VT,
    FF, CR, the space and the no-break space U+00A0. *)
Definition is_ws (c : ascii) : bool :=
  let n := nat_of_ascii c in
  (Nat.eqb n 32 || (Nat.leb 9 n && Nat.leb n 13) || Nat.eqb n 160)%bool.

Fixpoint trimStart (s : string) : string :=
  match s with
  | String c r => if is_ws c then trimStart r else s
  | EmptyString => EmptyString
  end.

Definition trimEnd (s : string) : string :=
  String.rev (trimStart (String.rev s)).

(** [String.prototype.trim] *)
Definition trim (s : string) : string := trimEnd (trimStart s).

Definition digit_val (radix : Z) (c : ascii) : option Z :=
  let n := Z.of_nat (nat_of_ascii c) in
  let d := if (48 <=? n) && (n <=? 57) then Some (n - 48)
           else if (97 <=? n) && (n <=? 122) then Some (n - 87)
           else if (65 <=? n) && (n <=? 90) then Some (n - 55)
           else None in
  match d with
  | Some d => if d <? radix then Some d else None
  | None => None
  end.

Fixpoint read_digits (radix : Z) (s : string) (acc : option Z) : option Z :=
  match s with
  | String c r =>
      match digit_val radix c with
      | Some d => read_digits radix r (Some (radix * default 0 acc + d))
      | None => acc
      end
  | EmptyString => acc
  end.

(** The integers the runtime reads and prints digit for digit:
    [Number.parseInt] rounds what it read to a double and [String] prints a
    double with the fewest digits that identify it, both of which are exact
    up to [2^53]. *)
Definition safe_integer (n : Z) : bool := Z.abs n <=? 9007199254740992.

(** [Number.parseInt(s)] with no radix; [None] is [NaN].  The result is the
    integer that was read, which is the runtime's for a [safe_integer]. *)
Definition parseInt (s : string) : option Z :=
  let s := trimStart s in
  let '(sign, s) :=
    match s with
    | String "-" r => (-1, r)
    | String "+" r => (1, r)
    | _ => (1, s)
    end in
  let '(radix, s) :=
    match s with
    | String "0" (String "x" r) | String "0" (String "X" r) => (16, r)
    | _ => (10, s)
    end in
  (fun n => sign * n) <$> read_digits radix s None.

(** [String(v)] / template-literal conversion.  The engine only converts
    primitives: [StringType.coerce] skips objects and the core issue
    messages name arrays and objects by kind.  A number is printed in full,
    which is the runtime's rendering of a [safe_integer]. *)
Definition toString (v : Value) : string :=
  match v with
  | VUndefined => "undefined"
  | VNull => "null"
  | VBool true => "true"
  | VBool false => "false"
  | VNum n => pretty n
  | VStr s => s
  | VFile _ => "[object File]"
  | VObj _ => "[object Object]"
  | VArr _ => ""
  end.

(** [Boolean(v)] *)
Definition toBoolean (v : Value) : bool :=
  match v with
  | VUndefined | VNull => false
  | VBool b => b
  | VNum n => negb (n =? 0)
  | VStr s => negb (String.eqb s "")
  | VFile _ | VObj _ | VArr _ => true
  end.

(** [util.ts]: [isObject].  [typeof null === "object"], so the test goes on
    to read [null.constructor] and throws. *)
Definition isObject (v : Value) : Outcome bool :=
  match v with
  | VObj _ => Ok true
  | VNull => Thrown (TypeError "Cannot read properties of null (reading 'constructor')")
  | _ => Ok false
  end.

Definition isArray (v : Value) : bool :=
  match v with VArr _ => true | _ => false end.

(** [typeof v === "object"] *)
Definition typeofObject (v : Value) : bool :=
  match v with VNull | VFile _ | VObj _ | VArr _ => true | _ => false end.

(** ** [issue.ts]: core issues *)

(** What [registerIssues] produces: a [{code, message}] pair without a path. *)
Record IssueTemplate := { t_code : string; t_message : string }.

Module CORE_ISSUES.
Definition received (input : Value) : string :=
  if isArray input then "array"
  else if typeofObject input then "object"
  else toString input.

Definition invalid_type (expected : string) (input : Value) (_ : Path) : IssueTemplate :=
  {| t_code := "invalid_type";
     t_message := "Expected: " +:+ expected +:+ ", Received: " +:+ received input |}.

Definition required (input : Value) (_ : Path) : IssueTemplate :=
  {| t_code := "required";
     t_message := "Value is required, Received '" +:+ toString input +:+ "'" |}.

Definition exception (e : Error) (_ : Path) : IssueTemplate :=
  {| t_code := "exception";
     t_message := "Exception: " +:+ error_message e |}.
End CORE_ISSUES.

(** ** [context.ts] *)

Inductive Message :=
| MStr (s : string)
| MFn (s : string).          (* [() => s] *)

Record ScalarOptions := {
  opt_coerce : option bool;
  opt_trim : option bool;
  opt_empty : option bool;
}.

Inductive OptVal :=
| OValue (v : Value)
| OConfig (c : ScalarOptions).

(** [ParseOptions]: the reserved namespaces [string], [number], [boolean]
    and any other key. *)
Definition ParseOptions := list (string * OptVal).

Definition assoc {A} (key : string) (l : list (string * A)) : option A :=
  snd <$> List.find (fun kv => String.eqb (fst kv) key) l.

(** [options[ns]?.field] *)
Definition namespace_option (options : ParseOptions) (ns : string)
    (field : ScalarOptions -> option bool) : option bool :=
  match assoc ns options with
  | Some (OConfig c) => field c
  | _ => None
  end.

(** The arguments of one [ctx.issue(...)] call: leading boolean conditions,
    then [first], [second], [third] as the implementation names them. *)
Inductive First :=
| FStr (s : string)
| FFn (s : string)                                        (* a function returning [s] *)
| FObj (code : string) (msg : Message) (path : option Path) (* an object literal *)
| FIssue (i : Issue).                                     (* an issue object *)

Inductive Second :=
| SNone
| SMsg (m : Message)
| SPath (p : Path).

Record IssueArgs := {
  conds : list bool;
  first : First;
  second : Second;
  third : option Path;
}.

(** ** The path-tracking view handed to refinements *)

Record ProxyObj := { target : Value; proxy_path : Path }.

Inductive PVal :=
| Raw (v : Value)
| Proxied (p : ProxyObj).

(** ** User callbacks

    A callback is a tree of the operations it performs on its [ctx] argument
    and on the values it was given; the continuation receives what the
    operation returned. *)
Inductive Exn :=
| ExnError (message : string)            (* [throw new Error(message)] *)
| ExnContextKeyError (key : string).     (* [throw new ContextKeyError(key)] *)

Definition exn_error (x : Exn) : Error :=
  match x with
  | ExnError m => UserError m
  | ExnContextKeyError key => ContextKeyError key
  end.

Inductive Cb (R : Type) :=
| Return (r : R)
| Throw (x : Exn)
| GetPath (k : Path -> Cb R)                              (* [ctx.path] *)
| GetOptions (k : ParseOptions -> Cb R)                   (* [ctx.options] *)
| RaiseIssue (args : IssueArgs) (k : option Issue -> Cb R)  (* [ctx.issue(...)] *)
| PathFor (v : PVal) (k : Path -> Cb R)                   (* [ctx.pathFor(v)] *)
| IsDefined (k : bool -> Cb R)                            (* [ctx.isDefined(_)] *)
| GetKey (key : string) (k : OptVal -> Cb R)              (* [ctx.get(key)] *)
| ReadProp (v : PVal) (prop : string) (k : PVal -> Cb R)  (* [v[prop]] *)
| IterNext (v : PVal) (i : nat) (k : option PVal -> Cb R) (* one step of [for..of] *)
| NewIssueObject (p : Path) (c m : string) (k : Issue -> Cb R). (* [{path, code, message}] *)
Arguments Return {R} r.
Arguments Throw {R} x.
Arguments GetPath {R} k.
Arguments GetOptions {R} k.
Arguments RaiseIssue {R} args k.
Arguments PathFor {R} v k.
Arguments IsDefined {R} k.
Arguments GetKey {R} key k.
Arguments ReadProp {R} v prop k.
Arguments IterNext {R} v i k.
Arguments NewIssueObject {R} p c m k.

(** [ValidationResult = Issue | unknown] *)
Inductive ResultItem :=
| ItemIssue (i : Issue)
| ItemOther.

Inductive ValidationResult :=
| ResArray (items : list ResultItem)
| ResOne (item : ResultItem).

(** What a message-override callback returns: [string | Issue]. *)
Inductive OverrideResult :=
| OvString (s : string)
| OvIssue (i : Issue).

(** [ValidationResultOverride<T>]: a string or a callback. *)
Inductive ValidationResultOverride (T : Type) :=
| OverrideStr (s : string)
| OverrideFn (f : T -> Cb OverrideResult).
Arguments OverrideStr {T} s.
Arguments OverrideFn {T} f.

Record CoreIssueOverrides := {
  invalid_type_error : option (ValidationResultOverride Value);
  required_error : option (ValidationResultOverride Value);
}.

(** ** [base.ts]: type nodes *)

(** One entry of [validators] / [asyncValidators]. *)
Record ValidatorEntry := {
  validator : PVal -> Cb ValidationResult;
  name : option string;
  params : option (list Value);
  override : option (PVal -> Cb OverrideResult);
}.

(** The fields [BaseType] and [Type<T>] declare. *)
Record Attrs := {
  overrides : CoreIssueOverrides;
  isOptional : bool;
  isNullable : bool;
  validators : list ValidatorEntry;
  asyncValidators : list ValidatorEntry;
}.

Inductive Literal :=
| LStr (s : string)
| LNum (n : Z)
| LBool (b : bool).

(** [types.ts]: the classes deriving from [Type<T>]. *)
Inductive BaseType :=
| StringType (a : Attrs) (trim_ empty_ coerce_ : option bool)
| NumberType (a : Attrs) (coerce_ : option bool)
| BooleanType (a : Attrs) (coerce_ : option bool)
| EnumType (a : Attrs) (values : list string)
| LiteralType (a : Attrs) (value : Literal)
| FileType (a : Attrs)
| RecordType (a : Attrs) (valueType : BaseType)
| ObjectType (a : Attrs) (properties : list (string * BaseType))
| ArrayType (a : Attrs) (itemType : BaseType) (coerce_ : option bool)
| UnionType (a : Attrs) (types : list BaseType).

Definition attrs (t : BaseType) : Attrs :=
  match t with
  | StringType a _ _ _ | NumberType a _ | BooleanType a _ | EnumType a _
  | LiteralType a _ | FileType a | RecordType a _ | ObjectType a _
  | ArrayType a _ _ | UnionType a _ => a
  end.

Definition with_attrs (t : BaseType) (a : Attrs) : BaseType :=
  match t with
  | StringType _ x y z => StringType a x y z
  | NumberType _ c => NumberType a c
  | BooleanType _ c => BooleanType a c
  | EnumType _ v => EnumType a v
  | LiteralType _ v => LiteralType a v
  | FileType _ => FileType a
  | RecordType _ v => RecordType a v
  | ObjectType _ p => ObjectType a p
  | ArrayType _ i c => ArrayType a i c
  | UnionType _ ts => UnionType a ts
  end.

(** The state of a freshly constructed node. *)
Definition new_attrs : Attrs :=
  {| overrides := {| invalid_type_error := None; required_error := None |};
     isOptional := false; isNullable := false;
     validators := []; asyncValidators := [] |}.

(** ** The heap *)

(** A canonical array index: ["0"], ["1"], ... but not ["01"] or ["-1"]. *)
Definition as_index (prop : string) : option nat :=
  match parseInt prop with
  | Some n => if (0 <=? n) && String.eqb (pretty n) prop then Some (Z.to_nat n) else None
  | None => None
  end.

Definition string_get (s : string) (i : nat) : Value :=
  match String.get i s with
  | Some c => VStr (String c EmptyString)
  | None => VUndefined
  end.

(** [v[prop]] on a plain value (no interception). *)
Definition get_prop (h : Heap) (v : Value) (prop : string) : Outcome Value :=
  match v with
  | VUndefined | VNull =>
      Thrown (TypeError ("Cannot read properties of " +:+ toString v))
  | VObj a =>
      match h !! a with
      | Some (HObject fields) => Ok (default VUndefined (assoc prop fields))
      | _ => Ok VUndefined
      end
  | VArr a =>
      match h !! a with
      | Some (HArray items) =>
          if String.eqb prop "length" then Ok (VNum (Z.of_nat (List.length items)))
          else match as_index prop with
               | Some i => Ok (default VUndefined (mjoin (items !! i)))
               | None => Ok VUndefined
               end
      | _ => Ok VUndefined
      end
  | VStr s =>
      if String.eqb prop "length" then Ok (VNum (Z.of_nat (String.length s)))
      else match as_index prop with
           | Some i => Ok (string_get s i)
           | None => Ok VUndefined
           end
  | _ => Ok VUndefined
  end.

Fixpoint fields_set (fields : list (string * Value)) (k : string) (v : Value)
    : list (string * Value) :=
  match fields with
  | [] => [(k, v)]
  | (k', v') :: rest =>
      if String.eqb k' k then (k, v) :: rest else (k', v') :: fields_set rest k v
  end.

(** [items[i] = v]; writing past the end extends the array with holes. *)
Definition items_set (items : list (option Value)) (i : nat) (v : Value)
    : list (option Value) :=
  if decide (i < List.length items)%nat then <[i := Some v]> items
  else items ++ replicate (i - List.length items) None ++ [Some v].

(** [target[key] = v] *)
Definition set_prop (h : Heap) (target : Value) (prop : string) (v : Value) : Heap :=
  match target with
  | VObj a =>
      match h !! a with
      | Some (HObject fields) => <[a := HObject (fields_set fields prop v)]> h
      | _ => h
      end
  | VArr a =>
      match h !! a, as_index prop with
      | Some (HArray items), Some i => <[a := HArray (items_set items i v)]> h
      | _, _ => h
      end
  | _ => h
  end.

Definition heap_alloc (h : Heap) (o : HeapObj) : addr * Heap :=
  (List.length h, h ++ [o]).

(** [Object.keys(v)] of a plain object *)
Definition object_keys (h : Heap) (v : Value) : list string :=
  match v with
  | VObj a =>
      match h !! a with
      | Some (HObject fields) => fst <$> fields
      | _ => []
      end
  | _ => []
  end.

(** [delete v[key]] *)
Definition delete_prop (h : Heap) (v : Value) (key : string) : Heap :=
  match v with
  | VObj a =>
      match h !! a with
      | Some (HObject fields) =>
          <[a := HObject (List.filter (fun kv => negb (String.eqb (fst kv) key)) fields)]> h
      | _ => h
      end
  | _ => h
  end.

(** [{ ...v }] and [[...v]]: a fresh shallow copy.  Spreading an array reads
    every index, so holes become [undefined]. *)
Definition spread (h : Heap) (v : Value) : Value * Heap :=
  match v with
  | VObj a =>
      match h !! a with
      | Some (HObject fields) =>
          let '(a', h') := heap_alloc h (HObject fields) in (VObj a', h')
      | _ => (v, h)
      end
  | VArr a =>
      match h !! a with
      | Some (HArray items) =>
          let '(a', h') :=
            heap_alloc h (HArray ((fun x => Some (default VUndefined x)) <$> items)) in
          (VArr a', h')
      | _ => (v, h)
      end
  | _ => (v, h)
  end.

(** Loading a literal into the heap, and reading a heap value back. *)
Fixpoint alloc (d : Data) (h : Heap) : Value * Heap :=
  match d with
  | DUndefined => (VUndefined, h)
  | DNull => (VNull, h)
  | DBool b => (VBool b, h)
  | DNum n => (VNum n, h)
  | DStr s => (VStr s, h)
  | DFile n => (VFile n, h)
  | DObject fields =>
      let '(fs, h) :=
        (fix go (l : list (string * Data)) (h : Heap) : list (string * Value) * Heap :=
           match l with
           | [] => ([], h)
           | (k, d) :: rest =>
               let '(v, h) := alloc d h in
               let '(vs, h) := go rest h in
               ((k, v) :: vs, h)
           end) fields h in
      let '(a, h) := heap_alloc h (HObject fs) in
      (VObj a, h)
  | DArray items =>
      let '(vs, h) :=
        (fix go (l : list (option Data)) (h : Heap) : list (option Value) * Heap :=
           match l with
           | [] => ([], h)
           | None :: rest =>
               let '(vs, h) := go rest h in (None :: vs, h)
           | Some d :: rest =>
               let '(v, h) := alloc d h in
               let '(vs, h) := go rest h in
               (Some v :: vs, h)
           end) items h in
      let '(a, h) := heap_alloc h (HArray vs) in
      (VArr a, h)
  end.

Fixpoint readback (fuel : nat) (h : Heap) (v : Value) : Data :=
  match v with
  | VUndefined => DUndefined
  | VNull => DNull
  | VBool b => DBool b
  | VNum n => DNum n
  | VStr s => DStr s
  | VFile n => DFile n
  | VObj a =>
      match fuel, h !! a with
      | S fuel, Some (HObject fields) =>
          DObject (List.map (fun kv => (fst kv, readback fuel h (snd kv))) fields)
      | _, _ => DUndefined
      end
  | VArr a =>
      match fuel, h !! a with
      | S fuel, Some (HArray items) =>
          DArray (List.map (option_map (readback fuel h)) items)
      | _, _ => DUndefined
      end
  end.

(** ** [internal.ts]: the parse context *)

Record InputEntry := {
  in_value : Value;
  in_parsed : bool;
  in_type : BaseType;
}.

Record ParseContextInternal := {
  _path : Path;
  inputs : gmap string InputEntry;
  issues : list Issue;                   (* a [Set<Issue>], in insertion order *)
  options : ParseOptions;
}.

(** Everything a parse call can touch: the heap, the supply of object
    identities for issues, the context the running code calls [ctx], the
    wrapper cache of the current [getProxy] call and the [newIssues] set of
    the current [IssueTrackingContext]. *)
Record State := {
  heap : Heap;
  next_issue : nat;
  ctx : ParseContextInternal;
  proxies : list (string * ProxyObj);
  newIssues : list (option Issue);
}.

Definition M (A : Type) := State -> Outcome A * State.

Definition ret {A} (a : A) : M A := fun st => (Ok a, st).
Definition throw {A} (e : Error) : M A := fun st => (Thrown e, st).
Definition bind {A B} (m : M A) (f : A -> M B) : M B :=
  fun st =>
    match m st with
    | (Ok a, st') => f a st'
    | (Thrown e, st') => (Thrown e, st')
    end.

(** [try { body } finally { cleanup }] *)
Definition try_finally {A} (body : M A) (cleanup : State -> State) : M A :=
  fun st => let '(r, st') := body st in (r, cleanup st').

Definition lift {A} (o : Outcome A) : M A := fun st => (o, st).
Definition gets {A} (f : State -> A) : M A := fun st => (Ok (f st), st).
Definition modify (f : State -> State) : M unit := fun st => (Ok tt, f st).

Declare Scope js_scope.
Delimit Scope js_scope with js.
Notation "x <- m ;; k" := (bind m (fun x => k))
  (at level 100, m at next level, right associativity) : js_scope.
Notation "m ;;; k" := (bind m (fun _ => k))
  (at level 100, right associativity) : js_scope.
Local Open Scope js_scope.

Definition set_heap (h : Heap) (st : State) : State :=
  {| heap := h; next_issue := next_issue st; ctx := ctx st;
     proxies := proxies st; newIssues := newIssues st |}.
Definition set_next_issue (n : nat) (st : State) : State :=
  {| heap := heap st; next_issue := n; ctx := ctx st;
     proxies := proxies st; newIssues := newIssues st |}.
Definition set_ctx (c : ParseContextInternal) (st : State) : State :=
  {| heap := heap st; next_issue := next_issue st; ctx := c;
     proxies := proxies st; newIssues := newIssues st |}.
Definition set_proxies (p : list (string * ProxyObj)) (st : State) : State :=
  {| heap := heap st; next_issue := next_issue st; ctx := ctx st;
     proxies := p; newIssues := newIssues st |}.
Definition set_newIssues (l : list (option Issue)) (st : State) : State :=
  {| heap := heap st; next_issue := next_issue st; ctx := ctx st;
     proxies := proxies st; newIssues := l |}.

Definition ctx_set_path (p : Path) (c : ParseContextInternal) : ParseContextInternal :=
  {| _path := p; inputs := inputs c; issues := issues c; options := options c |}.
Definition ctx_set_inputs (m : gmap string InputEntry) (c : ParseContextInternal)
    : ParseContextInternal :=
  {| _path := _path c; inputs := m; issues := issues c; options := options c |}.
Definition ctx_set_issues (l : list Issue) (c : ParseContextInternal) : ParseContextInternal :=
  {| _path := _path c; inputs := inputs c; issues := l; options := options c |}.

(** [new ParseContextInternal(options)] *)
Definition new_context (o : ParseOptions) : ParseContextInternal :=
  {| _path := []; inputs := ∅; issues := []; options := o |}.

Module ParseContext.

(** [get path()] *)
Definition path (c : ParseContextInternal) : Path := _path c.

(** [get pathHasErrors()] *)
Definition pathHasErrors (c : ParseContextInternal) : bool :=
  let key := join (_path c) in
  match inputs c !! key with
  | Some e => negb (in_parsed e)
  | None => true
  end.

(** [isDefined(path)]: the argument is not looked at. *)
Definition isDefined (c : ParseContextInternal) : bool :=
  let key := join (_path c) in
  match inputs c !! key with
  | Some e => negb (isNullish (in_value e))
  | None => false
  end.

Definition setPath (p : Path) : M unit :=
  modify (fun st => set_ctx (ctx_set_path p (ctx st)) st).

Definition issueCount (c : ParseContextInternal) : nat := List.length (issues c).

Definition getIssues (c : ParseContextInternal) : list Issue := issues c.

Definition has (l : list Issue) (i : Issue) : bool := existsb (same_issue i) l.

(** [Set.prototype.add] *)
Definition set_add (l : list Issue) (i : Issue) : list Issue :=
  if has l i then l else l ++ [i].

(** [Set.prototype.delete] *)
Definition set_delete (l : list Issue) (i : Issue) : list Issue :=
  List.filter (fun j => negb (same_issue i j)) l.

Definition addIssues (l : list Issue) : M unit :=
  modify (fun st =>
    set_ctx (ctx_set_issues (fold_left set_add l (issues (ctx st))) (ctx st)) st).

Definition removeIssues (l : list Issue) : M unit :=
  modify (fun st =>
    set_ctx (ctx_set_issues (fold_left set_delete l (issues (ctx st))) (ctx st)) st).

Definition setInput (input : Value) (parsed : bool) (type : BaseType) : M unit :=
  modify (fun st =>
    let c := ctx st in
    let key := join (_path c) in
    set_ctx (ctx_set_inputs
               (<[key := {| in_value := input; in_parsed := parsed; in_type := type |}]>
                  (inputs c)) c) st).

(** [clone()]: an object inheriting from [this] with its own path, input map
    and issue set, each a copy of the original's. *)
Definition clone (c : ParseContextInternal) : ParseContextInternal :=
  {| _path := path c; inputs := inputs c; issues := issues c; options := options c |}.

(** [withChildPath] and [withChildPathAsync] *)
Definition withChildPath {A} (key : Key) (callback : M A) : M A :=
  p <- gets (fun st => path (ctx st)) ;;
  try_finally (setPath (p ++ [key]) ;;; callback)
              (fun st => set_ctx (ctx_set_path p (ctx st)) st).

Definition getMessage (m : Message) : string :=
  match m with MStr s | MFn s => s end.

Definition fresh_issue (p : Path) (c m : string) : M Issue :=
  fun st =>
    let i := mkIssue (next_issue st) p c m in
    (Ok i, set_next_issue (S (next_issue st)) st).

(** [issue(...args)] after the boolean conditions have been peeled off. *)
Definition issue_core (fst_ : First) (snd_ : Second) (third_ : option Path)
    : M (option Issue) :=
  c <- gets ctx ;;
  let existing :=
    match fst_ with
    | FIssue i => if has (issues c) i then Some i else None
    | _ => None
    end in
  match existing with
  | Some i => ret (Some i)
  | None =>
      let p :=
        match third_ with
        | Some p => Some p
        | None =>
            match snd_ with
            | SPath p => Some p
            | _ =>
                match fst_ with
                | FObj _ _ p => p
                | FIssue i => Some (issue_path i)
                | _ => None
                end
            end
        end in
      let second_absent :=
        match snd_ with SNone | SPath _ => true | SMsg _ => false end in
      let code_ :=
        match fst_ with
        | FFn _ => "custom"
        | FStr s => if second_absent then "custom" else s
        | FObj c _ _ => c
        | FIssue i => code i
        end in
      let message_ :=
        match fst_ with
        | FFn s => s
        | FStr s =>
            match snd_ with
            | SMsg m => getMessage m
            | _ => s
            end
        | FObj _ m _ => getMessage m
        | FIssue i => message i
        end in
      i <- fresh_issue (default (path c) p) code_ message_ ;;
      (* [this.issues.add(issue)]: the object is new, so it is appended *)
      modify (fun st => set_ctx (ctx_set_issues (issues (ctx st) ++ [i]) (ctx st)) st) ;;;
      ret (Some i)
  end.

Fixpoint issue_conds (cs : list bool) (k : M (option Issue)) : M (option Issue) :=
  match cs with
  | [] => k
  | true :: rest => issue_conds rest k
  | false :: _ => ret None
  end.

(** [issue(...args)] *)
Definition issue (args : IssueArgs) : M (option Issue) :=
  issue_conds (conds args) (issue_core (first args) (second args) (third args)).

(** [ctx.issue(template)] as the engine calls it for core issues. *)
Definition issue_of (t : IssueTemplate) : M Issue :=
  r <- issue {| conds := []; first := FObj (t_code t) (MStr (t_message t)) None;
                second := SNone; third := None |} ;;
  match r with
  | Some i => ret i
  | None => throw (TypeError "unreachable")
  end.

(** [get(key)] *)
Definition get (key : string) : M OptVal :=
  c <- gets ctx ;;
  match assoc key (options c) with
  | Some (OValue v) => if isNullish v then throw (ContextKeyError key) else ret (OValue v)
  | Some o => ret o
  | None => throw (ContextKeyError key)
  end.

End ParseContext.

Definition try_catch {A} (body : M A) (handler : Error -> M A) : M A :=
  fun st =>
    match body st with
    | (Ok a, st') => (Ok a, st')
    | (Thrown e, st') => handler e st'
    end.

(** ** [internal.ts]: the path-tracking proxy *)

Module Proxy.

(** [keyOrIndex] *)
Definition keyOrIndex (prop : string) : Key :=
  match parseInt prop with
  | Some num => KNum num
  | None => KStr prop
  end.

(** [tryGetProxy(value, path)]: wrappers are cached by [path.join(".")]. *)
Definition tryGetProxy (value : Value) (p : Path) : M PVal :=
  o <- lift (isObject value) ;;
  if negb o && negb (isArray value) then ret (Raw value)
  else
    let key := join p in
    cache <- gets proxies ;;
    match assoc key cache with
    | Some proxy => ret (Proxied proxy)
    | None =>
        let proxy := {| target := value; proxy_path := p |} in
        modify (set_proxies (cache ++ [(key, proxy)])) ;;;
        ret (Proxied proxy)
    end.

(** [handler.get(target, prop, receiver)] for a string property.  Array
    methods are functions, which the model does not represent: reading one
    yields [undefined] here.  The [values] iterator is special-cased as in
    the source (no path change); iteration itself is [iter_next]. *)
Definition get (p : ProxyObj) (prop : string) : M PVal :=
  h <- gets heap ;;
  value <- lift (get_prop h (target p) prop) ;;
  if isArray (target p) && String.eqb prop "values" then ret (Raw value)
  else
    let proxyPath := proxy_path p in
    let childPath := proxyPath ++ [keyOrIndex prop] in
    let isArrayLength := isArray (target p) && String.eqb prop "length" in
    ParseContext.setPath (if isArrayLength then proxyPath else childPath) ;;;
    tryGetProxy value childPath.

Definition array_length (h : Heap) (v : Value) : option nat :=
  match v with
  | VArr a =>
      match h !! a with
      | Some (HArray items) => Some (List.length items)
      | _ => None
      end
  | _ => None
  end.

(** One step of the custom iterator: [yield this[i]] while
    [i < target.length]. *)
Definition iter_next (v : PVal) (i : nat) : M (option PVal) :=
  h <- gets heap ;;
  match v with
  | Proxied p =>
      match array_length h (target p) with
      | Some n =>
          if decide (i < n)%nat then x <- get p (pretty (Z.of_nat i)) ;; ret (Some x)
          else ret None
      | None => throw (TypeError "value is not iterable")
      end
  | Raw v =>
      match array_length h v with
      | Some n =>
          if decide (i < n)%nat then
            x <- lift (get_prop h v (pretty (Z.of_nat i))) ;; ret (Some (Raw x))
          else ret None
      | None => throw (TypeError "value is not iterable")
      end
  end.

(** [v[prop]] as a callback writes it. *)
Definition read (v : PVal) (prop : string) : M PVal :=
  match v with
  | Proxied p => get p prop
  | Raw v => h <- gets heap ;; x <- lift (get_prop h v prop) ;; ret (Raw x)
  end.

(** [pathFor(proxy)] *)
Definition pathFor (v : PVal) : Path :=
  match v with
  | Proxied p => proxy_path p
  | Raw _ => []
  end.

(** [getProxy(data)]: fresh caches, then [tryGetProxy(data, this.path)]. *)
Definition getProxy (data : Value) : M PVal :=
  modify (set_proxies []) ;;;
  p <- gets (fun st => ParseContext.path (ctx st)) ;;
  tryGetProxy data p.

(** [withProxy] and [withProxyAsync] *)
Definition withProxy (data : Value) (callback : PVal -> M unit -> M unit) : M unit :=
  p <- gets (fun st => ParseContext.path (ctx st)) ;;
  let resetPath := ParseContext.setPath p in
  proxy <- getProxy data ;;
  try_finally (callback proxy resetPath)
              (fun st => set_ctx (ctx_set_path p (ctx st)) st).

End Proxy.

(** ** [internal.ts]: [IssueTrackingContext] *)

Module IssueTrackingContext.

Definition same_opt (a b : option Issue) : bool :=
  match a, b with
  | Some i, Some j => same_issue i j
  | None, None => true
  | _, _ => false
  end.

(** [issue(...args)]: delegate, then remember what came back. *)
Definition issue (args : IssueArgs) : M (option Issue) :=
  newIssue <- ParseContext.issue args ;;
  modify (fun st =>
    if existsb (same_opt newIssue) (newIssues st) then st
    else set_newIssues (newIssues st ++ [newIssue]) st) ;;;
  ret newIssue.

End IssueTrackingContext.

(** ** Running a callback

    [tracking] tells whether the callback was handed an
    [IssueTrackingContext] (refinements) or the context itself (message
    overrides). *)
Fixpoint run {R} (tracking : bool) (c : Cb R) : M R :=
  match c with
  | Return r => ret r
  | Throw x => throw (exn_error x)
  | GetPath k => p <- gets (fun st => ParseContext.path (ctx st)) ;; run tracking (k p)
  | GetOptions k => o <- gets (fun st => options (ctx st)) ;; run tracking (k o)
  | RaiseIssue args k =>
      i <- (if tracking then IssueTrackingContext.issue args else ParseContext.issue args) ;;
      run tracking (k i)
  | PathFor v k => run tracking (k (Proxy.pathFor v))
  | IsDefined k => b <- gets (fun st => ParseContext.isDefined (ctx st)) ;; run tracking (k b)
  | GetKey key k => v <- ParseContext.get key ;; run tracking (k v)
  | ReadProp v prop k => x <- Proxy.read v prop ;; run tracking (k x)
  | IterNext v i k => x <- Proxy.iter_next v i ;; run tracking (k x)
  | NewIssueObject p c m k => i <- ParseContext.fresh_issue p c m ;; run tracking (k i)
  end.

(** ** [base.ts]: helpers *)

Definition invalid_type_CODE := "invalid_type".
Definition required_CODE := "required".

(** [getIssues(result)] *)
Definition getIssues (result : ValidationResult) : list Issue :=
  let pick item := match item with ItemIssue i => Some i | ItemOther => None end in
  match result with
  | ResArray items => omap pick items
  | ResOne item => option_list (pick item)
  end.

Definition apply_core_override (code_ : string) (input : Value)
    (ov : ValidationResultOverride Value) : M Issue :=
  let by_message s :=
    r <- ParseContext.issue {| conds := []; first := FStr code_;
                               second := SMsg (MStr s); third := None |} ;;
    match r with
    | Some i => ret i
    | None => throw (TypeError "unreachable")
    end in
  match ov with
  | OverrideStr s => by_message s
  | OverrideFn f =>
      r <- run false (f input) ;;
      match r with
      | OvString s => by_message s
      | OvIssue i => ret i
      end
  end.

(** [tryGetCoreIssueOverride(ctx, input, code, overrides)] *)
Definition tryGetCoreIssueOverride (input : Value) (code_ : string)
    (ovs : CoreIssueOverrides) : M (option Issue) :=
  match (if String.eqb code_ invalid_type_CODE then invalid_type_error ovs else None) with
  | Some ov => i <- apply_core_override invalid_type_CODE input ov ;; ret (Some i)
  | None =>
      match (if String.eqb code_ required_CODE then required_error ovs else None) with
      | Some ov => i <- apply_core_override required_CODE input ov ;; ret (Some i)
      | None => ret None
      end
  end.

Fixpoint for_each {X} (l : list X) (f : X -> M unit) : M unit :=
  match l with
  | [] => ret tt
  | x :: rest => f x ;;; for_each rest f
  end.

(** [a ?? b] *)
Definition coalesce {A} (a b : option A) : option A :=
  match a with Some _ => a | None => b end.

(** ** [types.ts] *)

Definition literal_value (l : Literal) : Value :=
  match l with LStr s => VStr s | LNum n => VNum n | LBool b => VBool b end.

Definition literal_data (l : Literal) : Data :=
  match l with LStr s => DStr s | LNum n => DNum n | LBool b => DBool b end.

(** [get isLiteral()] *)
Definition isLiteral (t : BaseType) : bool :=
  match t with LiteralType _ _ => true | _ => false end.

(** [getLiteralKeys()]: the [key]/[value] pairs of [ObjectType.literalKeys]. *)
Definition getLiteralKeys (t : BaseType) : list (string * Value) :=
  match t with
  | ObjectType _ props =>
      omap (fun kt => match snd kt with
                      | LiteralType _ l => Some (fst kt, literal_value l)
                      | _ => None
                      end) props
  | _ => []
  end.

(** [get defaultValue()].  A union delegates to [types[0]]. *)
Fixpoint defaultValue (t : BaseType) : Outcome Data :=
  match t with
  | StringType _ _ _ _ => Ok (DStr "")
  | NumberType _ _ => Ok (DNum 0)
  | BooleanType _ _ => Ok (DBool false)
  | EnumType _ _ => Ok (DStr "")
  | LiteralType _ l => Ok (literal_data l)
  | FileType _ => Ok (DFile "")
  | RecordType _ _ => Ok (DObject [])
  | ObjectType _ props =>
      match
        (fix go (l : list (string * BaseType)) : Outcome (list (string * Data)) :=
           match l with
           | [] => Ok []
           | (k, ty) :: rest =>
               match defaultValue ty, go rest with
               | Ok d, Ok ds => Ok ((k, d) :: ds)
               | Thrown e, _ => Thrown e
               | _, Thrown e => Thrown e
               end
           end) props
      with
      | Ok fields => Ok (DObject fields)
      | Thrown e => Thrown e
      end
  | ArrayType _ _ _ => Ok (DArray [])
  | UnionType _ types =>
      match types with
      | t0 :: _ => defaultValue t0
      | [] => Thrown (TypeError "Cannot read properties of undefined (reading 'defaultValue')")
      end
  end.

(** [get hasAsyncValidators()] *)
Fixpoint hasAsyncValidators (t : BaseType) : bool :=
  let own := negb (Nat.eqb (List.length (asyncValidators (attrs t))) 0) in
  match t with
  | RecordType _ valueType => own || hasAsyncValidators valueType
  | ObjectType _ props => own || existsb (fun kt => hasAsyncValidators (snd kt)) props
  | ArrayType _ itemType _ => own || hasAsyncValidators itemType
  | UnionType _ types => own || existsb hasAsyncValidators types
  | _ => own
  end.

(** [getChildKeys(value)], generic in what is attached to a key: the child
    node itself, or a function already specialised to it. *)
Definition objectChildKeys {X} (props : list (string * X)) : list (Key * X) :=
  List.map (fun kt => (KStr (fst kt), snd kt)) props.

Definition arrayChildKeys {X} (itemType : X) (h : Heap) (array : Value) : list (Key * X) :=
  match array with
  | VArr a =>
      match h !! a with
      | Some (HArray items) =>
          omap (fun ix => match snd ix with
                          | Some _ => Some (KNum (Z.of_nat (fst ix)), itemType)
                          | None => None
                          end) (imap (fun i x => (i, x)) items)
      | _ => []
      end
  | _ => []
  end.

Definition recordChildKeys {X} (valueType : X) (h : Heap) (value : Value) : list (Key * X) :=
  List.map (fun key => (KStr key, valueType)) (object_keys h value).

Definition getChildKeys (t : BaseType) (h : Heap) (value : Value) : list (Key * BaseType) :=
  match t with
  | RecordType _ valueType => recordChildKeys valueType h value
  | ObjectType _ props => objectChildKeys props
  | ArrayType _ itemType _ => arrayChildKeys itemType h value
  | _ => []
  end.

Definition trimValue (trim_ : option bool) (o : ParseOptions) (value : string) : string :=
  if default true (coalesce trim_ (namespace_option o "string" opt_trim))
  then trim value else value.

Definition invalid (expected : string) (input : Value) : M (option Issue) :=
  p <- gets (fun st => ParseContext.path (ctx st)) ;;
  i <- ParseContext.issue_of (CORE_ISSUES.invalid_type expected input p) ;;
  ret (Some i).

(** [check(ctx, input)]: [None] stands for [true]. *)
Definition check (t : BaseType) (input : Value) : M (option Issue) :=
  match t with
  | StringType _ trim_ empty_ _ =>
      match input with
      | VStr s =>
          o <- gets (fun st => options (ctx st)) ;;
          let allowEmpty := default true (coalesce empty_ (namespace_option o "string" opt_empty)) in
          let value := trimValue trim_ o s in
          if negb allowEmpty && Nat.eqb (String.length value) 0 then
            p <- gets (fun st => ParseContext.path (ctx st)) ;;
            i <- ParseContext.issue_of (CORE_ISSUES.required input p) ;;
            ret (Some i)
          else ret None
      | _ => invalid "string" input
      end
  | NumberType _ _ =>
      match input with VNum _ => ret None | _ => invalid "number" input end
  | BooleanType _ _ =>
      match input with VBool _ => ret None | _ => invalid "boolean" input end
  | EnumType _ values =>
      if existsb (fun v => strictEq (VStr v) input) values then ret None
      else invalid ("One of [" +:+ String.concat "," values +:+ "]") input
  | LiteralType _ l =>
      if strictEq input (literal_value l) then ret None
      else invalid (toString (literal_value l)) input
  | FileType _ =>
      match input with VFile _ => ret None | _ => invalid "file" input end
  | RecordType _ _ =>
      o <- lift (isObject input) ;;
      if o then ret None else invalid "record" input
  | ObjectType _ _ =>
      o <- lift (isObject input) ;;
      if o then ret None else invalid "object" input
  | ArrayType _ _ _ =>
      if isArray input then ret None else invalid "array" input
  | UnionType _ _ => throw (JsError "Check will be invoked on shadowed type")
  end.

(** The names an object literal inherits from [Object.prototype]. *)
Definition object_prototype_members : list string :=
  ["constructor"; "hasOwnProperty"; "isPrototypeOf"; "propertyIsEnumerable";
   "toLocaleString"; "toString"; "valueOf"; "__proto__";
   "__defineGetter__"; "__defineSetter__"; "__lookupGetter__"; "__lookupSetter__"].

Definition inherited (key : string) : bool :=
  existsb (String.eqb key) object_prototype_members.

(** [this.properties[key]] is truthy: [properties] is the object literal
    the schema was built from, so the lookup finds its own entries, which
    are type nodes, and the members of [Object.prototype]. *)
Definition has_property {X} (props : list (string * X)) (key : string) : bool :=
  bool_decide (is_Some (assoc key props)) || inherited key.

(** [clean(ctx, value)] *)
Definition clean (t : BaseType) (value : Value) : M Value :=
  match t with
  | StringType _ trim_ _ _ =>
      match value with
      | VStr s => o <- gets (fun st => options (ctx st)) ;; ret (VStr (trimValue trim_ o s))
      | _ => ret value
      end
  | ObjectType _ props =>
      h <- gets heap ;;
      let extraKeys :=
        List.filter (fun key => negb (has_property props key)) (object_keys h value) in
      modify (fun st => set_heap (fold_left (fun h key => delete_prop h value key)
                                            extraKeys (heap st)) st) ;;;
      ret value
  | _ => ret value
  end.

Section Engine.

(** The builtin [Number] conversion on the modelled values; [None] is
    [NaN].  Its result may depend on the heap ([Number([5])] is [5]). *)
Context (js_Number : Heap -> Value -> option Z).

(** [coerce(ctx, input)]; [VUndefined] when there is no coercion. *)
Definition coerce (t : BaseType) (input : Value) : M Value :=
  o <- gets (fun st => options (ctx st)) ;;
  match t with
  | StringType _ _ _ coerce_ =>
      let c := default false (coalesce coerce_ (namespace_option o "string" opt_coerce)) in
      if c && negb (isNullish input) && negb (typeofObject input)
      then ret (VStr (toString input)) else ret VUndefined
  | NumberType _ coerce_ =>
      let c := default false (coalesce coerce_ (namespace_option o "number" opt_coerce)) in
      if c then
        h <- gets heap ;;
        match js_Number h input with
        | Some num => ret (VNum num)
        | None => ret VUndefined
        end
      else ret VUndefined
  | BooleanType _ coerce_ =>
      let c := default false (coalesce coerce_ (namespace_option o "boolean" opt_coerce)) in
      if c && negb (isNullish input) then ret (VBool (toBoolean input)) else ret VUndefined
  | ArrayType _ _ coerce_ =>
      if negb (isNullish input) && default false coerce_ then
        fun st =>
          let '(a, h) := heap_alloc (heap st) (HArray [Some input]) in
          (Ok (VArr a), set_heap h st)
      else ret VUndefined
  | _ => ret VUndefined
  end.

(** What [parseInput] needs from a child or union member: the node and
    [parseInput] specialised to it. *)
Definition ChildTable := Heap -> Value -> list (Key * (Value -> M Value)).

Record Member := {
  m_type : BaseType;
  m_parse : Value -> M Value;
  m_children : ChildTable;
}.

(** Run [m] with [ctx] bound to [context.clone()]; the caller's context is
    a different object and is the one in scope again afterwards. *)
Definition on_clone {A} (m : M A) : M (A * ParseContextInternal) :=
  fun st =>
    let context := ctx st in
    let '(r, st') := m (set_ctx (ParseContext.clone context) st) in
    match r with
    | Ok a => (Ok (a, ctx st'), set_ctx context st')
    | Thrown e => (Thrown e, set_ctx context st')
    end.

(** [BaseType.parseInput] once [actualType] is known.  [this_] is the
    node [parseInput] was called on: optionality and the core issue
    overrides come from it, everything else from [actualType].

    The default value is loaded into the heap when it is needed.  The
    source keeps one default object per object node and copies its top
    level only, so the objects and arrays nested in a default value are
    shared between the results of different calls; the statements below
    about default values are made for defaults without nested objects or
    arrays ([flat_default]), where the copy is all there is. *)
Definition parseBody (this_ : Attrs) (actualType : BaseType) (children : ChildTable)
    (input : Value) : M Value :=
  vi <- (if isNullish input then
           i1 <- (if negb (isOptional this_) && strictEq input VUndefined then
                    p <- gets (fun st => ParseContext.path (ctx st)) ;;
                    i <- ParseContext.issue_of (CORE_ISSUES.required input p) ;;
                    ret (Some i)
                  else ret None) ;;
           i2 <- (if negb (isNullable this_) && strictEq input VNull then
                    p <- gets (fun st => ParseContext.path (ctx st)) ;;
                    i <- ParseContext.issue_of (CORE_ISSUES.required input p) ;;
                    ret (Some i)
                  else ret i1) ;;
           ret (VUndefined, i2)
         else
           res <- check actualType input ;;
           match res with
           | None => ret (input, None)
           | Some r =>
               value <- coerce actualType input ;;
               if isNullish value then ret (value, Some r)
               else ParseContext.removeIssues [r] ;;; ret (value, None)
           end) ;;
  let value := fst vi in
  let issue := snd vi in
  ParseContext.setInput input (bool_decide (issue = None)) actualType ;;;
  vd <- (if negb (isNullish value) then
           v <- clean actualType value ;; ret (v, false)
         else
           d <- lift (defaultValue actualType) ;;
           v <- (fun st => let '(v, h) := alloc d (heap st) in (Ok v, set_heap h st)) ;;
           ret (v, true)) ;;
  let isDefaultValue := snd vd in
  (* clone objects and arrays so that derived classes don't need to *)
  _ <- lift (isObject (fst vd)) ;;
  value <- (fun st => let '(v, h) := spread (heap st) (fst vd) in (Ok v, set_heap h st)) ;;
  issueOverride <- tryGetCoreIssueOverride input
                     (match issue with Some i => code i | None => "" end)
                     (overrides this_) ;;
  issue <- match issueOverride with
           | Some o =>
               match issue with
               | Some i => ParseContext.removeIssues [i]
               | None => ret tt
               end ;;;
               ret (Some o)
           | None => ret issue
           end ;;
  match issue with
  | Some i => ParseContext.addIssues [i]
  | None => ret tt
  end ;;;
  (if negb isDefaultValue then
     let parent := value in
     h <- gets heap ;;
     for_each (children h parent) (fun kt =>
       child <- ParseContext.withChildPath (fst kt)
                  (h' <- gets heap ;;
                   x <- lift (get_prop h' parent (key_to_string (fst kt))) ;;
                   snd kt x) ;;
       modify (fun st => set_heap (set_prop (heap st) parent (key_to_string (fst kt)) child) st))
   else ret tt) ;;;
  ret value.

(** [UnionType.getDiscriminatedMatch] *)
Definition getDiscriminatedMatch (discriminatedTypes : list Member) (input : Value)
    : M (option Member) :=
  o <- lift (isObject input) ;;
  if negb o then ret None
  else
    h <- gets heap ;;
    ret (List.find (fun m =>
           let keys := getLiteralKeys (m_type m) in
           negb (Nat.eqb (List.length keys) 0) &&
           forallb (fun kv =>
                      match get_prop h input (fst kv) with
                      | Ok v => strictEq v (snd kv)
                      | Thrown _ => false
                      end) keys)
         discriminatedTypes).

(** The trial loop of [UnionType.getShadowedType]. *)
Fixpoint try_types (typesToCheck : list Member) (input : Value) : M (option Member) :=
  match typesToCheck with
  | [] => ret None
  | type :: rest =>
      context <- gets ctx ;;
      r <- on_clone (m_parse type input) ;;
      if Nat.eqb (ParseContext.issueCount (snd r)) (ParseContext.issueCount context)
      then ret (Some type)
      else try_types rest input
  end.

(** [UnionType.getShadowedType(ctx, input)] *)
Definition getShadowedType (types : list Member) (input : Value) : M Member :=
  let discriminatedTypes :=
    List.filter (fun m => negb (Nat.eqb (List.length (getLiteralKeys (m_type m))) 0)) types in
  match_ <- getDiscriminatedMatch discriminatedTypes input ;;
  typesToCheck <-
    match match_ with
    | Some m => ret [m]
    | None =>
        if Nat.eqb (List.length types) (List.length discriminatedTypes)
        then match types with
             | t0 :: _ => ret [t0]
             | [] => throw (TypeError "Cannot read properties of undefined (reading 'parseInput')")
             end
        else ret types
    end ;;
  found <- try_types typesToCheck input ;;
  match found, typesToCheck with
  | Some type, _ => ret type
  | None, t0 :: _ => ret t0
  | None, [] => throw (TypeError "Cannot read properties of undefined (reading 'check')")
  end.

(** [parseInput] of a union node. *)
Definition parseUnion (this_ : Attrs) (types : list Member) (input : Value) : M Value :=
  actualType <- getShadowedType types input ;;
  parseBody this_ (m_type actualType) (m_children actualType) input.

(** [BaseType.parseInput(ctx, input)].  [getShadowedType] is overridden by
    [UnionType] only, so [actualType] is [this] for every other node. *)
Fixpoint parseInput (t : BaseType) : Value -> M Value :=
  match t with
  | UnionType a types =>
      parseUnion a
        (List.map (fun m => {| m_type := m; m_parse := parseInput m;
                               m_children := childParsers m |}) types)
  | RecordType a valueType => parseBody a t (recordChildKeys (parseInput valueType))
  | ObjectType a props =>
      parseBody a t
        (fun _ _ => objectChildKeys (List.map (fun kt => (fst kt, parseInput (snd kt))) props))
  | ArrayType a itemType _ => parseBody a t (arrayChildKeys (parseInput itemType))
  | _ => parseBody (attrs t) t (fun _ _ => [])
  end
with childParsers (t : BaseType) : ChildTable :=
  match t with
  | RecordType _ valueType => recordChildKeys (parseInput valueType)
  | ObjectType _ props =>
      fun _ _ => objectChildKeys (List.map (fun kt => (fst kt, parseInput (snd kt))) props)
  | ArrayType _ itemType _ => arrayChildKeys (parseInput itemType)
  | _ => fun _ _ => []
  end.

End Engine.

(** ** [base.ts]: refinements *)

(** [Type.overrideIssues(ctx, value, issues, override, overridePath)] *)
Definition overrideIssues (value : PVal) (issues_ : list Issue)
    (override_ : PVal -> Cb OverrideResult) (overridePath : Path) : M unit :=
  ParseContext.removeIssues issues_ ;;;
  r <- run false (override_ value) ;;
  issue <- match r with
           | OvString s =>
               i <- ParseContext.issue {| conds := [];
                                          first := FObj "custom" (MStr s) (Some overridePath);
                                          second := SNone; third := None |} ;;
               match i with
               | Some i => ret i
               | None => throw (TypeError "unreachable")
               end
           | OvIssue i => ret i
           end ;;
  ParseContext.addIssues [issue].

(** The [try] block of the loop over [validators] / [asyncValidators]. *)
Definition refinement_body (value : PVal) (path_ : Path) (entry : ValidatorEntry) : M unit :=
  modify (set_newIssues []) ;;;                    (* new IssueTrackingContext(ctx) *)
  result <- run true (validator entry value) ;;
  let issues_ := getIssues result in
  match override entry with
  | Some override_ =>
      tracked <- gets newIssues ;;
      let newIssues_ := issues_ ++ omap id tracked in
      overrideIssues value newIssues_ override_ path_
  | None => ParseContext.addIssues issues_
  end.

(** One iteration of that loop. *)
Definition run_refinement (value : PVal) (resetPath : M unit) (path_ : Path)
    (entry : ValidatorEntry) : M unit :=
  resetPath ;;;
  try_catch
    (refinement_body value path_ entry)
    (fun e =>
       match e with
       | ContextKeyError _ => throw e
       | _ =>
           p <- gets (fun st => ParseContext.path (ctx st)) ;;
           ParseContext.issue_of (CORE_ISSUES.exception e p) ;;; ret tt
       end).

(** [Type.validate] / [Type.validateAsync] for one node, given the list to
    run and the children to descend into. *)
Definition validateNode (entries : list ValidatorEntry)
    (children : Heap -> Value -> list (Key * (Value -> M unit))) (value : Value) : M unit :=
  context <- gets ctx ;;
  if ParseContext.pathHasErrors context then ret tt
  else
    h <- gets heap ;;
    for_each (children h value) (fun kt =>
      ParseContext.withChildPath (fst kt)
        (h' <- gets heap ;;
         x <- lift (get_prop h' value (key_to_string (fst kt))) ;;
         snd kt x)) ;;;
    Proxy.withProxy value (fun value resetPath =>
      path_ <- gets (fun st => ParseContext.path (ctx st)) ;;
      for_each entries (run_refinement value resetPath path_)).

Definition phase_entries (async : bool) (a : Attrs) : list ValidatorEntry :=
  if async then asyncValidators a else validators a.

(** Both phases walk the tree the same way; [this.getChildKeys] is the
    node's own ([Type.getChildKeys] for a union, which has no children). *)
Fixpoint validatePhase (async : bool) (t : BaseType) : Value -> M unit :=
  validateNode (phase_entries async (attrs t))
    (match t with
     | RecordType _ valueType => recordChildKeys (validatePhase async valueType)
     | ObjectType _ props =>
         fun _ _ => objectChildKeys
                      (List.map (fun kt => (fst kt, validatePhase async (snd kt))) props)
     | ArrayType _ itemType _ => arrayChildKeys (validatePhase async itemType)
     | _ => fun _ _ => []
     end).

Definition validate := validatePhase false.
Definition validateAsync := validatePhase true.

(** ** [base.ts]: entry points *)

(** [ParseResult<T>] without the per-field [input] tree, which is rebuilt
    from the context by [util.ts] and plays no role below. *)
Inductive ParseResult :=
| ParseSuccess (data : Value)
| ParseFailure (issues : list Issue).

Definition new_state (h : Heap) (o : ParseOptions) : State :=
  {| heap := h; next_issue := O; ctx := new_context o; proxies := []; newIssues := [] |}.

Section EntryPoints.

Context (js_Number : Heap -> Value -> option Z).

Definition makeResult (value : Value) : M ParseResult :=
  issues_ <- gets (fun st => ParseContext.getIssues (ctx st)) ;;
  match issues_ with
  | [] => ret (ParseSuccess value)
  | _ => ret (ParseFailure issues_)
  end.

(** [Type.getParseResult(ctx, input)] *)
Definition getParseResult (t : BaseType) (input : Value) : M ParseResult :=
  value <- parseInput js_Number t input ;;
  validate t value ;;;
  if hasAsyncValidators t then
    validateAsync t value ;;;
    makeResult value
  else makeResult value.

Definition async_validators_present :=
  JsError "Asynchronous validators present, call parseAsync or safeParseAsync".

(** [Type.safeParse(input, options)]; the second component is the heap
    the caller is left with. *)
Definition safeParse (t : BaseType) (input : Value) (o : ParseOptions) (h : Heap)
    : Outcome ParseResult * Heap :=
  if hasAsyncValidators t then (Thrown async_validators_present, h)
  else
    let '(r, st) := getParseResult t input (new_state h o) in
    (r, heap st).

(** [Type.safeParseAsync(input, options)] *)
Definition safeParseAsync (t : BaseType) (input : Value) (o : ParseOptions) (h : Heap)
    : Outcome ParseResult * Heap :=
  let '(r, st) := getParseResult t input (new_state h o) in
  (r, heap st).

Definition unwrap (r : Outcome ParseResult * Heap) : Outcome Value * Heap :=
  match r with
  | (Ok (ParseSuccess data), h) => (Ok data, h)
  | (Ok (ParseFailure issues_), h) => (Thrown (ParseError issues_), h)
  | (Thrown e, h) => (Thrown e, h)
  end.

(** [Type.parse] and [Type.parseAsync] *)
Definition parse (t : BaseType) (input : Value) (o : ParseOptions) (h : Heap) :=
  unwrap (safeParse t input o h).
Definition parseAsync (t : BaseType) (input : Value) (o : ParseOptions) (h : Heap) :=
  unwrap (safeParseAsync t input o h).

End EntryPoints.

(** ** [base.ts]: configuring a node

    Every chainable call works on [this.clone()]: a copy with its own
    validator lists that shares the child nodes. *)

Definition clone (t : BaseType) : BaseType := with_attrs t (attrs t).

Definition set_validators (l : list ValidatorEntry) (a : Attrs) : Attrs :=
  {| overrides := overrides a; isOptional := isOptional a; isNullable := isNullable a;
     validators := l; asyncValidators := asyncValidators a |}.
Definition set_asyncValidators (l : list ValidatorEntry) (a : Attrs) : Attrs :=
  {| overrides := overrides a; isOptional := isOptional a; isNullable := isNullable a;
     validators := validators a; asyncValidators := l |}.

Definition optional (t : BaseType) : BaseType :=
  let a := attrs (clone t) in
  with_attrs t {| overrides := overrides a; isOptional := true; isNullable := isNullable a;
                  validators := validators a; asyncValidators := asyncValidators a |}.

Definition nullable (t : BaseType) : BaseType :=
  let a := attrs (clone t) in
  with_attrs t {| overrides := overrides a; isOptional := isOptional a; isNullable := true;
                  validators := validators a; asyncValidators := asyncValidators a |}.

(** [issues(overrides)] *)
Definition with_issues (ovs : CoreIssueOverrides) (t : BaseType) : BaseType :=
  let a := attrs (clone t) in
  with_attrs t {| overrides := ovs; isOptional := isOptional a; isNullable := isNullable a;
                  validators := validators a; asyncValidators := asyncValidators a |}.

Definition anonymous (v : PVal -> Cb ValidationResult) : ValidatorEntry :=
  {| validator := v; name := None; params := None; override := None |}.

Definition refine (v : PVal -> Cb ValidationResult) (t : BaseType) : BaseType :=
  let a := attrs (clone t) in
  with_attrs t (set_validators (validators a ++ [anonymous v]) a).

Definition refineAsync (v : PVal -> Cb ValidationResult) (t : BaseType) : BaseType :=
  let a := attrs (clone t) in
  with_attrs t (set_asyncValidators (asyncValidators a ++ [anonymous v]) a).

Definition named (n : string) (e : ValidatorEntry) : bool :=
  match name e with
  | Some m => String.eqb m n
  | None => false
  end.

(** [list.findIndex((val) => val.name === name)] *)
Fixpoint findIndex (n : string) (l : list ValidatorEntry) : option nat :=
  match l with
  | [] => None
  | e :: rest => if named n e then Some O else S <$> findIndex n rest
  end.

(** [list[index] = entry] with [index <= list.length] *)
Definition list_assign (l : list ValidatorEntry) (index : nat) (e : ValidatorEntry)
    : list ValidatorEntry :=
  if decide (index < List.length l)%nat then <[index := e]> l else l ++ [e].

(** [Type.addExtension] *)
Definition addExtension (isAsync : bool) (n : string) (ps : list Value)
    (ov : option (ValidationResultOverride PVal))
    (v : PVal -> Cb ValidationResult) (t : BaseType) : BaseType :=
  let a := attrs (clone t) in
  let list := if isAsync then asyncValidators a else validators a in
  let index := default (List.length list) (findIndex n list) in
  let entry :=
    {| name := Some n; params := Some ps; validator := v;
       override := match ov with
                   | Some (OverrideStr s) => Some (fun _ => Return (OvString s))
                   | Some (OverrideFn f) => Some f
                   | None => None
                   end |} in
  let list := list_assign list index entry in
  with_attrs t (if isAsync then set_asyncValidators list a else set_validators list a).

(** [Type.extend] and [Type.extendAsync]; [ov] is [override?.message]. *)
Definition extend := addExtension false.
Definition extendAsync := addExtension true.

(** [Type.getExtensionParams(name)] *)
Definition getExtensionParams (n : string) (t : BaseType) : option (list Value) :=
  coalesce (List.find (named n) (validators (attrs t)) ≫= params)
           (List.find (named n) (asyncValidators (attrs t)) ≫= params).

(** ** [extend.ts] *)

(** An extension: a function from the call parameters to a validator, and
    the [async] flag [Extensions.for] / [Extensions.forAsync] put on it. *)
Record Extension := {
  ext_async : bool;
  ext_fn : list Value -> PVal -> Cb ValidationResult;
}.

(** The method [Extensions.apply] defines under [name].  The trailing
    [{ message }] argument, when present, has already been split off. *)
Definition extension_method (n : string) (x : Extension) (ps : list Value)
    (ov : option (ValidationResultOverride PVal)) (t : BaseType) : BaseType :=
  let v := ext_fn x ps in
  if ext_async x then extendAsync n ps ov v t else extend n ps ov v t.

(** [Extensions.getParams(type, ext, name)] *)
Definition getParams (t : BaseType) (n : string) : option (list Value) :=
  getExtensionParams n t.

(** ** [types.ts] constructors and [pukka.ts] *)

(** [new UnionType(types)] *)
Definition newUnionType (types : list BaseType) : Outcome BaseType :=
  if Nat.eqb (List.length types) 0
  then Thrown (JsError "UnionType options cannot be empty")
  else Ok (UnionType new_attrs types).

Module pukka.
Definition string (trim_ empty_ coerce_ : option bool) (ovs : CoreIssueOverrides) :=
  with_issues ovs (StringType new_attrs trim_ empty_ coerce_).
Definition number (coerce_ : option bool) (ovs : CoreIssueOverrides) :=
  with_issues ovs (NumberType new_attrs coerce_).
Definition boolean (coerce_ : option bool) (ovs : CoreIssueOverrides) :=
  with_issues ovs (BooleanType new_attrs coerce_).
Definition file (ovs : CoreIssueOverrides) := with_issues ovs (FileType new_attrs).
Definition enum (values : list String.string) (ovs : CoreIssueOverrides) :=
  with_issues ovs (EnumType new_attrs values).
Definition literal (value : Literal) (ovs : CoreIssueOverrides) :=
  with_issues ovs (LiteralType new_attrs value).
Definition record (valueType : BaseType) (ovs : CoreIssueOverrides) :=
  with_issues ovs (RecordType new_attrs valueType).
Definition object (props : list (String.string * BaseType)) (ovs : CoreIssueOverrides) :=
  with_issues ovs (ObjectType new_attrs props).
Definition array (itemType : BaseType) (coerce_ : option bool) (ovs : CoreIssueOverrides) :=
  with_issues ovs (ArrayType new_attrs itemType coerce_).
Definition union (types : list BaseType) (ovs : CoreIssueOverrides) : Outcome BaseType :=
  match newUnionType types with
  | Ok u => Ok (with_issues ovs u)
  | Thrown e => Thrown e
  end.
End pukka.

Definition no_overrides : CoreIssueOverrides :=
  {| invalid_type_error := None; required_error := None |}.

(** Nodes a schema author can build: constructors, the factory, and the
    chainable configuration calls. *)
Inductive Built : BaseType -> Prop :=
| Built_string tr em co : Built (StringType new_attrs tr em co)
| Built_number co : Built (NumberType new_attrs co)
| Built_boolean co : Built (BooleanType new_attrs co)
| Built_enum vs : Built (EnumType new_attrs vs)
| Built_literal l : Built (LiteralType new_attrs l)
| Built_file : Built (FileType new_attrs)
| Built_record vt : Built vt -> Built (RecordType new_attrs vt)
| Built_object props :
    (forall k t, In (k, t) props -> Built t) -> Built (ObjectType new_attrs props)
| Built_array it co : Built it -> Built (ArrayType new_attrs it co)
| Built_union types u :
    (forall t, In t types -> Built t) -> newUnionType types = Ok u -> Built u
| Built_optional t : Built t -> Built (optional t)
| Built_nullable t : Built t -> Built (nullable t)
| Built_issues ovs t : Built t -> Built (with_issues ovs t)
| Built_refine v t : Built t -> Built (refine v t)
| Built_refineAsync v t : Built t -> Built (refineAsync v t)
| Built_extension isAsync n ps ov v t :
    Built t -> Built (addExtension isAsync n ps ov v t).

(** Every union node of the tree has a member. *)
Fixpoint unions_inhabited (t : BaseType) : bool :=
  match t with
  | RecordType _ valueType => unions_inhabited valueType
  | ObjectType _ props => forallb (fun kt => unions_inhabited (snd kt)) props
  | ArrayType _ itemType _ => unions_inhabited itemType
  | UnionType _ types => negb (Nat.eqb (List.length types) 0) && forallb unions_inhabited types
  | _ => true
  end.

(** The nodes of a schema tree: the node itself and its descendants. *)
Fixpoint nodes (t : BaseType) : list BaseType :=
  t :: match t with
       | RecordType _ valueType => nodes valueType
       | ObjectType _ props => List.flat_map (fun kt => nodes (snd kt)) props
       | ArrayType _ itemType _ => nodes itemType
       | UnionType _ types => List.flat_map nodes types
       | _ => []
       end.

(** ** Chained configuration

    A schema author writes [z.string().min(2).optional()...]: a freshly
    constructed node followed by chainable calls.  [Extensions.apply] has
    put one method per extension name on the prototype, so a name always
    resolves to the same extension. *)
Inductive Step :=
| CallOptional
| CallNullable
| CallIssues (ovs : CoreIssueOverrides)
| CallRefine (v : PVal -> Cb ValidationResult)
| CallRefineAsync (v : PVal -> Cb ValidationResult)
| CallExtension (n : string) (ps : list Value) (ov : option (ValidationResultOverride PVal)).

(** [None]: the method does not exist on the node. *)
Definition call (x : list (string * Extension)) (t : BaseType) (s : Step) : option BaseType :=
  match s with
  | CallOptional => Some (optional t)
  | CallNullable => Some (nullable t)
  | CallIssues ovs => Some (with_issues ovs t)
  | CallRefine v => Some (refine v t)
  | CallRefineAsync v => Some (refineAsync v t)
  | CallExtension n ps ov =>
      match assoc n x with
      | Some e => Some (extension_method n e ps ov t)
      | None => None
      end
  end.

Fixpoint chain (x : list (string * Extension)) (t : BaseType) (steps : list Step)
    : option BaseType :=
  match steps with
  | [] => Some t
  | s :: rest =>
      match call x t s with
      | Some t' => chain x t' rest
      | None => None
      end
  end.

(** The parameters of the latest call of extension [n] in a chain. *)
Definition applications (n : string) (steps : list Step) : list (list Value) :=
  omap (fun s => match s with
                 | CallExtension m ps _ => if String.eqb m n then Some ps else None
                 | _ => None
                 end) steps.

Definition latest_params (n : string) (steps : list Step) : option (list Value) :=
  last (applications n steps).

(** How many entries of a validator list are registered under [n]. *)
Definition registered (n : string) (l : list ValidatorEntry) : nat :=
  List.length (List.filter (named n) l).

(** ** States named in the statements below *)

(** The state after [setPath(p)]. *)
Definition at_path (p : Path) (st : State) : State :=
  set_ctx (ctx_set_path p (ctx st)) st.

(** The state after a newly created issue object has been added to the
    issue set. *)
Definition add_issue (i : Issue) (st : State) : State :=
  set_ctx (ctx_set_issues (issues (ctx st) ++ [i]) (ctx st))
          (set_next_issue (S (next_issue st)) st).

(** The state after [removeIssues(l)]. *)
Definition without_issues (l : list Issue) (st : State) : State :=
  set_ctx (ctx_set_issues (fold_left ParseContext.set_delete l (issues (ctx st))) (ctx st)) st.

(** The state after [addIssues([i])]. *)
Definition with_issue (i : Issue) (st : State) : State :=
  set_ctx (ctx_set_issues (ParseContext.set_add (issues (ctx st)) i) (ctx st)) st.

(** The state after [setInput(input, parsed, type)]. *)
Definition record_input (input : Value) (parsed : bool) (type : BaseType) (st : State) : State :=
  set_ctx (ctx_set_inputs
             (<[join (_path (ctx st)) :=
                  {| in_value := input; in_parsed := parsed; in_type := type |}]>
                (inputs (ctx st))) (ctx st)) st.

(** The entry [addExtension] stores. *)
Definition extension_entry (n : string) (ps : list Value)
    (ov : option (ValidationResultOverride PVal)) (v : PVal -> Cb ValidationResult)
    : ValidatorEntry :=
  {| name := Some n; params := Some ps; validator := v;
     override := match ov with
                 | Some (OverrideStr s) => Some (fun _ => Return (OvString s))
                 | Some (OverrideFn f) => Some f
                 | None => None
                 end |}.

(** [list[index] = entry] at the index [addExtension] computes. *)
Definition upsert (n : string) (e : ValidatorEntry) (l : list ValidatorEntry) :=
  list_assign l (default (List.length l) (findIndex n l)) e.

(** What a chain of calls establishes about extension name [n]. *)
Definition tracked (x : list (string * Extension)) (steps : list Step) (t : BaseType)
    (n : string) : Prop :=
  match latest_params n steps with
  | Some ps =>
      exists e, assoc n x = Some e /\
        registered n (phase_entries (ext_async e) (attrs t)) = 1%nat /\
        registered n (phase_entries (negb (ext_async e)) (attrs t)) = 0%nat /\
        List.find (named n) (phase_entries (ext_async e) (attrs t)) ≫= params = Some ps
  | None =>
      registered n (validators (attrs t)) = 0%nat /\
      registered n (asyncValidators (attrs t)) = 0%nat
  end.

(** [input] carries the value of every discriminant key of member [t]. *)
Definition discriminants_match (h : Heap) (input : Value) (t : BaseType) : bool :=
  forallb (fun kv => match get_prop h input (fst kv) with
                     | Ok v => strictEq v (snd kv)
                     | Thrown _ => false
                     end) (getLiteralKeys t).

(** A union member as [parseInput] hands it to [getShadowedType]. *)
Definition as_member (js_Number : Heap -> Value -> option Z) (m : BaseType) : Member :=
  {| m_type := m; m_parse := parseInput js_Number m; m_children := childParsers js_Number m |}.

(** The scalar nodes. *)
Definition is_leaf (t : BaseType) : bool :=
  match t with
  | StringType _ _ _ _ | NumberType _ _ | BooleanType _ _ | EnumType _ _
  | LiteralType _ _ | FileType _ => true
  | _ => false
  end.

(** The override [tryGetCoreIssueOverride] selects for an issue code. *)
Definition core_override (code_ : string) (ovs : CoreIssueOverrides)
    : option (ValidationResultOverride Value) :=
  if String.eqb code_ invalid_type_CODE then invalid_type_error ovs
  else if String.eqb code_ required_CODE then required_error ovs
  else None.

(** ** Sample schemas and callbacks *)

Module Samples.

(** [Number] on the values the samples use. *)
Definition toNumber (_ : Heap) (v : Value) : option Z :=
  match v with
  | VNum n => Some n
  | VBool true => Some 1
  | VBool false | VNull => Some 0
  | VStr s =>
      if String.eqb (trim s) "" then Some 0
      else match parseInt s with
           | Some n => if String.eqb (pretty n) (trim s) then Some n else None
           | None => None
           end
  | _ => None
  end.

(** [ctx.issue(message)] *)
Definition with_message (m : String.string) : IssueArgs :=
  {| conds := []; first := FStr m; second := SNone; third := None |}.

(** [ctx.issue(code, message)] *)
Definition with_code (c m : String.string) : IssueArgs :=
  {| conds := []; first := FStr c; second := SMsg (MStr m); third := None |}.

Definition item (o : option Issue) : ResultItem :=
  match o with Some i => ItemIssue i | None => ItemOther end.

(** [(ctx) => ctx.issue(message)] *)
Definition raise (m : String.string) : PVal -> Cb ValidationResult :=
  fun _ => RaiseIssue (with_message m) (fun i => Return (ResOne (item i))).

(** [(ctx) => { ctx.issue(m1); ctx.issue(m2) }] *)
Definition raise_two (m1 m2 : String.string) : PVal -> Cb ValidationResult :=
  fun _ => RaiseIssue (with_message m1) (fun _ =>
           RaiseIssue (with_message m2) (fun _ => Return (ResOne ItemOther))).

(** [(ctx, data) => { data.a.b[2]; return ctx.issue(message) }] *)
Definition read_a_b_2_then_issue (m : String.string) : PVal -> Cb ValidationResult :=
  fun data =>
    ReadProp data "a" (fun a =>
    ReadProp a "b" (fun b =>
    ReadProp b "2" (fun _ =>
    RaiseIssue (with_message m) (fun i => Return (ResOne (item i)))))).


(** [(ctx, data) => { data.name; ctx.issue("too short") }] *)
Definition check_name : PVal -> Cb ValidationResult :=
  fun data => ReadProp data "name" (fun _ =>
              RaiseIssue (with_message "too short") (fun i => Return (ResOne (item i)))).

(** [(ctx) => ctx.issue("bad_name", "Bad name")] as a message override *)
Definition override_with_issue : PVal -> Cb OverrideResult :=
  fun _ => RaiseIssue (with_code "bad_name" "Bad name") (fun i =>
           match i with
           | Some i => Return (OvIssue i)
           | None => Return (OvString "")
           end).

Definition plain_string := pukka.string None None None no_overrides.
Definition plain_number := pukka.number None no_overrides.

(** [z.string({ invalid_type_error: (ctx) => ctx.issue("invalid", "Invalid name") })],
    as in the repository's [Traveler] schema *)
Definition name_with_override : BaseType :=
  pukka.string None None None
    {| invalid_type_error :=
         Some (OverrideFn (fun _ =>
           RaiseIssue (with_code "invalid" "Invalid name") (fun i =>
             match i with
             | Some i => Return (OvIssue i)
             | None => Return (OvString "")
             end)));
       required_error := None |}.

(** [z.object({ name: z.string() })] *)
Definition Person : BaseType :=
  pukka.object [("name", plain_string)] no_overrides.

(** [z.string().refine(sync).refineAsync(async)] *)
Definition sync_then_async : BaseType :=
  refineAsync (raise "async") (refine (raise "sync") plain_string).



(** [z.object({ a: z.object({ b: z.array(z.number()) }) }).refine(...)] *)
Definition nested : BaseType :=
  refine (read_a_b_2_then_issue "bad item")
    (pukka.object
       [("a", pukka.object [("b", pukka.array plain_number None no_overrides)]
                           no_overrides)]
       no_overrides).

(** A discriminated union, as in the repository's tests. *)
Definition string_member : BaseType :=
  ObjectType new_attrs [("type", LiteralType new_attrs (LStr "string"));
                        ("stringValue", StringType new_attrs None None None)].
Definition number_member : BaseType :=
  ObjectType new_attrs [("type", LiteralType new_attrs (LStr "number"));
                        ("numericValue", NumberType new_attrs None)].
Definition tagged : BaseType := UnionType new_attrs [string_member; number_member].

(** Two extensions of [StringType]. *)
Definition min : Extension :=
  {| ext_async := false;
     ext_fn := fun ps v =>
       match ps, v with
       | [VNum n], Raw (VStr s) =>
           if Z.of_nat (String.length s) >=? n then Return (ResOne ItemOther)
           else RaiseIssue (with_message "too short") (fun i => Return (ResOne (item i)))
       | _, _ => Return (ResOne ItemOther)
       end |}.
Definition username : Extension :=
  {| ext_async := true;
     ext_fn := fun _ v =>
       match v with
       | Raw (VStr "homer") =>
           RaiseIssue (with_message "homer is already taken")
                      (fun i => Return (ResOne (item i)))
       | _ => Return (ResOne ItemOther)
       end |}.
Definition StringExtensions : list (String.string * Extension) :=
  [("min", min); ("username", username)].

(** [z.object({ name: z.string() }).ext(..., { message: (ctx) => ctx.issue(...) })] *)
Definition overridden_by_callback : BaseType :=
  extend "checkName" [] (Some (OverrideFn override_with_issue)) check_name Person.

(** [z.string().ext(..., { message: "Invalid name" })] with a refinement
    raising two issues *)
Definition overridden_by_string : BaseType :=
  extend "two" [] (Some (OverrideStr "Invalid name")) (raise_two "first" "second")
         plain_string.

End Samples.

(** ** Notions the statements below are phrased with *)

(** The issue the [catch] clause of [validate] records:
    [ctx.issue(exception(e, ctx.path))]. *)
Definition exception_issue (e : Error) (st : State) : Issue :=
  mkIssue (next_issue st) (_path (ctx st)) "exception" ("Exception: " +:+ error_message e).

(** [e instanceof ContextKeyError] *)
Definition is_key_error (e : Error) : bool :=
  match e with ContextKeyError _ => true | _ => false end.

(** The values the path-tracking view wraps. *)
Definition is_container (v : Value) : bool :=
  match v with VObj _ | VArr _ => true | _ => false end.

(** What a core issue override yields before it is turned into an issue. *)
Definition override_outcome (ov : ValidationResultOverride Value) (input : Value)
    : M OverrideResult :=
  match ov with
  | OverrideStr s => ret (OvString s)
  | OverrideFn f => run false (f input)
  end.

(** The issue that replaces a core issue with code [c]. *)
Definition replacement (c : string) (res : OverrideResult) (st : State) : Issue * State :=
  match res with
  | OvString s =>
      let i := mkIssue (next_issue st) (_path (ctx st)) c s in (i, add_issue i st)
  | OvIssue i => (i, st)
  end.

(** A value that passes a scalar check is a primitive, which [clean] maps
    to a primitive and the cloning step leaves alone. *)
Definition is_primitive (v : Value) : bool :=
  match v with
  | VBool _ | VNum _ | VStr _ | VFile _ => true
  | _ => false
  end.

(** The result of [clean] on a scalar. *)
Definition cleaned (t : BaseType) (o : ParseOptions) (input : Value) : Value :=
  match t, input with
  | StringType _ trim_ _ _, VStr s => VStr (trimValue trim_ o s)
  | _, _ => input
  end.

(** [m] never throws the error [safeParse] raises for asynchronous
    refinements. *)
Definition quiet {A} (m : M A) : Prop :=
  forall st e st', m st = (Thrown e, st') -> e <> async_validators_present.

(** [m] only returns values satisfying [P]. *)
Definition returns {A} (P : A -> Prop) (m : M A) : Prop :=
  forall st a st', m st = (Ok a, st') -> P a.

(** The same for the parsers of a node's children and for a union member. *)
Definition quiet_children (children : ChildTable) : Prop :=
  forall h v, Forall (fun kt => forall x, quiet (snd kt x)) (children h v).

Definition quiet_member (m : Member) : Prop :=
  (forall input, quiet (m_parse m input)) /\ quiet_children (m_children m).

(** [typesToCheck] of [UnionType.getShadowedType]. *)
Definition candidates (types : list Member) (match_ : option Member) : M (list Member) :=
  match match_ with
  | Some m => ret [m]
  | None =>
      if Nat.eqb (List.length types)
           (List.length
              (List.filter (fun m => negb (Nat.eqb (List.length (getLiteralKeys (m_type m))) 0))
                 types))
      then match types with
           | t0 :: _ => ret [t0]
           | [] => throw (TypeError "Cannot read properties of undefined (reading 'parseInput')")
           end
      else ret types
  end.

(** The properties [ObjectType.clean] keeps: the declared ones, and those
    named like a member of [Object.prototype]. *)
Definition kept (props : list (string * BaseType)) (kv : string * Value) : bool :=
  has_property props (fst kv).


(** The entry of [Samples.overridden_by_string]. *)
Definition two_entry : ValidatorEntry :=
  extension_entry "two" [] (Some (OverrideStr "Invalid name"))
                  (Samples.raise_two "first" "second").

(** [z.string().min(2).optional().min(4)] *)
Definition min_twice : list Step :=
  [CallExtension "min" [VNum 2] None; CallOptional; CallExtension "min" [VNum 4] None].

(** ** Further notions *)

(** The error of reading [null.constructor] in [isObject]. *)
Definition null_constructor_error : Error :=
  TypeError "Cannot read properties of null (reading 'constructor')".

Definition is_union (t : BaseType) : bool :=
  match t with UnionType _ _ => true | _ => false end.

(** [this.isOptional] / [this.isNullable] admit the nullish [input]. *)
Definition admits (a : Attrs) (input : Value) : bool :=
  (isOptional a && strictEq input VUndefined) || (isNullable a && strictEq input VNull).

(** The [required] issue [parseInput] creates for a nullish input. *)
Definition required_issue (input : Value) (st : State) : Issue :=
  mkIssue (next_issue st) (_path (ctx st)) "required"
          ("Value is required, Received '" +:+ toString input +:+ "'").

(** Issue objects are created with the next free identity: the ones in the
    set are older. *)
Definition fresh_ids (st : State) : Prop :=
  Forall (fun i => (issue_id i < next_issue st)%nat) (issues (ctx st)).

(** [z.string({ invalid_type_error: () => { throw new Error("boom") } })] *)
Definition throwing_override : BaseType :=
  pukka.string None None None
    {| invalid_type_error := Some (OverrideFn (fun _ => Throw (ExnError "boom")));
       required_error := None |}.

(** [m] takes every state to one related to it by [R], whether it returns
    or throws. *)
Definition steps (R : State -> State -> Prop) {A} (m : M A) : Prop :=
  forall st, R st (snd (m st)).

(** What the operations of the context interface leave alone: the heap, and
    the input map and the options, which no callback can reach. *)
Definition same_inputs (st st' : State) : Prop :=
  heap st' = heap st /\
  inputs (ctx st') = inputs (ctx st) /\ options (ctx st') = options (ctx st).

Definition same_heap (st st' : State) : Prop := heap st' = heap st.

Definition same_path (st st' : State) : Prop :=
  _path (ctx st') = _path (ctx st).

(** ** [base.ts]: [getPathType] *)

(** [c.key === key] *)
Definition key_eqb (a b : Key) : bool := bool_decide (a = b).

(** The property names that are array indices: the canonical renderings of
    the integers from [0] to [2^32 - 2]. *)
Definition is_array_index (prop : string) : bool :=
  match as_index prop with
  | Some i => Z.of_nat i <? 4294967295
  | None => false
  end.

(** [getPathType(containerType, path)]; [None] is [undefined].  The default
    value is a fresh literal here, so the assignment [value[key] = undefined]
    is made on a heap of its own.  Assigning a key that is not an index adds
    an ordinary property to the array object, which [getChildKeys] does not
    look at. *)
Fixpoint getPathType (t : BaseType) (p : Path) : Outcome (option BaseType) :=
  match p with
  | [] => Ok (Some t)
  | key :: rest =>
      match defaultValue t with
      | Thrown e => Thrown e
      | Ok d =>
          let value := fst (alloc d []) in
          let h := snd (alloc d []) in
          let h := if isArray value && is_array_index (key_to_string key)
                   then set_prop h value (key_to_string key) VUndefined else h in
          match List.find (fun c => key_eqb (fst c) key) (getChildKeys t h value) with
          | Some c => getPathType (snd c) rest
          | None => Ok None
          end
      end
  end.

(** ** Decimal digits *)

(** [c] is one of [0] ... [9]. *)
Definition is_digit (c : ascii) : bool :=
  match digit_val 10 c with Some _ => true | None => false end.

Fixpoint all_digits (s : string) : bool :=
  match s with
  | EmptyString => true
  | String c r => is_digit c && all_digits r
  end.

Definition starts_with_digit (s : string) : bool :=
  match s with String c _ => is_digit c | EmptyString => false end.

(** A value with no properties of its own to descend into. *)
Definition scalar_value (v : Value) : Prop := isNullish v = true \/ is_primitive v = true.

(** ** Default values *)

(** A literal without nested objects or arrays. *)
Definition scalar_data (d : Data) : bool :=
  match d with DObject _ | DArray _ => false | _ => true end.

Definition flat_default (d : Data) : bool :=
  match d with
  | DObject fields => forallb (fun kd => scalar_data (snd kd)) fields
  | DArray items =>
      forallb (fun x => match x with Some d => scalar_data d | None => false end) items
  | DUndefined | DNull => false
  | _ => true
  end.

(** [v], in the heap [h'], is a copy of the literal [d] made from the heap
    [h]: it reads back as [d]; a scalar leaves the heap alone, a container
    is allocated by the copy; what was in [h] is untouched. *)
Definition default_copy (d : Data) (h : Heap) (v : Value) (h' : Heap) : Prop :=
  readback 1 h' v = d /\
  (forall a, (a < List.length h)%nat -> h' !! a = h !! a) /\
  (if scalar_data d then h' = h
   else exists a, (v = VObj a \/ v = VArr a) /\ (List.length h <= a)%nat).

(** ** Further samples *)

(** [z.union([z.string().refine(() => ctx.issue("never seen"))])] *)
Definition refined_member : BaseType := refine (Samples.raise "never seen") Samples.plain_string.
Definition union_of_refined : BaseType := UnionType new_attrs [refined_member].


(** * Induction over schema trees *)

Lemma BaseType_tree_ind (P : BaseType -> Prop) :
  (forall a tr em co, P (StringType a tr em co)) ->
  (forall a co, P (NumberType a co)) ->
  (forall a co, P (BooleanType a co)) ->
  (forall a vs, P (EnumType a vs)) ->
  (forall a l, P (LiteralType a l)) ->
  (forall a, P (FileType a)) ->
  (forall a vt, P vt -> P (RecordType a vt)) ->
  (forall a props, Forall (fun kt => P (snd kt)) props -> P (ObjectType a props)) ->
  (forall a it co, P it -> P (ArrayType a it co)) ->
  (forall a types, Forall P types -> P (UnionType a types)) ->
  forall t, P t.
Proof.
  intros Hs Hn Hb He Hl Hf Hr Ho Ha Hu.
  fix IH 1. intros [a tr em co|a co|a co|a vs|a l|a|a vt|a props|a it co|a types].
  - apply Hs.
  - apply Hn.
  - apply Hb.
  - apply He.
  - apply Hl.
  - apply Hf.
  - apply Hr, IH.
  - apply Ho. induction props as [|[k ty] rest IHrest]; constructor; [apply IH | exact IHrest].
  - apply Ha, IH.
  - apply Hu. induction types as [|ty rest IHrest]; constructor; [apply IH | exact IHrest].
Qed.

Lemma unions_inhabited_with_attrs t a :
  unions_inhabited (with_attrs t a) = unions_inhabited t.
Proof. destruct t; reflexivity. Qed.

Lemma defaultValue_with_attrs t a :
  defaultValue (with_attrs t a) = defaultValue t.
Proof. destruct t; reflexivity. Qed.

Lemma Built_unions_inhabited t : Built t -> unions_inhabited t = true.
Proof.
  induction 1 as [| | | | | |vt _ IH|props _ IH|it co _ IH|types u _ IH Hu
                  |t _ IH|t _ IH|ovs t _ IH|v t _ IH|v t _ IH|b n ps ov v t _ IH];
    simpl; try reflexivity; try assumption;
    try (unfold optional, nullable, with_issues, refine, refineAsync, addExtension;
         rewrite unions_inhabited_with_attrs; assumption).
  - apply forallb_forall. intros [k ty] Hin. apply (IH k ty Hin).
  - unfold newUnionType in Hu. destruct types as [|t0 rest]; simpl in Hu; [discriminate|].
    injection Hu as <-.
    change (forallb unions_inhabited (t0 :: rest) = true).
    apply forallb_forall. intros x Hin. apply IH, Hin.
Qed.

Lemma unions_inhabited_nodes t n :
  unions_inhabited t = true -> In n (nodes t) -> unions_inhabited n = true.
Proof.
  revert n. induction t as [| | | | | |a vt IH|a props IH|a it co IH|a types IH] using BaseType_tree_ind;
    intros n Hwf Hin; simpl in Hin;
    try (destruct Hin as [<-|[]]; exact Hwf).
  - destruct Hin as [<-|Hin]; [exact Hwf|]. apply IH; [exact Hwf|exact Hin].
  - destruct Hin as [<-|Hin]; [exact Hwf|].
    apply in_flat_map in Hin as [[k ty] [Hk Hn]]. simpl in Hwf.
    rewrite forallb_forall in Hwf. rewrite Forall_forall in IH.
    apply (IH (k, ty)); [apply list_elem_of_In, Hk | apply (Hwf (k, ty) Hk) | exact Hn].
  - destruct Hin as [<-|Hin]; [exact Hwf|]. apply IH; [exact Hwf|exact Hin].
  - destruct Hin as [<-|Hin]; [exact Hwf|].
    apply in_flat_map in Hin as [ty [Hk Hn]]. simpl in Hwf.
    apply andb_true_iff in Hwf as [_ Hwf].
    rewrite forallb_forall in Hwf. rewrite Forall_forall in IH.
    apply (IH ty); [apply list_elem_of_In, Hk | apply (Hwf ty Hk) | exact Hn].
Qed.

Lemma unions_inhabited_default t :
  unions_inhabited t = true -> exists d, defaultValue t = Ok d.
Proof.
  induction t as [| | | | | |a vt IH|a props IH|a it co IH|a types IH] using BaseType_tree_ind;
    intros Hwf; simpl; eauto.
  - simpl in Hwf. rewrite forallb_forall in Hwf.
    assert (exists ds, (fix go (l : list (string * BaseType)) : Outcome (list (string * Data)) :=
           match l with
           | [] => Ok []
           | (k, ty) :: rest =>
               match defaultValue ty, go rest with
               | Ok d, Ok ds => Ok ((k, d) :: ds)
               | Thrown e, _ => Thrown e
               | _, Thrown e => Thrown e
               end
           end) props = Ok ds) as [ds ->]; [|eauto].
    induction props as [|[k ty] rest IHrest]; [eauto|].
    inversion IH as [|? ? Hty Hrest]; subst.
    destruct (Hty (Hwf (k, ty) (or_introl eq_refl))) as [d Hd]. simpl in Hd. rewrite Hd.
    destruct (IHrest Hrest (fun x Hx => Hwf x (or_intror Hx))) as [ds ->]. eauto.
  - destruct types as [|t0 rest]; simpl in Hwf; [discriminate|].
    apply andb_true_iff in Hwf as [Ht0 _].
    inversion IH; subst; auto.
Qed.

(** C10.  [new UnionType([])] and [z.union([])] throw
    [UnionType options cannot be empty]; hence every union node of a schema
    built through the factory has a first member, and its [defaultValue] is
    that member's, which is defined. *)
Theorem union_members_nonempty :
  newUnionType [] = Thrown (JsError "UnionType options cannot be empty") /\
  (forall ovs, pukka.union [] ovs = Thrown (JsError "UnionType options cannot be empty")) /\
  (forall t a types,
     Built t -> In (UnionType a types) (nodes t) ->
     exists t0 rest d,
       types = t0 :: rest /\
       defaultValue (UnionType a types) = defaultValue t0 /\
       defaultValue t0 = Ok d).
Proof.
  split; [reflexivity|]. split; [reflexivity|].
  intros t a types Hb Hin.
  pose proof (unions_inhabited_nodes _ _ (Built_unions_inhabited _ Hb) Hin) as Hwf.
  destruct (unions_inhabited_default _ Hwf) as [d Hd].
  destruct types as [|t0 rest]; [discriminate|].
  exists t0, rest, d. repeat split. exact Hd.
Qed.

(** * Extensions *)

Lemma attrs_with_attrs t a : attrs (with_attrs t a) = a.
Proof. destruct t; reflexivity. Qed.

Lemma clone_id t : clone t = t.
Proof. destruct t; reflexivity. Qed.

Lemma upsert_cons n e x r :
  upsert n e (x :: r) = if named n x then e :: r else x :: upsert n e r.
Proof.
  unfold upsert, list_assign. simpl findIndex.
  destruct (named n x); [reflexivity|].
  destruct (findIndex n r) as [i|]; simpl.
  - repeat case_decide; try lia; reflexivity.
  - repeat case_decide; try lia; reflexivity.
Qed.

Lemma named_inj n m e : named n e = true -> named m e = true -> n = m.
Proof.
  unfold named. destruct (name e) as [k|]; [|discriminate].
  intros H1 H2. apply String.eqb_eq in H1, H2. congruence.
Qed.

Lemma registered_cons n x r :
  registered n (x :: r) = ((if named n x then 1 else 0) + registered n r)%nat.
Proof. unfold registered. simpl. destruct (named n x); reflexivity. Qed.

Lemma registered_app n l1 l2 :
  registered n (l1 ++ l2) = (registered n l1 + registered n l2)%nat.
Proof. unfold registered. rewrite List.filter_app, List.length_app. reflexivity. Qed.

Lemma registered_upsert_same n e l :
  named n e = true ->
  registered n (upsert n e l) = Nat.max 1 (registered n l).
Proof.
  intros He. induction l as [|x r IH].
  - unfold upsert, list_assign. simpl. rewrite registered_cons, He. reflexivity.
  - rewrite upsert_cons. destruct (named n x) eqn:Hx.
    + rewrite !registered_cons, He, Hx. lia.
    + rewrite !registered_cons, Hx, IH. lia.
Qed.

Lemma registered_upsert_other n m e l :
  named m e = true -> n <> m ->
  registered n (upsert m e l) = registered n l.
Proof.
  intros He Hne.
  assert (Hn : forall y, named m y = true -> named n y = false).
  { intros y Hy. destruct (named n y) eqn:E; [|reflexivity].
    exfalso. apply Hne. eapply named_inj; eassumption. }
  induction l as [|x r IH].
  - unfold upsert, list_assign. simpl. rewrite registered_cons, (Hn e He). reflexivity.
  - rewrite upsert_cons. destruct (named m x) eqn:Hx.
    + rewrite !registered_cons, (Hn e He), (Hn x Hx). reflexivity.
    + rewrite !registered_cons, IH. reflexivity.
Qed.

Lemma find_upsert_same n e l :
  named n e = true -> List.find (named n) (upsert n e l) = Some e.
Proof.
  intros He. induction l as [|x r IH].
  - unfold upsert, list_assign. simpl. rewrite He. reflexivity.
  - rewrite upsert_cons. destruct (named n x) eqn:Hx; simpl.
    + rewrite He. reflexivity.
    + rewrite Hx. exact IH.
Qed.

Lemma find_upsert_other n m e l :
  named m e = true -> n <> m ->
  List.find (named n) (upsert m e l) = List.find (named n) l.
Proof.
  intros He Hne.
  assert (Hn : forall y, named m y = true -> named n y = false).
  { intros y Hy. destruct (named n y) eqn:E; [|reflexivity].
    exfalso. apply Hne. eapply named_inj; eassumption. }
  induction l as [|x r IH].
  - unfold upsert, list_assign. simpl. rewrite (Hn e He). reflexivity.
  - rewrite upsert_cons. destruct (named m x) eqn:Hx; simpl.
    + rewrite (Hn e He), (Hn x Hx). reflexivity.
    + rewrite IH. reflexivity.
Qed.

Lemma find_registered_zero n l :
  registered n l = 0%nat -> List.find (named n) l = None.
Proof.
  induction l as [|x r IH]; [reflexivity|].
  rewrite registered_cons. simpl. destruct (named n x); [discriminate|]. exact IH.
Qed.

Lemma findIndex_registered n l :
  (0 < registered n l)%nat ->
  exists i old, findIndex n l = Some i /\ l !! i = Some old /\ named n old = true.
Proof.
  induction l as [|x r IH]; [unfold registered; simpl; lia|].
  rewrite registered_cons. simpl. destruct (named n x) eqn:Hx.
  - intros _. exists O, x. auto.
  - intros H. destruct (IH H) as (i & old & -> & Hl & Ho).
    exists (S i), old. auto.
Qed.

Lemma named_name n e : named n e = true -> name e = Some n.
Proof.
  unfold named. destruct (name e) as [k|]; [|discriminate].
  intros H. apply String.eqb_eq in H. congruence.
Qed.

Lemma named_extension_entry n ps ov v : named n (extension_entry n ps ov v) = true.
Proof. unfold named. simpl. apply String.eqb_refl. Qed.

Lemma addExtension_entries isAsync n ps ov v t b :
  phase_entries b (attrs (addExtension isAsync n ps ov v t)) =
  if Bool.eqb b isAsync
  then upsert n (extension_entry n ps ov v) (phase_entries b (attrs t))
  else phase_entries b (attrs t).
Proof.
  unfold addExtension. rewrite clone_id, attrs_with_attrs.
  destruct isAsync, b; reflexivity.
Qed.

Lemma chain_snoc x t steps s :
  chain x t (steps ++ [s]) = chain x t steps ≫= fun t' => call x t' s.
Proof.
  revert t. induction steps as [|s0 rest IH]; intros t; simpl.
  - destruct (call x t s); reflexivity.
  - destruct (call x t s0); [apply IH|reflexivity].
Qed.

Lemma latest_params_snoc n steps s :
  latest_params n (steps ++ [s]) =
  match s with
  | CallExtension m ps _ => if String.eqb m n then Some ps else latest_params n steps
  | _ => latest_params n steps
  end.
Proof.
  unfold latest_params, applications. rewrite omap_app. simpl.
  destruct s; simpl; rewrite ?app_nil_r; try reflexivity.
  destruct (String.eqb n0 n); simpl; [apply last_snoc | rewrite app_nil_r; reflexivity].
Qed.

Lemma tracked_same_lists x steps steps' t t' n :
  latest_params n steps' = latest_params n steps ->
  registered n (validators (attrs t')) = registered n (validators (attrs t)) ->
  registered n (asyncValidators (attrs t')) = registered n (asyncValidators (attrs t)) ->
  List.find (named n) (validators (attrs t')) = List.find (named n) (validators (attrs t)) ->
  List.find (named n) (asyncValidators (attrs t')) = List.find (named n) (asyncValidators (attrs t)) ->
  tracked x steps t n -> tracked x steps' t' n.
Proof.
  unfold tracked. intros -> Hv Ha Hfv Hfa.
  destruct (latest_params n steps) as [ps|].
  - intros (e & He & H1 & H0 & Hf). exists e. split; [exact He|].
    destruct (ext_async e); simpl in *; rewrite ?Hv, ?Ha, ?Hfv, ?Hfa; auto.
  - rewrite Hv, Ha. auto.
Qed.

Lemma registered_anonymous n v l :
  registered n (l ++ [anonymous v]) = registered n l.
Proof. rewrite registered_app. unfold registered. simpl. lia. Qed.

Lemma find_anonymous n v l :
  List.find (named n) (l ++ [anonymous v]) = List.find (named n) l.
Proof.
  induction l as [|x r IH]; simpl; [reflexivity|].
  destruct (named n x); [reflexivity|exact IH].
Qed.

Lemma tracked_call x steps t s t' n :
  call x t s = Some t' -> tracked x steps t n -> tracked x (steps ++ [s]) t' n.
Proof.
  intros Hcall Ht.
  destruct s as [| |ovs|v|v|m ps ov]; simpl in Hcall.
  1-5: injection Hcall as <-;
    apply (tracked_same_lists x steps _ t _ n); try assumption;
    try (rewrite latest_params_snoc; reflexivity);
    unfold optional, nullable, with_issues, refine, refineAsync;
    rewrite ?clone_id, ?attrs_with_attrs; simpl;
    rewrite ?registered_anonymous, ?find_anonymous; reflexivity.
  destruct (assoc m x) as [e|] eqn:Hm; [|discriminate].
  injection Hcall as <-.
  unfold extension_method, extend, extendAsync.
  assert (Hentries : forall b,
    phase_entries b (attrs (if ext_async e
                            then addExtension true m ps ov (ext_fn e ps) t
                            else addExtension false m ps ov (ext_fn e ps) t)) =
    if Bool.eqb b (ext_async e)
    then upsert m (extension_entry m ps ov (ext_fn e ps)) (phase_entries b (attrs t))
    else phase_entries b (attrs t)).
  { intros b. destruct (ext_async e); apply addExtension_entries. }
  set (t' := if ext_async e then _ else _) in *.
  pose proof (named_extension_entry m ps ov (ext_fn e ps)) as Hnamed.
  destruct (String.eqb m n) eqn:Hmn.
  - apply String.eqb_eq in Hmn. subst m.
    unfold tracked in *. rewrite latest_params_snoc. simpl. rewrite String.eqb_refl.
    exists e. split; [exact Hm|].
    rewrite !Hentries. rewrite Bool.eqb_reflx.
    replace (Bool.eqb (negb (ext_async e)) (ext_async e)) with false
      by (destruct (ext_async e); reflexivity).
    rewrite registered_upsert_same, find_upsert_same by exact Hnamed.
    destruct (latest_params n steps) as [ps0|].
    + destruct Ht as (e0 & He0 & H1 & H0 & _).
      assert (e0 = e) by congruence. subst e0.
      rewrite H1, H0. simpl. auto.
    + destruct Ht as [Hv Ha].
      assert (forall b, registered n (phase_entries b (attrs t)) = 0%nat) as Hz
        by (intros []; assumption).
      rewrite !Hz. simpl. auto.
  - apply String.eqb_neq in Hmn.
    assert (n <> m) as Hnm by congruence.
    apply (tracked_same_lists x steps _ t _ n); try assumption.
    + rewrite latest_params_snoc. simpl.
      destruct (String.eqb m n) eqn:E; [apply String.eqb_eq in E; contradiction|reflexivity].
    + change (validators (attrs t')) with (phase_entries false (attrs t')).
      rewrite Hentries. destruct (Bool.eqb false (ext_async e)); [|reflexivity].
      apply registered_upsert_other; assumption.
    + change (asyncValidators (attrs t')) with (phase_entries true (attrs t')).
      rewrite Hentries. destruct (Bool.eqb true (ext_async e)); [|reflexivity].
      apply registered_upsert_other; assumption.
    + change (validators (attrs t')) with (phase_entries false (attrs t')).
      rewrite Hentries. destruct (Bool.eqb false (ext_async e)); [|reflexivity].
      apply find_upsert_other; assumption.
    + change (asyncValidators (attrs t')) with (phase_entries true (attrs t')).
      rewrite Hentries. destruct (Bool.eqb true (ext_async e)); [|reflexivity].
      apply find_upsert_other; assumption.
Qed.

Lemma tracked_chain x base steps t n :
  validators (attrs base) = [] -> asyncValidators (attrs base) = [] ->
  chain x base steps = Some t -> tracked x steps t n.
Proof.
  intros Hv Ha. revert t.
  induction steps as [|s steps IH] using rev_ind; intros t Hc.
  - injection Hc as <-. unfold tracked. simpl. rewrite Hv, Ha. auto.
  - rewrite chain_snoc in Hc.
    destruct (chain x base steps) as [t0|] eqn:E; [|discriminate].
    simpl in Hc. eapply tracked_call; eauto.
Qed.

(** C9.  In a chain of builder calls on a freshly built node,
    [getExtensionParams] returns the argument list of the latest application
    of the named extension, or nothing if it was never applied; one entry is
    registered under the name once it was applied, none before; and applying
    it again overwrites that entry at its index, leaving the rest of both
    validator lists as they were. *)
Theorem extension_reapplication x base steps t n :
  validators (attrs base) = [] -> asyncValidators (attrs base) = [] ->
  chain x base steps = Some t ->
  getExtensionParams n t = latest_params n steps /\
  (registered n (validators (attrs t)) + registered n (asyncValidators (attrs t)) =
     match latest_params n steps with Some _ => 1 | None => 0 end)%nat /\
  (forall e ps ov,
     assoc n x = Some e -> is_Some (latest_params n steps) ->
     let t' := extension_method n e ps ov t in
     let entry := extension_entry n ps ov (ext_fn e ps) in
     exists i old,
       phase_entries (ext_async e) (attrs t) !! i = Some old /\
       name old = Some n /\
       phase_entries (ext_async e) (attrs t') =
         <[i := entry]> (phase_entries (ext_async e) (attrs t)) /\
       phase_entries (negb (ext_async e)) (attrs t') =
         phase_entries (negb (ext_async e)) (attrs t) /\
       getExtensionParams n t' = Some ps).
Proof.
  intros Hv Ha Hc.
  pose proof (tracked_chain x base steps t n Hv Ha Hc) as Ht.
  split; [|split].
  - unfold getExtensionParams, tracked in *.
    destruct (latest_params n steps) as [ps|].
    + destruct Ht as (e & He & H1 & H0 & Hf).
      destruct (ext_async e); simpl in *.
      * rewrite (find_registered_zero _ _ H0). simpl. exact Hf.
      * rewrite Hf. reflexivity.
    + destruct Ht as [H1 H2].
      rewrite (find_registered_zero _ _ H1), (find_registered_zero _ _ H2). reflexivity.
  - unfold tracked in Ht. destruct (latest_params n steps) as [ps|].
    + destruct Ht as (e & He & H1 & H0 & Hf).
      destruct (ext_async e); simpl in *; lia.
    + destruct Ht as [-> ->]. reflexivity.
  - intros e ps ov He [ps0 Hps0] t' entry.
    pose proof (tracked_chain x base (steps ++ [CallExtension n ps ov]) t' n Hv Ha) as Ht'.
    unfold tracked in Ht. rewrite Hps0 in Ht.
    destruct Ht as (e0 & He0 & H1 & H0 & Hf).
    assert (e0 = e) by congruence. subst e0.
    destruct (findIndex_registered n (phase_entries (ext_async e) (attrs t)))
      as (i & old & Hi & Hold & Hn); [lia|].
    exists i, old.
    assert (Hentries : forall b, phase_entries b (attrs t') =
      if Bool.eqb b (ext_async e)
      then upsert n entry (phase_entries b (attrs t)) else phase_entries b (attrs t)).
    { intros b. unfold t', extension_method, extend, extendAsync.
      destruct (ext_async e); apply addExtension_entries. }
    split; [exact Hold|]. split; [apply named_name, Hn|].
    split; [|split].
    + rewrite Hentries, Bool.eqb_reflx. unfold upsert, list_assign. rewrite Hi. simpl.
      apply lookup_lt_Some in Hold. case_decide; [reflexivity|lia].
    + rewrite Hentries. destruct (ext_async e); reflexivity.
    + unfold getExtensionParams.
      change (validators (attrs t')) with (phase_entries false (attrs t')).
      change (asyncValidators (attrs t')) with (phase_entries true (attrs t')).
      rewrite !Hentries.
      destruct (ext_async e) eqn:Ea; simpl in *.
      * rewrite (find_registered_zero _ _ H0). simpl.
        rewrite find_upsert_same by apply named_extension_entry. reflexivity.
      * rewrite find_upsert_same by apply named_extension_entry. reflexivity.
Qed.

(** * Union resolution *)

Lemma on_clone_ctx {A} (m : M A) st : ctx (snd (on_clone m st)) = ctx st.
Proof.
  unfold on_clone. destruct (m _) as [[a|e] st']; reflexivity.
Qed.

Lemma try_types_ctx l input st : ctx (snd (try_types l input st)) = ctx st.
Proof.
  revert st. induction l as [|m rest IH]; intros st; simpl; [reflexivity|].
  unfold bind, gets. simpl.
  pose proof (on_clone_ctx (m_parse m input) st) as Hc.
  destruct (on_clone (m_parse m input) st) as [[r|e] st'] eqn:E; simpl in *; [|exact Hc].
  destruct (Nat.eqb _ _); simpl; [exact Hc|].
  rewrite IH. exact Hc.
Qed.

Lemma getDiscriminatedMatch_state d input st :
  snd (getDiscriminatedMatch d input st) = st.
Proof.
  unfold getDiscriminatedMatch, bind, lift, gets, ret.
  destruct (isObject input) as [[|]|e]; reflexivity.
Qed.

Lemma getShadowedType_ctx types input st :
  ctx (snd (getShadowedType types input st)) = ctx st.
Proof.
  unfold getShadowedType. unfold bind at 1.
  pose proof (getDiscriminatedMatch_state
    (List.filter (fun m => negb (Nat.eqb (List.length (getLiteralKeys (m_type m))) 0)) types)
    input st) as Hs.
  destruct (getDiscriminatedMatch _ input st) as [[match_|e] st0]; simpl in Hs; subst st0;
    [|reflexivity].
  set (found_or_first := fun (typesToCheck : list Member) =>
    found <- try_types typesToCheck input ;;
    match found, typesToCheck with
    | Some type, _ => ret type
    | None, t0 :: _ => ret t0
    | None, [] => throw (TypeError "Cannot read properties of undefined (reading 'check')")
    end).
  assert (Hk : forall l st, ctx (snd (found_or_first l st)) = ctx st).
  { intros l st1. unfold found_or_first, bind.
    pose proof (try_types_ctx l input st1) as Hc.
    destruct (try_types l input st1) as [[[m|]|e] st2]; simpl in *; try exact Hc.
    destruct l; exact Hc. }
  fold found_or_first.
  destruct match_ as [m|].
  - unfold bind at 1, ret at 1. apply Hk.
  - destruct (Nat.eqb _ _).
    + destruct types as [|t0 rest].
      * reflexivity.
      * unfold bind at 1, ret at 1. apply Hk.
    + unfold bind at 1, ret at 1. apply Hk.
Qed.

Lemma find_none {A} (f : A -> bool) l :
  Forall (fun x => f x = false) l -> List.find f l = None.
Proof. induction 1 as [|x l Hx _ IH]; simpl; [reflexivity|]. rewrite Hx. exact IH. Qed.

Lemma filter_all {A} (f : A -> bool) l :
  Forall (fun x => f x = true) l -> List.filter f l = l.
Proof. induction 1 as [|x l Hx _ IH]; simpl; [reflexivity|]. rewrite Hx, IH. reflexivity. Qed.

Lemma getDiscriminatedMatch_none js_Number l obj st :
  Forall (fun t => discriminants_match (heap st) (VObj obj) t = false) l ->
  getDiscriminatedMatch (List.map (as_member js_Number) l) (VObj obj) st = (Ok None, st).
Proof.
  intros Hnone.
  unfold getDiscriminatedMatch, bind, lift, gets, ret. cbn [isObject negb].
  rewrite find_none; [reflexivity|].
  apply Forall_map. eapply Forall_impl; [exact Hnone|]. intros t Ht.
  cbn [m_type as_member]. unfold discriminants_match in Ht. rewrite Ht. apply andb_false_r.
Qed.

(** C8.  For a union whose members all have literal discriminant keys and an
    object input that matches no member's discriminants, [parseInput] tries
    the first declared member on a clone of the context and then parses the
    input as that member.  For any members and any input, resolving the union
    leaves the real context (issue set, input map, current path) as it
    was. *)
Theorem union_resolution js_Number a t0 rest (obj : addr) st :
  let types := t0 :: rest in
  let input := VObj obj in
  Forall (fun t => getLiteralKeys t <> []) types ->
  Forall (fun t => discriminants_match (heap st) input t = false) types ->
  (* the union parses as its first member, after one trial on a clone *)
  parseInput js_Number (UnionType a types) input st =
    (on_clone (parseInput js_Number t0 input) ;;;
     parseBody js_Number a t0 (childParsers js_Number t0) input) st /\
  (* whatever the members and the input, resolution leaves the context alone *)
  forall types' input',
    ctx (snd (getShadowedType (List.map (as_member js_Number) types') input' st)) = ctx st.
Proof.
  intros types input Hkeys Hnone. split; [|intros; apply getShadowedType_ctx].
  change (parseInput js_Number (UnionType a types) input)
    with (parseUnion js_Number a (List.map (as_member js_Number) types) input).
  unfold parseUnion, getShadowedType.
  set (members := List.map (as_member js_Number) types).
  assert (Hfilter :
    List.filter (fun m => negb (Nat.eqb (List.length (getLiteralKeys (m_type m))) 0)) members
    = members).
  { apply filter_all. unfold members. apply Forall_map.
    eapply Forall_impl; [exact Hkeys|]. intros t Ht. simpl.
    destruct (getLiteralKeys t) eqn:E; [congruence|reflexivity]. }
  rewrite Hfilter.
  unfold bind at 1. unfold bind at 1.
  unfold members at 1, input at 1.
  rewrite (getDiscriminatedMatch_none js_Number types obj st Hnone). rewrite Nat.eqb_refl.
  unfold members, types. cbn [List.map].
  unfold bind, ret, gets. cbn [try_types]. unfold bind, gets.
  cbn [m_parse as_member].
  destruct (on_clone (parseInput js_Number t0 input) st) as [[[v c]|e] st1]; [|reflexivity].
  cbn [snd]. destruct (Nat.eqb _ _); reflexivity.
Qed.

(** * The refinement phases *)



Lemma omap_map_pair {X Y} (g : X -> Y) (x : X) (l : list (nat * option Value)) :
  omap (fun ix => match snd ix with
                  | Some _ => Some (KNum (Z.of_nat (fst ix)), g x)
                  | None => None
                  end) l =
  List.map (fun kt => (fst kt, g (snd kt)))
    (omap (fun ix => match snd ix with
                     | Some _ => Some (KNum (Z.of_nat (fst ix)), x)
                     | None => None
                     end) l).
Proof.
  induction l as [|[i [v|]] rest IH]; [reflexivity| |exact IH].
  cbn. f_equal. exact IH.
Qed.

(** The children [validatePhase] descends into are [this.getChildKeys(value)]. *)
Lemma validatePhase_unfold async t value st :
  validatePhase async t value st =
  validateNode (phase_entries async (attrs t))
    (fun h v => List.map (fun kt => (fst kt, validatePhase async (snd kt)))
                         (getChildKeys t h v)) value st.
Proof.
  destruct t; try reflexivity; simpl; unfold validateNode, bind, gets;
    destruct (ParseContext.pathHasErrors (ctx st)); try reflexivity.
  - unfold recordChildKeys. rewrite List.map_map. reflexivity.
  - unfold objectChildKeys. rewrite !List.map_map. reflexivity.
  - unfold arrayChildKeys. destruct value; try reflexivity.
    destruct (heap st !! a0) as [[|items]|]; try reflexivity.
    rewrite omap_map_pair. reflexivity.
Qed.



(** * Exceptions thrown by refinements *)

Lemma issue_of_run t st :
  ParseContext.issue_of t st =
    let i := mkIssue (next_issue st) (_path (ctx st)) (t_code t) (t_message t) in
    (Ok i, add_issue i st).
Proof. reflexivity. Qed.

Lemma setPath_run p st : ParseContext.setPath p st = (Ok tt, at_path p st).
Proof. reflexivity. Qed.

Lemma run_refinement_thrown value p0 path_ entry st e st1 :
  refinement_body value path_ entry (at_path p0 st) = (Thrown e, st1) ->
  run_refinement value (ParseContext.setPath p0) path_ entry st =
    if is_key_error e then (Thrown e, st1)
    else (Ok tt, add_issue (exception_issue e st1) st1).
Proof.
  intros H. unfold run_refinement, bind, try_catch. rewrite setPath_run, H.
  destruct e; reflexivity.
Qed.






(** * Message overrides *)

Lemma has_set_delete l j i :
  ParseContext.has (ParseContext.set_delete l j) i = true ->
  ParseContext.has l i = true /\ same_issue j i = false.
Proof.
  unfold ParseContext.has, ParseContext.set_delete.
  rewrite !existsb_exists. intros (x & Hin & Hx).
  apply List.filter_In in Hin as [Hin Hj]. split; [eauto|].
  unfold same_issue in *. apply Nat.eqb_eq in Hx.
  apply negb_true_iff in Hj. rewrite <- Hx in Hj. exact Hj.
Qed.

Lemma has_fold_delete raised l i :
  ParseContext.has (fold_left ParseContext.set_delete raised l) i = true ->
  ParseContext.has l i = true /\ forall j, In j raised -> same_issue j i = false.
Proof.
  revert l. induction raised as [|j rest IH]; intros l; simpl.
  - intros H. split; [exact H|]. intros ? [].
  - intros H. apply IH in H as [H Hrest]. apply has_set_delete in H as [H Hj].
    split; [exact H|]. intros k [<-|Hk]; auto.
Qed.

Lemma removed_issues_gone raised st i :
  In i raised -> ParseContext.has (issues (ctx (without_issues raised st))) i = false.
Proof.
  intros Hin. unfold without_issues. simpl.
  destruct (ParseContext.has _ i) eqn:E; [|reflexivity].
  apply has_fold_delete in E as [_ E]. specialize (E i Hin).
  unfold same_issue in E. rewrite Nat.eqb_refl in E. discriminate.
Qed.

Lemma set_add_snoc l i : ParseContext.set_add (l ++ [i]) i = l ++ [i].
Proof.
  unfold ParseContext.set_add, ParseContext.has. rewrite existsb_app. simpl.
  unfold same_issue. rewrite Nat.eqb_refl, orb_true_r. reflexivity.
Qed.

Lemma addIssues_present i st :
  ParseContext.addIssues [i] (add_issue i st) = (Ok tt, add_issue i st).
Proof.
  unfold ParseContext.addIssues, modify. simpl. rewrite set_add_snoc. reflexivity.
Qed.

Lemma issue_literal_run c m p st :
  ParseContext.issue {| conds := []; first := FObj c (MStr m) (Some p);
                        second := SNone; third := None |} st =
    (Ok (Some (mkIssue (next_issue st) p c m)), add_issue (mkIssue (next_issue st) p c m) st).
Proof. reflexivity. Qed.

Lemma has_snoc l o i :
  ParseContext.has (l ++ [o]) i = ParseContext.has l i || same_issue i o.
Proof.
  unfold ParseContext.has. rewrite existsb_app. cbn [existsb].
  rewrite orb_false_r. reflexivity.
Qed.

(** C7 (amended).  For a refinement entry with an override, once the
    refinement callback has returned: every issue it returned, or raised
    through the context, is taken out of the issue set, and then the
    override is applied.  A string override adds one new [custom] issue with
    that message at the node's own path, and nothing of what the refinement
    raised is left.  A callback override runs on the issue set without the
    raised issues: when it returns a string, a new [custom] issue with it
    is added at the node's own path; when it returns an issue, that issue
    is added as it is, with the code and the path it was created with;
    issues the callback itself raised stay; when it throws, the exception
    is treated like one of the refinement. *)
Theorem refinement_override value p0 entry ov st result st1 :
  override entry = Some ov ->
  run true (validator entry value) (set_newIssues [] (at_path p0 st)) = (Ok result, st1) ->
  let raised := getIssues result ++ omap id (newIssues st1) in
  let cleared := without_issues raised st1 in
  (* what the refinement returned or raised is taken out before the override
     is applied *)
  (forall i, In i raised -> ParseContext.has (issues (ctx cleared)) i = false) /\
  (* the override returns: its result goes in *)
  (forall r st2,
     run false (ov value) cleared = (Ok r, st2) ->
     run_refinement value (ParseContext.setPath p0) p0 entry st =
       match r with
       | OvString s => (Ok tt, add_issue (mkIssue (next_issue st2) p0 "custom" s) st2)
       | OvIssue i => (Ok tt, with_issue i st2)
       end) /\
  (* the override throws: as when the refinement throws *)
  (forall e st2,
     run false (ov value) cleared = (Thrown e, st2) ->
     run_refinement value (ParseContext.setPath p0) p0 entry st =
       if is_key_error e then (Thrown e, st2)
       else (Ok tt, add_issue (exception_issue e st2) st2)) /\
  (* a string override, as [addExtension] stores it: one new issue, and
     nothing of what was raised *)
  (forall s, ov = (fun _ => Return (OvString s)) ->
     let o := mkIssue (next_issue st1) p0 "custom" s in
     run_refinement value (ParseContext.setPath p0) p0 entry st =
       (Ok tt, add_issue o cleared) /\
     issues (ctx (add_issue o cleared)) =
       fold_left ParseContext.set_delete raised (issues (ctx st1)) ++ [o] /\
     (forall i, In i raised -> issue_id i <> next_issue st1 ->
        ParseContext.has (issues (ctx (add_issue o cleared))) i = false)).
Proof.
  intros Hov Hrun raised cleared.
  assert (Hbody : refinement_body value p0 entry (at_path p0 st) =
                  (r <- run false (ov value) ;;
                   issue <- match r with
                            | OvString s =>
                                i <- ParseContext.issue
                                       {| conds := [];
                                          first := FObj "custom" (MStr s) (Some p0);
                                          second := SNone; third := None |} ;;
                                match i with
                                | Some i => ret i
                                | None => throw (TypeError "unreachable")
                                end
                            | OvIssue i => ret i
                            end ;;
                   ParseContext.addIssues [issue]) cleared).
  { unfold refinement_body. unfold bind at 1, modify at 1. unfold bind at 1.
    rewrite Hrun. rewrite Hov. unfold bind at 1, gets at 1.
    unfold overrideIssues. unfold bind at 1. reflexivity. }
  assert (Hreturns : forall r st2,
     run false (ov value) cleared = (Ok r, st2) ->
     run_refinement value (ParseContext.setPath p0) p0 entry st =
       match r with
       | OvString s => (Ok tt, add_issue (mkIssue (next_issue st2) p0 "custom" s) st2)
       | OvIssue i => (Ok tt, with_issue i st2)
       end).
  { intros r st2 Hovrun.
    unfold run_refinement, bind at 1, try_catch. rewrite setPath_run, Hbody.
    unfold bind at 1. rewrite Hovrun.
    destruct r as [s|i]; [|reflexivity].
    unfold bind at 1. unfold bind at 1. rewrite issue_literal_run.
    unfold ret at 1. rewrite addIssues_present. reflexivity. }
  split; [|split; [|split]].
  - intros i Hi. apply removed_issues_gone, Hi.
  - exact Hreturns.
  - intros e st2 Hovrun.
    apply run_refinement_thrown. rewrite Hbody. unfold bind at 1. rewrite Hovrun.
    reflexivity.
  - intros s -> o.
    assert (Hs : run false (Return (OvString s)) cleared = (Ok (OvString s), cleared))
      by reflexivity.
    split; [exact (Hreturns _ _ Hs)|]. split; [reflexivity|].
    intros i Hi Hid.
    change (issues (ctx (add_issue o cleared))) with (issues (ctx cleared) ++ [o]).
    rewrite has_snoc. fold cleared.
    pose proof (removed_issues_gone raised st1 i Hi) as Hgone. fold cleared in Hgone.
    rewrite Hgone. unfold same_issue. cbn [issue_id o orb]. apply Nat.eqb_neq. exact Hid.
Qed.

(** * The path-tracking view *)


Lemma string_app_assoc s1 s2 s3 : (s1 +:+ s2) +:+ s3 = s1 +:+ (s2 +:+ s3).
Proof.
  induction s1 as [|c s1 IH]; [reflexivity|].
  change (String c ((s1 +:+ s2) +:+ s3) = String c (s1 +:+ (s2 +:+ s3))).
  rewrite IH. reflexivity.
Qed.





(** Wrapping or returning a value only touches the wrapper cache. *)
Lemma tryGetProxy_frame v p st :
  v <> VNull ->
  exists pv cache,
    Proxy.tryGetProxy v p st = (Ok pv, set_proxies cache st).
Proof.
  intros Hv. unfold Proxy.tryGetProxy, bind, lift, gets, modify, ret.
  assert (Hst : set_proxies (proxies st) st = st) by (destruct st; reflexivity).
  destruct v; try contradiction; simpl;
    try (eexists _, (proxies st); rewrite Hst; reflexivity);
    (destruct (assoc (join p) (proxies st));
     [eexists _, (proxies st); rewrite Hst; reflexivity | eexists _, _; reflexivity]).
Qed.

Lemma proxy_get_child pr prop v st :
  get_prop (heap st) (target pr) prop = Ok v ->
  String.eqb prop "values" = false ->
  String.eqb prop "length" = false ->
  Proxy.get pr prop st =
    Proxy.tryGetProxy v (proxy_path pr ++ [Proxy.keyOrIndex prop])
      (at_path (proxy_path pr ++ [Proxy.keyOrIndex prop]) st).
Proof.
  intros Hget Hv Hl. unfold Proxy.get, bind, gets, lift. rewrite Hget, Hv, Hl.
  rewrite !andb_false_r. reflexivity.
Qed.


(** * Structural parse of scalar nodes *)

Lemma parseInput_leaf js_Number t :
  is_leaf t = true ->
  parseInput js_Number t = parseBody js_Number (attrs t) t (fun _ _ => []).
Proof. destruct t; try discriminate; reflexivity. Qed.

Lemma invalid_run expected input st :
  invalid expected input st =
    let r := mkIssue (next_issue st) (_path (ctx st)) "invalid_type"
               (t_message (CORE_ISSUES.invalid_type expected input (_path (ctx st)))) in
    (Ok (Some r), add_issue r st).
Proof. reflexivity. Qed.

(** A scalar check either passes without touching the state or records one
    core issue at the current path. *)
Lemma check_leaf t input st :
  is_leaf t = true -> isNullish input = false ->
  check t input st = (Ok None, st) \/
  exists c m,
    (c = "invalid_type" \/ c = "required") /\
    let r := mkIssue (next_issue st) (_path (ctx st)) c m in
    check t input st = (Ok (Some r), add_issue r st).
Proof.
  intros Hleaf Hnull.
  destruct t; try discriminate; simpl.
  - destruct input; try (right; eexists _, _; split; [left; reflexivity|]; reflexivity).
    unfold bind, gets. simpl.
    destruct (negb _ && _).
    + right. eexists _, _. split; [right; reflexivity|]. reflexivity.
    + left. reflexivity.
  - destruct input; try (right; eexists _, _; split; [left; reflexivity|]; reflexivity).
    left. reflexivity.
  - destruct input; try (right; eexists _, _; split; [left; reflexivity|]; reflexivity).
    left. reflexivity.
  - destruct (existsb _ _); [left; reflexivity|].
    right. eexists _, _. split; [left; reflexivity|]. reflexivity.
  - destruct (strictEq _ _); [left; reflexivity|].
    right. eexists _, _. split; [left; reflexivity|]. reflexivity.
  - destruct input; try (right; eexists _, _; split; [left; reflexivity|]; reflexivity).
    left. reflexivity.
Qed.

Lemma check_pass_primitive t input st st' :
  is_leaf t = true -> isNullish input = false ->
  check t input st = (Ok None, st') -> is_primitive input = true.
Proof.
  intros Hleaf Hnull.
  destruct t; try discriminate; simpl;
    destruct input; try discriminate; try reflexivity; simpl.
  all: try (destruct (existsb _ _) eqn:E; [|discriminate];
            apply existsb_exists in E as (x & _ & Hx);
            unfold strictEq in Hx; apply bool_decide_eq_true in Hx; discriminate).
  all: try (unfold strictEq; case_bool_decide as E; [|discriminate];
            destruct value; discriminate).
Qed.

Lemma clean_leaf t input st :
  is_leaf t = true ->
  clean t input st = (Ok (cleaned t (options (ctx st)) input), st).
Proof.
  intros Hleaf. destruct t; try discriminate; try reflexivity.
  destruct input; reflexivity.
Qed.

Lemma cleaned_primitive t o input :
  is_primitive input = true -> is_primitive (cleaned t o input) = true.
Proof. destruct t, input; try discriminate; reflexivity. Qed.

Lemma default_leaf t :
  is_leaf t = true ->
  exists d, defaultValue t = Ok d /\
    forall h, exists dv, alloc d h = (dv, h) /\ is_primitive dv = true.
Proof.
  destruct t; try discriminate; intros _; simpl.
  1-4, 6: eexists; split; [reflexivity|]; intros h; eexists; split; reflexivity.
  destruct value; eexists; (split; [reflexivity|]); intros h; eexists; split; reflexivity.
Qed.

Lemma coerce_leaf js_Number t input st :
  is_leaf t = true ->
  exists v, coerce js_Number t input st = (Ok v, st).
Proof.
  destruct t; try discriminate; intros _; unfold coerce, bind, gets, ret; simpl; eauto.
  - destruct (_ && _); eauto.
  - destruct (default false _); eauto. destruct (js_Number _ _); eauto.
  - destruct (_ && _); eauto.
Qed.

Lemma primitive_not_nullish v : is_primitive v = true -> isNullish v = false.
Proof. destruct v; try discriminate; reflexivity. Qed.

Lemma primitive_isObject v : is_primitive v = true -> isObject v = Ok false.
Proof. destruct v; try discriminate; reflexivity. Qed.

Lemma primitive_spread h v : is_primitive v = true -> spread h v = (v, h).
Proof. destruct v; try discriminate; reflexivity. Qed.

Lemma set_heap_same st : set_heap (heap st) st = st.
Proof. destruct st; reflexivity. Qed.

Lemma tryGetCoreIssueOverride_spec input c ovs st :
  tryGetCoreIssueOverride input c ovs st =
  match core_override c ovs with
  | Some ov =>
      (res <- override_outcome ov input ;;
       fun st => let '(i, st') := replacement c res st in (Ok (Some i), st')) st
  | None => (Ok None, st)
  end.
Proof.
  unfold tryGetCoreIssueOverride, core_override.
  destruct (String.eqb c invalid_type_CODE) eqn:E1.
  - apply String.eqb_eq in E1. subst c.
    destruct (invalid_type_error ovs) as [[s|f]|]; simpl.
    + reflexivity.
    + unfold bind. destruct (run false (f input) st) as [[[s|i]|e] st']; reflexivity.
    + destruct (required_error ovs); reflexivity.
  - destruct (String.eqb c required_CODE) eqn:E2; [|reflexivity].
    apply String.eqb_eq in E2. subst c.
    destruct (required_error ovs) as [[s|f]|]; simpl.
    + reflexivity.
    + unfold bind. destruct (run false (f input) st) as [[[s|i]|e] st']; reflexivity.
    + reflexivity.
Qed.

(** * The synchronous entry point and asynchronous refinements *)

Lemma quiet_ret {A} (a : A) : quiet (ret a).
Proof. intros st e st' H. discriminate. Qed.

Lemma quiet_gets {A} (f : State -> A) : quiet (gets f).
Proof. intros st e st' H. discriminate. Qed.

Lemma quiet_modify f : quiet (modify f).
Proof. intros st e st' H. discriminate. Qed.

Lemma quiet_throw {A} e : e <> async_validators_present -> quiet (@throw A e).
Proof. intros He st e' st' [= <- _]. exact He. Qed.

Lemma quiet_lift {A} (o : Outcome A) :
  (forall e, o = Thrown e -> e <> async_validators_present) -> quiet (lift o).
Proof. intros Ho st e st' [= -> _]. apply Ho. reflexivity. Qed.

Lemma quiet_bind_post {A B} (P : A -> Prop) (m : M A) (f : A -> M B) :
  quiet m -> returns P m -> (forall a, P a -> quiet (f a)) -> quiet (bind m f).
Proof.
  intros Hm Hp Hf st e st'. unfold bind.
  destruct (m st) as [[a|e0] st0] eqn:E.
  - intros H. eapply Hf; [eapply Hp; exact E|exact H].
  - intros [= <- _]. eapply Hm. exact E.
Qed.

Lemma quiet_bind {A B} (m : M A) (f : A -> M B) :
  quiet m -> (forall a, quiet (f a)) -> quiet (bind m f).
Proof.
  intros Hm Hf. apply (quiet_bind_post (fun _ => True)); auto. intros ? ? ? _. exact I.
Qed.

Lemma quiet_total {A} (f : State -> A * State) :
  quiet (fun st => let '(a, st') := f st in (Ok a, st')).
Proof. intros st e st'. destruct (f st). discriminate. Qed.

Lemma quiet_try_finally {A} (m : M A) cleanup : quiet m -> quiet (try_finally m cleanup).
Proof.
  intros Hm st e st'. unfold try_finally. destruct (m st) as [r st0] eqn:E.
  intros [= -> _]. eapply Hm. exact E.
Qed.

Lemma quiet_try_catch {A} (m : M A) handler :
  (forall e, quiet (handler e)) -> quiet (try_catch m handler).
Proof.
  intros Hh st e st'. unfold try_catch. destruct (m st) as [[a|e0] st0]; [discriminate|].
  apply Hh.
Qed.

Lemma quiet_for_each {X} (l : list X) (f : X -> M unit) :
  Forall (fun x => quiet (f x)) l -> quiet (for_each l f).
Proof.
  induction 1 as [|x rest Hx _ IH]; simpl; [apply quiet_ret|].
  apply quiet_bind; [exact Hx|]. intros _. exact IH.
Qed.

Lemma quiet_on_clone {A} (m : M A) : quiet m -> quiet (on_clone m).
Proof.
  intros Hm st e st'. unfold on_clone.
  destruct (m _) as [[a|e0] st0] eqn:E; [discriminate|].
  intros [= <- _]. eapply Hm. exact E.
Qed.

Lemma isObject_thrown v e : isObject v = Thrown e -> e <> async_validators_present.
Proof. destruct v; try discriminate. intros [= <-]. discriminate. Qed.

Lemma get_prop_thrown h v prop e :
  get_prop h v prop = Thrown e -> e <> async_validators_present.
Proof.
  destruct v as [| | | | | |a|a]; simpl; try discriminate;
    try (intros [= <-]; discriminate).
  - destruct (String.eqb prop "length"); [discriminate|].
    destruct (as_index prop); discriminate.
  - destruct (h !! a) as [[]|]; discriminate.
  - destruct (h !! a) as [[|items]|]; try discriminate.
    destruct (String.eqb prop "length"); [discriminate|].
    destruct (as_index prop); discriminate.
Qed.

Lemma defaultValue_thrown t e :
  defaultValue t = Thrown e -> e <> async_validators_present.
Proof.
  revert e.
  induction t as [| | | | | |a vt IH|a props IH|a it co IH|a types IH] using BaseType_tree_ind;
    intros e; simpl; try discriminate.
  - assert (Hgo : forall e,
      (fix go (l : list (string * BaseType)) : Outcome (list (string * Data)) :=
           match l with
           | [] => Ok []
           | (k, ty) :: rest =>
               match defaultValue ty, go rest with
               | Ok d, Ok ds => Ok ((k, d) :: ds)
               | Thrown e, _ => Thrown e
               | _, Thrown e => Thrown e
               end
           end) props = Thrown e -> e <> async_validators_present).
    { clear e. induction props as [|[k ty] rest IHrest]; intros e; [discriminate|].
      inversion IH as [|? ? Hty Hrest]; subst. simpl in Hty.
      destruct (defaultValue ty) as [d|e1] eqn:Ed.
      - match goal with |- match ?g with _ => _ end = _ -> _ =>
          destruct g as [ds|e2] eqn:Er end; [discriminate|].
        intros [= <-]. apply (IHrest Hrest). reflexivity.
      - intros [= <-]. apply Hty. reflexivity. }
    match goal with |- match ?g with _ => _ end = _ -> _ =>
      destruct g as [fs|e1] eqn:E end; [discriminate|].
    intros [= <-]. apply Hgo. reflexivity.
  - destruct types as [|t0 rest]; [intros [= <-]; discriminate|].
    inversion IH; subst. auto.
Qed.

Ltac quiet_step :=
  lazymatch goal with
  | |- quiet (ret _) => apply quiet_ret
  | |- quiet (gets _) => apply quiet_gets
  | |- quiet (modify _) => apply quiet_modify
  | |- quiet (throw _) => apply quiet_throw; discriminate
  | |- quiet (lift _) =>
      apply quiet_lift;
      first [apply isObject_thrown | apply get_prop_thrown
            | apply defaultValue_thrown | discriminate]
  | |- quiet (try_finally _ _) => apply quiet_try_finally
  | |- quiet (bind _ _) => apply quiet_bind; [|intros ?]
  | |- quiet (if ?b then _ else _) => destruct b
  | |- quiet (match ?x with _ => _ end) => destruct x
  end.

Ltac quiet_auto := repeat quiet_step.

Lemma quiet_setPath p : quiet (ParseContext.setPath p).
Proof. apply quiet_modify. Qed.

Lemma quiet_addIssues l : quiet (ParseContext.addIssues l).
Proof. apply quiet_modify. Qed.

Lemma quiet_removeIssues l : quiet (ParseContext.removeIssues l).
Proof. apply quiet_modify. Qed.

Lemma quiet_setInput v b t : quiet (ParseContext.setInput v b t).
Proof. apply quiet_modify. Qed.

Lemma quiet_fresh_issue p c m : quiet (ParseContext.fresh_issue p c m).
Proof. intros st e st' H. discriminate. Qed.

Lemma quiet_issue args : quiet (ParseContext.issue args).
Proof.
  unfold ParseContext.issue. induction (conds args) as [|[|] rest IH]; simpl.
  - unfold ParseContext.issue_core.
    apply quiet_bind; [apply quiet_gets|]. intros c.
    destruct (match first args with FIssue i => _ | _ => None end);
      [apply quiet_ret|].
    apply quiet_bind; [apply quiet_fresh_issue|]. intros i. quiet_auto.
  - exact IH.
  - apply quiet_ret.
Qed.

Lemma quiet_issue_of t : quiet (ParseContext.issue_of t).
Proof.
  unfold ParseContext.issue_of. apply quiet_bind; [apply quiet_issue|].
  intros [i|]; quiet_auto.
Qed.

Lemma quiet_get key : quiet (ParseContext.get key).
Proof. unfold ParseContext.get. quiet_auto. Qed.

Lemma quiet_withChildPath {A} key (m : M A) : quiet m -> quiet (ParseContext.withChildPath key m).
Proof.
  intros Hm. unfold ParseContext.withChildPath.
  apply quiet_bind; [apply quiet_gets|]. intros p.
  apply quiet_try_finally. apply quiet_bind; [apply quiet_setPath|]. intros _. exact Hm.
Qed.

Lemma quiet_tryGetProxy v p : quiet (Proxy.tryGetProxy v p).
Proof. unfold Proxy.tryGetProxy. quiet_auto. Qed.

Lemma quiet_proxy_get pr prop : quiet (Proxy.get pr prop).
Proof.
  unfold Proxy.get. quiet_auto; try apply quiet_tryGetProxy; apply quiet_setPath.
Qed.

Lemma quiet_iter_next v i : quiet (Proxy.iter_next v i).
Proof.
  unfold Proxy.iter_next. quiet_auto; try apply quiet_proxy_get.
Qed.

Lemma quiet_read v prop : quiet (Proxy.read v prop).
Proof. unfold Proxy.read. quiet_auto; apply quiet_proxy_get. Qed.

Lemma quiet_tracking_issue args : quiet (IssueTrackingContext.issue args).
Proof.
  unfold IssueTrackingContext.issue. apply quiet_bind; [apply quiet_issue|].
  intros i. quiet_auto.
Qed.

Lemma quiet_run {R} tracking (c : Cb R) : quiet (run tracking c).
Proof.
  induction c as [r|x|k IH|k IH|args k IH|v k IH|k IH|key k IH|v prop k IH|v i k IH|p c m k IH];
    simpl.
  - apply quiet_ret.
  - apply quiet_throw. destruct x; discriminate.
  - apply quiet_bind; [apply quiet_gets|]. intros; apply IH.
  - apply quiet_bind; [apply quiet_gets|]. intros; apply IH.
  - apply quiet_bind; [|intros; apply IH].
    destruct tracking; [apply quiet_tracking_issue|apply quiet_issue].
  - apply IH.
  - apply quiet_bind; [apply quiet_gets|]. intros; apply IH.
  - apply quiet_bind; [apply quiet_get|]. intros; apply IH.
  - apply quiet_bind; [apply quiet_read|]. intros; apply IH.
  - apply quiet_bind; [apply quiet_iter_next|]. intros; apply IH.
  - apply quiet_bind; [apply quiet_fresh_issue|]. intros; apply IH.
Qed.

Lemma quiet_invalid expected input : quiet (invalid expected input).
Proof.
  unfold invalid. apply quiet_bind; [apply quiet_gets|]. intros p.
  apply quiet_bind; [apply quiet_issue_of|]. intros; apply quiet_ret.
Qed.

Lemma quiet_check t input : quiet (check t input).
Proof.
  destruct t; simpl; quiet_auto; try apply quiet_invalid; try apply quiet_issue_of.
Qed.

Lemma quiet_clean t value : quiet (clean t value).
Proof. destruct t; simpl; quiet_auto. Qed.

Lemma quiet_coerce js_Number t input : quiet (coerce js_Number t input).
Proof.
  unfold coerce. apply quiet_bind; [apply quiet_gets|]. intros o.
  destruct t; quiet_auto.
  intros st e st'. destruct (heap_alloc _ _). discriminate.
Qed.

Lemma quiet_apply_core_override c input ov : quiet (apply_core_override c input ov).
Proof.
  unfold apply_core_override. destruct ov as [s|f].
  - apply quiet_bind; [apply quiet_issue|]. intros [i|]; quiet_auto.
  - apply quiet_bind; [apply quiet_run|]. intros [s|i]; [|apply quiet_ret].
    apply quiet_bind; [apply quiet_issue|]. intros [i|]; quiet_auto.
Qed.

Lemma quiet_tryGetCoreIssueOverride input c ovs : quiet (tryGetCoreIssueOverride input c ovs).
Proof.
  unfold tryGetCoreIssueOverride.
  destruct (if String.eqb c invalid_type_CODE then _ else _).
  - apply quiet_bind; [apply quiet_apply_core_override|]. intros; apply quiet_ret.
  - destruct (if String.eqb c required_CODE then _ else _).
    + apply quiet_bind; [apply quiet_apply_core_override|]. intros; apply quiet_ret.
    + apply quiet_ret.
Qed.

Lemma quiet_parseBody js_Number this_ actualType children input :
  quiet_children children ->
  quiet (parseBody js_Number this_ actualType children input).
Proof.
  intros Hchildren. unfold parseBody.
  apply quiet_bind.
  { destruct (isNullish input).
    - quiet_auto; apply quiet_issue_of.
    - apply quiet_bind; [apply quiet_check|]. intros [r|]; [|apply quiet_ret].
      apply quiet_bind; [apply quiet_coerce|]. intros v.
      destruct (isNullish v); quiet_auto. apply quiet_removeIssues. }
  intros vi. apply quiet_bind; [apply quiet_setInput|]. intros _.
  apply quiet_bind.
  { destruct (negb _).
    - apply quiet_bind; [apply quiet_clean|]. intros; apply quiet_ret.
    - quiet_auto. intros st e st'. destruct (alloc _ _). discriminate. }
  intros vd. apply quiet_bind; [quiet_auto|]. intros _.
  apply quiet_bind.
  { intros st e st'. destruct (spread _ _). discriminate. }
  intros value. apply quiet_bind; [apply quiet_tryGetCoreIssueOverride|].
  intros issueOverride. apply quiet_bind.
  { destruct issueOverride; [|apply quiet_ret].
    apply quiet_bind; [|intros; apply quiet_ret].
    destruct (snd vi); [apply quiet_removeIssues|apply quiet_ret]. }
  intros issue. apply quiet_bind.
  { destruct issue; [apply quiet_addIssues|apply quiet_ret]. }
  intros _. apply quiet_bind; [|intros; apply quiet_ret].
  destruct (negb _); [|apply quiet_ret].
  apply quiet_bind; [apply quiet_gets|]. intros h.
  apply quiet_for_each. eapply Forall_impl; [apply Hchildren|].
  intros kt Hkt. simpl in Hkt.
  apply quiet_bind; [|intros; apply quiet_modify].
  apply quiet_withChildPath.
  apply quiet_bind; [apply quiet_gets|]. intros h'.
  apply quiet_bind; [quiet_auto|]. intros x. apply Hkt.
Qed.

Lemma quiet_try_types l input :
  Forall quiet_member l -> quiet (try_types l input).
Proof.
  induction 1 as [|m rest [Hm _] _ IH]; simpl; [apply quiet_ret|].
  apply quiet_bind; [apply quiet_gets|]. intros c.
  apply quiet_bind; [apply quiet_on_clone, Hm|]. intros r.
  destruct (Nat.eqb _ _); [apply quiet_ret|exact IH].
Qed.

Lemma returns_ret {A} (P : A -> Prop) a : P a -> returns P (ret a).
Proof. intros H st a' st' [= <- _]. exact H. Qed.

Lemma returns_throw {A} (P : A -> Prop) e : returns P (throw e).
Proof. intros st a st' [=]. Qed.

Lemma returns_bind {A B} (Q : A -> Prop) (P : B -> Prop) (m : M A) (f : A -> M B) :
  returns Q m -> (forall a, Q a -> returns P (f a)) -> returns P (bind m f).
Proof.
  intros Hm Hf st b st'. unfold bind.
  destruct (m st) as [[a|e] st0] eqn:E; [|discriminate].
  apply Hf. eapply Hm. exact E.
Qed.

Lemma returns_try_types l input :
  returns (fun r => forall m, r = Some m -> In m l) (try_types l input).
Proof.
  induction l as [|m rest IH]; simpl.
  - apply returns_ret. intros ? [=].
  - apply (returns_bind (fun _ => True)); [intros ? ? ? _; exact I|]. intros c _.
    apply (returns_bind (fun _ => True)); [intros ? ? ? _; exact I|]. intros r _.
    destruct (Nat.eqb _ _).
    + apply returns_ret. intros ? [= <-]. left. reflexivity.
    + intros st a st' H m' Hm'. right. eapply IH; eauto.
Qed.

Lemma returns_getDiscriminatedMatch d input :
  returns (fun r => forall m, r = Some m -> In m d) (getDiscriminatedMatch d input).
Proof.
  unfold getDiscriminatedMatch.
  apply (returns_bind (fun _ => True)); [intros ? ? ? _; exact I|]. intros o _.
  destruct (negb o).
  - apply returns_ret. intros ? [=].
  - apply (returns_bind (fun _ => True)); [intros ? ? ? _; exact I|]. intros h _.
    apply returns_ret. intros m Hm. apply List.find_some in Hm as [Hm _]. exact Hm.
Qed.

Lemma returns_candidates types match_ :
  (forall m, match_ = Some m -> In m types) ->
  returns (fun l => forall m, In m l -> In m types) (candidates types match_).
Proof.
  intros Hmatch. unfold candidates. destruct match_ as [m|].
  - apply returns_ret. intros m' [<-|[]]. apply Hmatch. reflexivity.
  - destruct (Nat.eqb _ _).
    + destruct types as [|t0 rest]; [apply returns_throw|].
      apply returns_ret. intros m' [<-|[]]. left. reflexivity.
    + apply returns_ret. auto.
Qed.

Lemma quiet_candidates types match_ : quiet (candidates types match_).
Proof. unfold candidates. quiet_auto. Qed.

Lemma getShadowedType_unfold types input :
  getShadowedType types input =
  (match_ <- getDiscriminatedMatch
      (List.filter (fun m => negb (Nat.eqb (List.length (getLiteralKeys (m_type m))) 0)) types)
      input ;;
   typesToCheck <- candidates types match_ ;;
   found <- try_types typesToCheck input ;;
   match found, typesToCheck with
   | Some type, _ => ret type
   | None, t0 :: _ => ret t0
   | None, [] => throw (TypeError "Cannot read properties of undefined (reading 'check')")
   end).
Proof. reflexivity. Qed.

Lemma returns_getShadowedType types input :
  returns (fun m => In m types) (getShadowedType types input).
Proof.
  rewrite getShadowedType_unfold.
  eapply returns_bind; [apply returns_getDiscriminatedMatch|]. intros match_ Hmatch.
  eapply returns_bind.
  { apply returns_candidates. intros m Hm. apply Hmatch in Hm.
    apply List.filter_In in Hm as [Hm _]. exact Hm. }
  intros l Hl. simpl in Hl.
  eapply returns_bind; [apply returns_try_types|]. intros found Hfound. simpl in Hfound.
  destruct found as [m|].
  - apply returns_ret. apply Hl, Hfound. reflexivity.
  - destruct l as [|t0 rest]; [apply returns_throw|].
    apply returns_ret. apply Hl. left. reflexivity.
Qed.

Lemma quiet_getShadowedType types input :
  Forall quiet_member types -> quiet (getShadowedType types input).
Proof.
  intros Hmembers. rewrite getShadowedType_unfold.
  eapply quiet_bind_post;
    [unfold getDiscriminatedMatch; quiet_auto|apply returns_getDiscriminatedMatch|].
  intros match_ Hmatch. simpl in Hmatch.
  eapply quiet_bind_post; [apply quiet_candidates| |].
  { apply returns_candidates. intros m Hm. apply Hmatch in Hm.
    apply List.filter_In in Hm as [Hm _]. exact Hm. }
  intros l Hl. simpl in Hl. apply quiet_bind.
  - apply quiet_try_types. apply Forall_forall. intros x Hx.
    rewrite Forall_forall in Hmembers.
    apply Hmembers, list_elem_of_In, Hl, list_elem_of_In, Hx.
  - intros found. destruct found; [apply quiet_ret|]. destruct l; quiet_auto.
Qed.

Lemma quiet_parseUnion js_Number this_ members input :
  Forall quiet_member members ->
  quiet (parseUnion js_Number this_ members input).
Proof.
  intros Hmembers. unfold parseUnion.
  eapply quiet_bind_post;
    [apply quiet_getShadowedType, Hmembers|apply returns_getShadowedType|].
  intros m Hin. simpl in Hin. rewrite Forall_forall in Hmembers.
  destruct (Hmembers m (proj2 (list_elem_of_In _ _) Hin)) as [_ Hc].
  apply quiet_parseBody, Hc.
Qed.

Lemma quiet_children_nil : quiet_children (fun _ _ => []).
Proof. intros h v. constructor. Qed.

Lemma quiet_children_object (l : list (string * (Value -> M Value))) :
  Forall (fun kt => forall x, quiet (snd kt x)) l ->
  quiet_children (fun _ _ => objectChildKeys l).
Proof.
  intros Hl h v. unfold objectChildKeys. apply Forall_map.
  eapply Forall_impl; [exact Hl|]. auto.
Qed.

Lemma quiet_children_array (f : Value -> M Value) :
  (forall x, quiet (f x)) -> quiet_children (arrayChildKeys f).
Proof.
  intros Hf h v. unfold arrayChildKeys. destruct v; try constructor.
  destruct (h !! a) as [[|items]|]; try constructor.
  apply Forall_forall. intros kt Hin.
  apply list_elem_of_omap in Hin as ([i [x|]] & _ & Hx); [|discriminate].
  injection Hx as <-. intros y. apply Hf.
Qed.

Lemma quiet_children_record (f : Value -> M Value) :
  (forall x, quiet (f x)) -> quiet_children (recordChildKeys f).
Proof.
  intros Hf h v. unfold recordChildKeys. apply Forall_map.
  apply Forall_forall. intros k _ x. apply Hf.
Qed.

Lemma quiet_parseInput js_Number t :
  (forall input, quiet (parseInput js_Number t input)) /\
  quiet_children (childParsers js_Number t).
Proof.
  induction t as [| | | | | |a vt IH|a props IH|a it co IH|a types IH] using BaseType_tree_ind;
    simpl.
  1-6: split; [intros; apply quiet_parseBody|]; apply quiet_children_nil.
  - destruct IH as [IH _]. split; [intros; apply quiet_parseBody|];
      apply quiet_children_record, IH.
  - assert (H : Forall (fun kt : string * (Value -> M Value) => forall x, quiet (snd kt x))
                  (List.map (fun kt => (fst kt, parseInput js_Number (snd kt))) props)).
    { apply Forall_map. eapply Forall_impl; [exact IH|]. intros kt [Hkt _]. exact Hkt. }
    split; [intros; apply quiet_parseBody|]; apply quiet_children_object, H.
  - destruct IH as [IH _]. split; [intros; apply quiet_parseBody|];
      apply quiet_children_array, IH.
  - split; [|apply quiet_children_nil].
    intros input. apply quiet_parseUnion. apply Forall_map.
    eapply Forall_impl; [exact IH|]. intros m Hm. exact Hm.
Qed.

Lemma quiet_overrideIssues value l ov p : quiet (overrideIssues value l ov p).
Proof.
  unfold overrideIssues. apply quiet_bind; [apply quiet_removeIssues|]. intros _.
  apply quiet_bind; [apply quiet_run|]. intros r.
  apply quiet_bind; [|intros; apply quiet_addIssues].
  destruct r; [|apply quiet_ret].
  apply quiet_bind; [apply quiet_issue|]. intros [i|]; quiet_auto.
Qed.

Lemma quiet_run_refinement value resetPath p entry :
  quiet resetPath -> quiet (run_refinement value resetPath p entry).
Proof.
  intros Hr. unfold run_refinement. apply quiet_bind; [exact Hr|]. intros _.
  intros st e st'. unfold try_catch.
  destruct (refinement_body value p entry st) as [[a|e0] st0] eqn:E; [discriminate|].
  destruct e0; try (intros [= <- _]; discriminate);
    unfold bind, gets; try discriminate.
Qed.

Lemma quiet_validateNode entries children value :
  (forall h v, Forall (fun kt => forall x, quiet (snd kt x)) (children h v)) ->
  quiet (validateNode entries children value).
Proof.
  intros Hc. unfold validateNode.
  apply quiet_bind; [apply quiet_gets|]. intros c.
  destruct (ParseContext.pathHasErrors c); [apply quiet_ret|].
  apply quiet_bind; [apply quiet_gets|]. intros h.
  apply quiet_bind.
  - apply quiet_for_each. eapply Forall_impl; [apply Hc|]. intros kt Hkt. simpl in Hkt.
    apply quiet_withChildPath.
    apply quiet_bind; [apply quiet_gets|]. intros h'.
    apply quiet_bind; [quiet_auto|]. intros x. apply Hkt.
  - intros _. unfold Proxy.withProxy.
    apply quiet_bind; [apply quiet_gets|]. intros p.
    apply quiet_bind.
    + unfold Proxy.getProxy. apply quiet_bind; [apply quiet_modify|]. intros _.
      apply quiet_bind; [apply quiet_gets|]. intros; apply quiet_tryGetProxy.
    + intros proxy. apply quiet_try_finally.
      apply quiet_bind; [apply quiet_gets|]. intros path_.
      apply quiet_for_each. apply Forall_forall. intros entry _.
      apply quiet_run_refinement, quiet_setPath.
Qed.

Lemma quiet_validatePhase async t : forall value, quiet (validatePhase async t value).
Proof.
  induction t as [| | | | | |a vt IH|a props IH|a it co IH|a types IH] using BaseType_tree_ind;
    intros value; simpl; apply quiet_validateNode; intros h v; try constructor.
  - unfold recordChildKeys. apply Forall_map. apply Forall_forall. intros k _ x. apply IH.
  - unfold objectChildKeys. apply Forall_map, Forall_map.
    eapply Forall_impl; [exact IH|]. auto.
  - unfold arrayChildKeys. destruct v; try constructor.
    destruct (h !! a0) as [[|items]|]; try constructor.
    apply Forall_forall. intros kt Hin.
    apply list_elem_of_omap in Hin as ([i [x|]] & _ & Hx); [|discriminate].
    injection Hx as <-. intros y. apply IH.
Qed.

Lemma quiet_getParseResult js_Number t input : quiet (getParseResult js_Number t input).
Proof.
  unfold getParseResult.
  apply quiet_bind; [apply quiet_parseInput|]. intros value.
  apply quiet_bind; [apply quiet_validatePhase|]. intros _.
  destruct (hasAsyncValidators t).
  - apply quiet_bind; [apply quiet_validatePhase|]. intros _.
    unfold makeResult. quiet_auto.
  - unfold makeResult. quiet_auto.
Qed.

Lemma hasAsyncValidators_nodes t :
  hasAsyncValidators t = true <->
  exists n, In n (nodes t) /\ asyncValidators (attrs n) <> [].
Proof.
  assert (Hown : forall a : Attrs,
    negb (Nat.eqb (List.length (asyncValidators a)) 0) = true <-> asyncValidators a <> []).
  { intros a. destruct (asyncValidators a); simpl; split; congruence. }
  induction t as [| | | | | |a vt IH|a props IH|a it co IH|a types IH] using BaseType_tree_ind;
    simpl.
  1-6: rewrite Hown; split;
    [intros H; eexists; split; [left; reflexivity|exact H]
    |intros (n & [<-|[]] & H); exact H].
  - rewrite orb_true_iff, Hown, IH. split.
    + intros [H|(n & Hn & H)]; [eexists; split; [left; reflexivity|exact H]|].
      exists n. split; [right; exact Hn|exact H].
    + intros (n & [<-|Hn] & H); [left; exact H|right; eauto].
  - rewrite orb_true_iff, Hown, existsb_exists. split.
    + intros [H|([k ty] & Hin & H)]; [eexists; split; [left; reflexivity|exact H]|].
      rewrite Forall_forall in IH.
      apply (IH (k, ty) (proj2 (list_elem_of_In _ _) Hin)) in H as (n & Hn & H).
      exists n. split; [|exact H]. right. apply in_flat_map. exists (k, ty). auto.
    + intros (n & [<-|Hn] & H); [left; exact H|right].
      apply in_flat_map in Hn as ([k ty] & Hin & Hn).
      exists (k, ty). split; [exact Hin|].
      rewrite Forall_forall in IH.
      apply (IH (k, ty) (proj2 (list_elem_of_In _ _) Hin)). eauto.
  - rewrite orb_true_iff, Hown, IH. split.
    + intros [H|(n & Hn & H)]; [eexists; split; [left; reflexivity|exact H]|].
      exists n. split; [right; exact Hn|exact H].
    + intros (n & [<-|Hn] & H); [left; exact H|right; eauto].
  - rewrite orb_true_iff, Hown, existsb_exists. split.
    + intros [H|(ty & Hin & H)]; [eexists; split; [left; reflexivity|exact H]|].
      rewrite Forall_forall in IH.
      apply (IH ty (proj2 (list_elem_of_In _ _) Hin)) in H as (n & Hn & H).
      exists n. split; [|exact H]. right. apply in_flat_map. exists ty. auto.
    + intros (n & [<-|Hn] & H); [left; exact H|right].
      apply in_flat_map in Hn as (ty & Hin & Hn).
      exists ty. split; [exact Hin|].
      rewrite Forall_forall in IH.
      apply (IH ty (proj2 (list_elem_of_In _ _) Hin)). eauto.
Qed.

(** C6.  [hasAsyncValidators] holds exactly when some node of the schema
    tree, the root or a descendant through object properties, record values,
    array items or union members, has an asynchronous refinement.
    [safeParse] throws its error about asynchronous validators exactly in
    that case, and then with the heap untouched, before any parsing;
    [safeParseAsync] never throws that error. *)
Theorem safeParse_async_guard js_Number t input o h :
  let has_async := exists n, In n (nodes t) /\ asyncValidators (attrs n) <> [] in
  (hasAsyncValidators t = true <-> has_async) /\
  (fst (safeParse js_Number t input o h) = Thrown async_validators_present <-> has_async) /\
  (has_async -> safeParse js_Number t input o h = (Thrown async_validators_present, h)) /\
  fst (safeParseAsync js_Number t input o h) <> Thrown async_validators_present.
Proof.
  intros has_async.
  pose proof (hasAsyncValidators_nodes t) as Hnodes. fold has_async in Hnodes.
  assert (Hquiet : forall r st,
    getParseResult js_Number t input (new_state h o) = (r, st) ->
    r <> Thrown async_validators_present).
  { intros r st H ->. eapply quiet_getParseResult; [exact H|reflexivity]. }
  split; [exact Hnodes|]. split; [|split].
  - rewrite <- Hnodes. unfold safeParse.
    destruct (hasAsyncValidators t); [split; reflexivity|].
    destruct (getParseResult _ _ _ _) as [r st] eqn:E. simpl.
    split; [|discriminate]. intros ->. exfalso. eapply Hquiet; eauto.
  - intros H. apply Hnodes in H. unfold safeParse. rewrite H. reflexivity.
  - unfold safeParseAsync. destruct (getParseResult _ _ _ _) as [r st] eqn:E. simpl.
    eapply Hquiet; eauto.
Qed.

(** * The caller's input object *)

Lemma filter_filter {A} (f g : A -> bool) l :
  List.filter f (List.filter g l) = List.filter (fun x => g x && f x) l.
Proof.
  induction l as [|x l IH]; [reflexivity|]. simpl.
  destruct (g x); simpl; [destruct (f x)|]; rewrite IH; reflexivity.
Qed.

Lemma fold_delete_lookup (a : addr) keys : forall (h : Heap) fs,
  h !! a = Some (HObject fs) ->
  fold_left (fun h key => delete_prop h (VObj a) key) keys h !! a =
    Some (HObject (List.filter (fun kv => negb (existsb (String.eqb (fst kv)) keys)) fs)).
Proof.
  induction keys as [|k rest IH]; intros h fs Hh; simpl.
  - rewrite Hh. f_equal. f_equal. symmetry. apply filter_all.
    apply Forall_forall. reflexivity.
  - rewrite Hh.
    rewrite (IH _ (List.filter (fun kv => negb (String.eqb (fst kv) k)) fs)).
    + rewrite filter_filter. f_equal. f_equal. apply List.filter_ext.
      intros kv. rewrite negb_orb. reflexivity.
    + apply list_lookup_insert_eq. eapply lookup_lt_Some. exact Hh.
Qed.

(** What [delete] leaves of the fields once the extra keys are gone. *)
Lemma filter_extra_keys (props : list (string * BaseType)) (fields : list (string * Value)) :
  List.filter
    (fun kv => negb (existsb (String.eqb (fst kv))
       (List.filter (fun key => negb (has_property props key)) (fst <$> fields))))
    fields = List.filter (kept props) fields.
Proof.
  apply List.filter_ext_in. intros [k v] Hin. unfold kept. cbn [fst].
  destruct (has_property props k) eqn:Hd.
  - apply negb_true_iff. apply not_true_is_false. intros Hex.
    apply existsb_exists in Hex as (k' & Hk' & Heq).
    apply String.eqb_eq in Heq. subst k'.
    apply List.filter_In in Hk' as [_ Hk']. rewrite Hd in Hk'. discriminate.
  - apply negb_false_iff. apply existsb_exists. exists k. split; [|apply String.eqb_refl].
    apply List.filter_In. split; [|rewrite Hd; reflexivity].
    apply list_elem_of_In. apply list_elem_of_fmap. exists (k, v). split; [reflexivity|].
    apply list_elem_of_In. exact Hin.
Qed.

Lemma clean_object_run a props (obj : addr) fields st :
  heap st !! obj = Some (HObject fields) ->
  clean (ObjectType a props) (VObj obj) st =
    (Ok (VObj obj),
     set_heap (fold_left (fun h key => delete_prop h (VObj obj) key)
                 (List.filter (fun key => negb (has_property props key)) (fst <$> fields))
                 (heap st)) st).
Proof.
  intros Hobj. unfold clean, bind, gets, modify, ret. cbv beta iota zeta.
  unfold object_keys. rewrite Hobj. reflexivity.
Qed.

(** C3.  [ObjectType.clean] runs on the caller's own object, before
    [parseInput] makes its copy: every key for which the schema's
    [properties] has nothing, that is every key that is neither declared nor
    the name of a member of [Object.prototype], is deleted from the object
    the caller passed in, and the other keys stay as they are.  A parse
    does not leave such an input unchanged. *)
Theorem object_clean_deletes_from_input a props (obj : addr) fields st :
  heap st !! obj = Some (HObject fields) ->
  exists st',
    clean (ObjectType a props) (VObj obj) st = (Ok (VObj obj), st') /\
    heap st' !! obj = Some (HObject (List.filter (kept props) fields)) /\
    (forall k, In k (List.map fst fields) -> has_property props k = false ->
               ~ In k (List.map fst (List.filter (kept props) fields))) /\
    ctx st' = ctx st.
Proof.
  intros Hobj. rewrite (clean_object_run a props obj fields st Hobj).
  eexists. split; [reflexivity|]. cbn [heap set_heap ctx].
  split; [|split; [|reflexivity]].
  - rewrite (fold_delete_lookup obj _ (heap st) fields Hobj).
    rewrite filter_extra_keys. reflexivity.
  - intros k _ Hk Hin. apply in_map_iff in Hin as ([k' v] & <- & Hin).
    apply List.filter_In in Hin as [_ Hkept]. unfold kept in Hkept.
    cbn [fst] in *. congruence.
Qed.

(** C3 at [z.object({ name: z.string() })] and [{ name: "a", extra: "x" }]. *)
Lemma object_clean_deletes_from_input_witness :
  let caller := [HObject [("name", VStr "a"); ("extra", VStr "x")]] in
  caller !! 0%nat = Some (HObject [("name", VStr "a"); ("extra", VStr "x")]) /\
  exists st',
    clean Samples.Person (VObj 0%nat) (new_state caller []) = (Ok (VObj 0%nat), st') /\
    heap st' !! 0%nat = Some (HObject [("name", VStr "a")]).
Proof.
  intros caller. split; [reflexivity|].
  destruct (object_clean_deletes_from_input new_attrs [("name", Samples.plain_string)] 0%nat
              [("name", VStr "a"); ("extra", VStr "x")] (new_state caller []) eq_refl)
    as (st' & Hclean & Hheap & _ & _).
  exists st'. split; [exact Hclean|exact Hheap].
Defined.

(** [z.object({ name: z.string() }).safeParse({ name: "a", extra: "x" })]
    succeeds with a fresh object, and the caller's object has lost [extra]. *)
Example safeParse_strips_caller_object :
  safeParse Samples.toNumber Samples.Person (VObj 0%nat) []
            [HObject [("name", VStr "a"); ("extra", VStr "x")]] =
    (Ok (ParseSuccess (VObj 1%nat)),
     [HObject [("name", VStr "a")]; HObject [("name", VStr "a")]]).
Proof. vm_compute. reflexivity. Qed.

(** * The statements at sample schemas *)

(** C1, as first stated, fails: [z.string({ invalid_type_error: (ctx) =>
    ctx.issue("invalid", "Invalid name") })] on the input [1] fails its
    check, has no coercion, and records the override's issue, whose code is
    neither [invalid_type] nor [required]. *)
Lemma leaf_issue_code_from_override :
  is_leaf Samples.name_with_override = true /\
  isNullish (VNum 1) = false /\
  fst (check Samples.name_with_override (VNum 1) (new_state [] [])) =
    Ok (Some (mkIssue 0 [] "invalid_type" "Expected: string, Received: 1")) /\
  fst (coerce Samples.toNumber Samples.name_with_override (VNum 1) (new_state [] [])) =
    Ok VUndefined /\
  fst (safeParse Samples.toNumber Samples.name_with_override (VNum 1) [] []) =
    Ok (ParseFailure [mkIssue 1 [] "invalid" "Invalid name"]).
Proof. vm_compute. repeat split; reflexivity. Qed.


(** The same through the entry point. *)
Example nested_issue_path :
  fst (safeParse Samples.toNumber Samples.nested (VObj 2%nat) []
         [HArray [Some (VNum 1); Some (VNum 2); Some (VNum 3)];
          HObject [("b", VArr 0%nat)];
          HObject [("a", VObj 1%nat)]]) =
    Ok (ParseFailure [mkIssue 0 [KStr "a"; KStr "b"; KNum 2] "custom" "bad item"]).
Proof. vm_compute. reflexivity. Qed.





(** C7, as first stated, fails: the refinement and its override sit on the
    root node, and the replacement the callback returns keeps the path of the
    field read last. *)
Lemma override_callback_issue_keeps_its_path :
  fst (safeParse Samples.toNumber Samples.overridden_by_callback (VObj 0%nat) []
         [HObject [("name", VStr "ab")]]) =
    Ok (ParseFailure [mkIssue 1 [KStr "name"] "bad_name" "Bad name"]).
Proof. vm_compute. reflexivity. Qed.

(** C7 (amended) at a refinement raising two issues under a string
    override. *)
Lemma refinement_override_witness :
  override two_entry = Some (fun _ => Return (OvString "Invalid name")) /\
  fst (run_refinement (Raw (VStr "x")) (ParseContext.setPath []) [] two_entry
         (new_state [] [])) = Ok tt /\
  issues (ctx (snd (run_refinement (Raw (VStr "x")) (ParseContext.setPath []) [] two_entry
                      (new_state [] [])))) =
    [mkIssue 2 [] "custom" "Invalid name"].
Proof.
  split; [reflexivity|].
  edestruct (refinement_override (Raw (VStr "x")) [] two_entry
               (fun _ => Return (OvString "Invalid name")) (new_state [] []))
    as (_ & _ & _ & Hstring); [reflexivity|reflexivity|].
  destruct (Hstring "Invalid name" eq_refl) as (Hrun & _).
  rewrite Hrun. split; reflexivity.
Defined.

(** C8 at the repository's tagged union and [{ type: "other" }]. *)
Lemma union_resolution_witness :
  let st := new_state [HObject [("type", VStr "other")]] [] in
  Forall (fun t => getLiteralKeys t <> []) [Samples.string_member; Samples.number_member] /\
  Forall (fun t => discriminants_match (heap st) (VObj 0%nat) t = false)
         [Samples.string_member; Samples.number_member] /\
  parseInput Samples.toNumber Samples.tagged (VObj 0%nat) st =
    (on_clone (parseInput Samples.toNumber Samples.string_member (VObj 0%nat)) ;;;
     parseBody Samples.toNumber new_attrs Samples.string_member
               (childParsers Samples.toNumber Samples.string_member) (VObj 0%nat)) st.
Proof.
  intros st.
  assert (Hkeys : Forall (fun t => getLiteralKeys t <> [])
                         [Samples.string_member; Samples.number_member])
    by (repeat constructor; discriminate).
  assert (Hnone : Forall (fun t => discriminants_match (heap st) (VObj 0%nat) t = false)
                         [Samples.string_member; Samples.number_member])
    by (repeat constructor).
  split; [exact Hkeys|]. split; [exact Hnone|].
  apply (union_resolution Samples.toNumber new_attrs Samples.string_member
           [Samples.number_member] 0%nat st Hkeys Hnone).
Defined.

(** C9 at [z.string().min(2).optional().min(4)]. *)
Lemma extension_reapplication_witness :
  exists t,
    chain Samples.StringExtensions Samples.plain_string min_twice = Some t /\
    getExtensionParams "min" t = Some [VNum 4] /\
    getExtensionParams "username" t = None /\
    registered "min" (validators (attrs t)) = 1%nat.
Proof.
  eexists. split; [reflexivity|].
  match goal with |- getExtensionParams _ ?t = _ /\ _ => set (node := t) end.
  destruct (extension_reapplication Samples.StringExtensions Samples.plain_string min_twice
              node "min" eq_refl eq_refl eq_refl) as (Hparams & _ & _).
  destruct (extension_reapplication Samples.StringExtensions Samples.plain_string min_twice
              node "username" eq_refl eq_refl eq_refl) as (Hnone & _ & _).
  split; [exact Hparams|]. split; [exact Hnone|]. reflexivity.
Defined.

(** C10 at the tagged union. *)
Lemma union_members_nonempty_witness :
  exists t0 rest d,
    [Samples.string_member; Samples.number_member] = t0 :: rest /\
    defaultValue Samples.tagged = defaultValue t0 /\
    defaultValue t0 = Ok d.
Proof.
  destruct union_members_nonempty as (_ & _ & Hbuilt).
  apply (Hbuilt Samples.tagged new_attrs).
  - unfold Samples.tagged.
    apply (Built_union [Samples.string_member; Samples.number_member]).
    + intros t [<-|[<-|[]]].
      * apply Built_object. intros k t [[= <- <-]|[[= <- <-]|[]]]; constructor.
      * apply Built_object. intros k t [[= <- <-]|[[= <- <-]|[]]]; constructor.
    + reflexivity.
  - left. reflexivity.
Defined.

(** C6 at [z.string().refine(...).refineAsync(...)]. *)
Lemma safeParse_async_guard_witness :
  hasAsyncValidators Samples.sync_then_async = true /\
  safeParse Samples.toNumber Samples.sync_then_async (VStr "x") [] [] =
    (Thrown async_validators_present, []).
Proof.
  split; [reflexivity|].
  destruct (safeParse_async_guard Samples.toNumber Samples.sync_then_async (VStr "x") [] [])
    as (Hnodes & _ & Hguard & _).
  apply Hguard, Hnodes. reflexivity.
Defined.

(** * Nullish inputs *)

Lemma parseInput_union_null js_Number a types st :
  parseInput js_Number (UnionType a types) VNull st = (Thrown null_constructor_error, st).
Proof. reflexivity. Qed.

(** X1.  A union never parses [null].  Resolving the member of a union
    starts with [isObject(input)], which reads [input.constructor]: for every
    union, whatever its members and whether it is optional or nullable,
    [parseInput] on [null] throws the [TypeError] of that read and leaves
    the state as it was.  [safeParse] (on a union without asynchronous
    refinements) and [safeParseAsync] throw the same error instead of
    returning a result. *)
Theorem union_rejects_null js_Number a types o h :
  (forall st,
     parseInput js_Number (UnionType a types) VNull st = (Thrown null_constructor_error, st)) /\
  (hasAsyncValidators (UnionType a types) = false ->
   safeParse js_Number (UnionType a types) VNull o h = (Thrown null_constructor_error, h)) /\
  safeParseAsync js_Number (UnionType a types) VNull o h = (Thrown null_constructor_error, h).
Proof.
  split; [intros; apply parseInput_union_null|]. split.
  - intros Hsync. unfold safeParse. rewrite Hsync.
    unfold getParseResult, bind. rewrite parseInput_union_null. reflexivity.
  - unfold safeParseAsync, getParseResult, bind. rewrite parseInput_union_null. reflexivity.
Qed.

Lemma parseInput_non_union js_Number t :
  is_union t = false ->
  parseInput js_Number t = parseBody js_Number (attrs t) t (childParsers js_Number t).
Proof. destruct t; try discriminate; reflexivity. Qed.

Lemma default_alloc_isObject t d h :
  is_union t = false -> defaultValue t = Ok d ->
  exists b, isObject (fst (alloc d h)) = Ok b.
Proof.
  intros Hu Hd. destruct t as [| | | |? l| | |? props| |]; try discriminate; simpl in Hd.
  1-4, 6-7, 9: injection Hd as <-; simpl; eauto.
  - injection Hd as <-. destruct l; simpl; eauto.
  - match type of Hd with match ?g with _ => _ end = _ => destruct g as [fs|e] end;
      [|discriminate].
    injection Hd as <-. simpl.
    match goal with |- context [let '(_, _) := ?g in _] => destruct g as [vs h'] end.
    simpl. eauto.
Qed.

Lemma issue_of_required input st :
  isNullish input = true ->
  ParseContext.issue_of (CORE_ISSUES.required input (_path (ctx st))) st =
    (Ok (required_issue input st), add_issue (required_issue input st) st).
Proof. destruct input; try discriminate; reflexivity. Qed.

Lemma add_issue_present i st :
  ParseContext.addIssues [i] (add_issue i st) = (Ok tt, add_issue i st).
Proof.
  unfold ParseContext.addIssues, modify. f_equal. cbn [fold_left].
  change (issues (ctx (add_issue i st))) with (issues (ctx st) ++ [i]).
  rewrite set_add_snoc. destruct st as [h n c p ni]; destruct c; reflexivity.
Qed.

(** What [parseInput] computes for a nullish input: the default value is
    loaded and its top level copied. *)
Lemma nullish_input_run js_Number t input d st :
  is_union t = false -> isNullish input = true -> defaultValue t = Ok d ->
  let v0 := alloc d (heap st) in
  let out := spread (snd v0) (fst v0) in
  if admits (attrs t) input then
    parseInput js_Number t input st =
      (Ok (fst out), set_heap (snd out) (record_input input true t st))
  else
    core_override "required" (overrides (attrs t)) = None ->
    parseInput js_Number t input st =
      (Ok (fst out),
       set_heap (snd out)
         (record_input input false t (add_issue (required_issue input st) st))).
Proof.
  intros Hu Hnull Hd v0 out.
  rewrite (parseInput_non_union _ _ Hu).
  destruct (default_alloc_isObject t d (heap st) Hu Hd) as [b Hb]. fold v0 in Hb.
  unfold parseBody. rewrite Hnull.
  destruct (admits (attrs t) input) eqn:Hadm.
  - assert (Hvi :
      (i1 <- (if negb (isOptional (attrs t)) && strictEq input VUndefined then
                p <- gets (fun st => ParseContext.path (ctx st)) ;;
                i <- ParseContext.issue_of (CORE_ISSUES.required input p) ;;
                ret (Some i)
              else ret None) ;;
       i2 <- (if negb (isNullable (attrs t)) && strictEq input VNull then
                p <- gets (fun st => ParseContext.path (ctx st)) ;;
                i <- ParseContext.issue_of (CORE_ISSUES.required input p) ;;
                ret (Some i)
              else ret i1) ;;
       ret (VUndefined, i2)) st = (Ok (VUndefined, None), st)).
    { unfold admits in Hadm.
      destruct input; try discriminate;
        destruct (isOptional (attrs t)), (isNullable (attrs t)); try discriminate; reflexivity. }
    unfold bind at 1. rewrite Hvi. cbn [fst snd isNullish negb].
    unfold bind at 1.
    change (ParseContext.setInput input (bool_decide (None = None)) t st)
      with (Ok tt, record_input input true t st).
    cbv iota beta.
    unfold bind at 1. unfold bind at 1. rewrite Hd. unfold lift at 1. cbv iota beta.
    unfold bind at 1.
    change (heap (record_input input true t st)) with (heap st). fold v0.
    destruct v0 as [v h0] eqn:Ev0. cbn [fst snd] in *. unfold ret at 1.
    cbv iota beta. cbn [fst snd].
    unfold bind at 1. rewrite Hb. unfold lift at 1. cbv iota beta.
    unfold bind at 1. cbn [heap set_heap]. fold out.
    destruct out as [dv h1]. cbn [fst snd].
    unfold bind at 1. rewrite tryGetCoreIssueOverride_spec.
    change (core_override "" (overrides (attrs t))) with (@None (ValidationResultOverride Value)).
    cbv iota beta. unfold bind, ret. cbn [negb]. reflexivity.
  - intros Hov.
    assert (Hvi :
      (i1 <- (if negb (isOptional (attrs t)) && strictEq input VUndefined then
                p <- gets (fun st => ParseContext.path (ctx st)) ;;
                i <- ParseContext.issue_of (CORE_ISSUES.required input p) ;;
                ret (Some i)
              else ret None) ;;
       i2 <- (if negb (isNullable (attrs t)) && strictEq input VNull then
                p <- gets (fun st => ParseContext.path (ctx st)) ;;
                i <- ParseContext.issue_of (CORE_ISSUES.required input p) ;;
                ret (Some i)
              else ret i1) ;;
       ret (VUndefined, i2)) st =
      (Ok (VUndefined, Some (required_issue input st)),
       add_issue (required_issue input st) st)).
    { unfold admits in Hadm.
      destruct input; try discriminate;
        destruct (isOptional (attrs t)), (isNullable (attrs t)); try discriminate; reflexivity. }
    set (r := required_issue input st) in *.
    unfold bind at 1. rewrite Hvi. cbn [fst snd isNullish negb].
    unfold bind at 1.
    change (ParseContext.setInput input (bool_decide (Some r = None)) t (add_issue r st))
      with (Ok tt, record_input input false t (add_issue r st)).
    cbv iota beta.
    unfold bind at 1. unfold bind at 1. rewrite Hd. unfold lift at 1. cbv iota beta.
    unfold bind at 1.
    change (heap (record_input input false t (add_issue r st))) with (heap st). fold v0.
    destruct v0 as [v h0] eqn:Ev0. cbn [fst snd] in *. unfold ret at 1.
    cbv iota beta. cbn [fst snd].
    unfold bind at 1. rewrite Hb. unfold lift at 1. cbv iota beta.
    unfold bind at 1. cbn [heap set_heap]. fold out.
    destruct out as [dv h1]. cbn [fst snd].
    unfold bind at 1. rewrite tryGetCoreIssueOverride_spec.
    change (code r) with "required". rewrite Hov.
    cbv iota beta. unfold bind at 1. unfold ret at 1. unfold bind at 1.
    match goal with |- context [ParseContext.addIssues [r] ?s] =>
      replace (ParseContext.addIssues [r] s) with (Ok tt, s) end.
    + unfold bind, ret. reflexivity.
    + unfold ParseContext.addIssues, modify. f_equal. cbn [fold_left].
      match goal with |- _ = set_ctx (ctx_set_issues (ParseContext.set_add ?l r) _) _ =>
        change l with (issues (ctx st) ++ [r]) end.
      rewrite set_add_snoc. destruct st as [h n c p ni]; destruct c; reflexivity.
Qed.

Lemma alloc_scalar d h : scalar_data d = true -> exists v, alloc d h = (v, h) /\
  is_container v = false /\ readback 0 h v = d /\ forall h', readback 0 h' v = d.
Proof.
  destruct d; try discriminate; intros _; eexists; repeat split; reflexivity.
Qed.

Lemma alloc_flat_fields (fields : list (string * Data)) h :
  forallb (fun kd => scalar_data (snd kd)) fields = true ->
  exists fs,
    (fix go (l : list (string * Data)) (h : Heap) : list (string * Value) * Heap :=
       match l with
       | [] => ([], h)
       | (k, d) :: rest =>
           let '(v, h) := alloc d h in
           let '(vs, h) := go rest h in
           ((k, v) :: vs, h)
       end) fields h = (fs, h) /\
    forall h', List.map (fun kv => (fst kv, readback 0 h' (snd kv))) fs = fields.
Proof.
  induction fields as [|[k d] rest IH]; intros Hall.
  - exists []. split; reflexivity.
  - cbn [forallb snd] in Hall. apply andb_true_iff in Hall as [Hd Hrest].
    destruct (IH Hrest) as (fs & Hgo & Hback).
    destruct (alloc_scalar d h Hd) as (v & Hv & _ & _ & Hread).
    exists ((k, v) :: fs). split.
    + rewrite Hv. rewrite Hgo. reflexivity.
    + intros h'. cbn [List.map fst snd]. rewrite Hread, Hback. reflexivity.
Qed.

Lemma alloc_flat_items (items : list (option Data)) h :
  forallb (fun x => match x with Some d => scalar_data d | None => false end) items = true ->
  exists vs,
    (fix go (l : list (option Data)) (h : Heap) : list (option Value) * Heap :=
       match l with
       | [] => ([], h)
       | None :: rest => let '(vs, h) := go rest h in (None :: vs, h)
       | Some d :: rest =>
           let '(v, h) := alloc d h in
           let '(vs, h) := go rest h in
           (Some v :: vs, h)
       end) items h = (vs, h) /\
    forall h', List.map (option_map (readback 0 h'))
                 ((fun x : option Value => Some (default VUndefined x)) <$> vs)
               = items.
Proof.
  induction items as [|[d|] rest IH]; intros Hall.
  - exists []. split; reflexivity.
  - cbn [forallb] in Hall. apply andb_true_iff in Hall as [Hd Hrest].
    destruct (IH Hrest) as (vs & Hgo & Hback).
    destruct (alloc_scalar d h Hd) as (v & Hv & _ & _ & Hread).
    exists (Some v :: vs). split.
    + rewrite Hv, Hgo. reflexivity.
    + intros h'. cbn [fmap list_fmap List.map option_map default id].
      change (list_fmap _ _ ?f vs) with (f <$> vs).
      rewrite Hread, Hback. reflexivity.
  - discriminate.
Qed.

Lemma readback_object fuel h (a : addr) fields :
  h !! a = Some (HObject fields) ->
  readback (S fuel) h (VObj a) =
    DObject (List.map (fun kv => (fst kv, readback fuel h (snd kv))) fields).
Proof. intros H. cbn [readback]. rewrite H. reflexivity. Qed.

Lemma readback_array fuel h (a : addr) items :
  h !! a = Some (HArray items) ->
  readback (S fuel) h (VArr a) = DArray (List.map (option_map (readback fuel h)) items).
Proof. intros H. cbn [readback]. rewrite H. reflexivity. Qed.

(** Loading a flat literal and copying its top level. *)
Lemma flat_default_copy d h :
  flat_default d = true ->
  let v0 := alloc d h in
  let out := spread (snd v0) (fst v0) in
  default_copy d h (fst out) (snd out) /\
  exists b, isObject (fst v0) = Ok b.
Proof.
  intros Hflat v0 out. unfold default_copy.
  destruct d as [| |b|n|s|f|fields|items]; cbn [flat_default scalar_data] in *;
    try discriminate; try (subst v0 out; cbn; repeat split; eauto; fail).
  - destruct (alloc_flat_fields fields h Hflat) as (fs & Hgo & Hback).
    assert (Hv0 : v0 = (VObj (List.length h), h ++ [HObject fs])).
    { subst v0. cbn [alloc]. rewrite Hgo. reflexivity. }
    assert (Hout : out = (VObj (S (List.length h)), h ++ [HObject fs] ++ [HObject fs])).
    { subst out. rewrite Hv0. cbn [fst snd spread].
      replace ((h ++ [HObject fs]) !! List.length h) with (Some (HObject fs))
        by (symmetry; apply list_lookup_middle; reflexivity).
      unfold heap_alloc.
      f_equal; [f_equal; rewrite List.length_app; cbn; lia|].
      rewrite <- app_assoc. reflexivity. }
    rewrite Hout, Hv0. cbn [fst snd]. split; [split; [|split]|].
    + rewrite (readback_object 0 _ _ fs).
      * rewrite Hback. reflexivity.
      * rewrite app_assoc. apply list_lookup_middle.
        rewrite List.length_app. cbn. lia.
    + intros a Ha. apply lookup_app_l. exact Ha.
    + eexists. split; [left; reflexivity|lia].
    + eexists. reflexivity.
  - destruct (alloc_flat_items items h Hflat) as (vs & Hgo & Hback).
    assert (Hv0 : v0 = (VArr (List.length h), h ++ [HArray vs])).
    { subst v0. cbn [alloc]. rewrite Hgo. reflexivity. }
    set (copy := (fun x : option Value => Some (default VUndefined x)) <$> vs).
    assert (Hout : out = (VArr (S (List.length h)), h ++ [HArray vs] ++ [HArray copy])).
    { subst out. rewrite Hv0. cbn [fst snd spread].
      replace ((h ++ [HArray vs]) !! List.length h) with (Some (HArray vs))
        by (symmetry; apply list_lookup_middle; reflexivity).
      unfold heap_alloc.
      f_equal; [f_equal; rewrite List.length_app; cbn; lia|].
      rewrite <- app_assoc. reflexivity. }
    rewrite Hout, Hv0. cbn [fst snd]. split; [split; [|split]|].
    + rewrite (readback_array 0 _ _ copy).
      * unfold copy. rewrite Hback. reflexivity.
      * rewrite app_assoc. apply list_lookup_middle.
        rewrite List.length_app. cbn. lia.
    + intros a Ha. apply lookup_app_l. exact Ha.
    + eexists. split; [right; reflexivity|lia].
    + eexists. reflexivity.
Qed.

(** X2.  [null] and [undefined] at a node that is not a union and whose
    default value holds no nested object or array (every scalar, array and
    record node, and an object node whose properties have scalar defaults).
    The parsed value is a copy of the default value, never the nullish
    input: it reads back as the default value, a container is newly
    allocated, and nothing that existed is touched.  When the node admits
    the input ([optional] for [undefined], [nullable] for [null]) the input
    is recorded as parsed and no issue is created.  Otherwise, with no
    [required_error] override on the node, one [required] issue with the
    message [Value is required, Received '<input>'] is added at the current
    path and the input is recorded as not parsed. *)
Theorem nullish_input js_Number t input d st :
  is_union t = false -> isNullish input = true ->
  defaultValue t = Ok d -> flat_default d = true ->
  exists v h',
    default_copy d (heap st) v h' /\
    if admits (attrs t) input then
      parseInput js_Number t input st =
        (Ok v, set_heap h' (record_input input true t st))
    else
      core_override "required" (overrides (attrs t)) = None ->
      parseInput js_Number t input st =
        (Ok v,
         set_heap h'
           (record_input input false t (add_issue (required_issue input st) st))).
Proof.
  intros Hu Hnull Hd Hflat.
  destruct (flat_default_copy d (heap st) Hflat) as [Hcopy _].
  cbv zeta in Hcopy.
  eexists _, _. split; [exact Hcopy|].
  exact (nullish_input_run js_Number t input d st Hu Hnull Hd).
Qed.

Lemma nullish_input_witness :
  (exists v h',
     default_copy (DObject [("name", DStr "")]) [] v h' /\
     parseInput Samples.toNumber (optional Samples.Person) VUndefined (new_state [] []) =
       (Ok v, set_heap h' (record_input VUndefined true (optional Samples.Person)
                             (new_state [] [])))) /\
  (exists v h',
     default_copy (DStr "") [] v h' /\
     parseInput Samples.toNumber (optional Samples.plain_string) VNull (new_state [] []) =
       (Ok v,
        set_heap h'
          (record_input VNull false (optional Samples.plain_string)
             (add_issue (mkIssue 0 [] "required" "Value is required, Received 'null'")
                        (new_state [] []))))).
Proof.
  split.
  - destruct (nullish_input Samples.toNumber (optional Samples.Person) VUndefined
                (DObject [("name", DStr "")]) (new_state [] [])
                eq_refl eq_refl eq_refl eq_refl) as (v & h' & Hcopy & Hrun).
    exists v, h'. split; [exact Hcopy|exact Hrun].
  - destruct (nullish_input Samples.toNumber (optional Samples.plain_string) VNull
                (DStr "") (new_state [] []) eq_refl eq_refl eq_refl eq_refl)
      as (v & h' & Hcopy & Hrun).
    exists v, h'. split; [exact Hcopy|exact (Hrun eq_refl)].
Defined.

(** * Coercion *)

Lemma removed_fresh r st :
  fresh_ids st -> issue_id r = next_issue st ->
  issues (ctx (without_issues [r] (add_issue r st))) = issues (ctx st).
Proof.
  intros Hfresh Hid. unfold without_issues. cbn [fold_left].
  change (issues (ctx (add_issue r st))) with (issues (ctx st) ++ [r]).
  cbn [ctx set_ctx issues ctx_set_issues].
  unfold ParseContext.set_delete. rewrite List.filter_app. cbn [List.filter].
  unfold same_issue at 2. rewrite Nat.eqb_refl. cbn [negb]. rewrite app_nil_r.
  apply filter_all. eapply Forall_impl; [exact Hfresh|].
  intros i Hi. cbv beta in Hi. unfold same_issue. rewrite Hid.
  apply negb_true_iff, Nat.eqb_neq. lia.
Qed.

Lemma coerce_leaf_value js_Number t input st v :
  is_leaf t = true ->
  fst (coerce js_Number t input st) = Ok v -> isNullish v = false ->
  is_primitive v = true /\
  match t with
  | StringType _ _ _ _ => v = VStr (toString input) /\ typeofObject input = false
  | NumberType _ _ => exists n, js_Number (heap st) input = Some n /\ v = VNum n
  | BooleanType _ _ => v = VBool (toBoolean input)
  | _ => False
  end.
Proof.
  intros Hleaf. destruct t; try discriminate; unfold coerce, bind, gets, ret; simpl.
  - destruct (default false _); simpl; [|intros [= <-]; discriminate].
    destruct (isNullish input); simpl; [intros [= <-]; discriminate|].
    destruct (typeofObject input); simpl; intros [= <-]; [discriminate|]. auto.
  - destruct (default false _); simpl; [|intros [= <-]; discriminate].
    destruct (js_Number (heap st) input) as [n|] eqn:E; simpl; intros [= <-];
      [|discriminate]. eauto.
  - destruct (default false _); simpl; [|intros [= <-]; discriminate].
    destruct (isNullish input); simpl; intros [= <-]; [discriminate|]. auto.
  - intros [= <-]. discriminate.
  - intros [= <-]. discriminate.
  - intros [= <-]. discriminate.
Qed.

(** X3.  Coercion at a scalar node.  When [check] fails with the issue [r]
    on an input that is not nullish and [coerce] yields a value [v] that is
    not nullish either, [parseInput] returns [v] after [clean], records the
    input as parsed and takes [r] out of the issue set again: with issue
    identities fresh, the issue set is the one before the call.  [v] is
    [String(input)] at a string node (never for an object), [Number(input)]
    at a number node, [Boolean(input)] at a boolean node; no other scalar
    node coerces.  A number given as input is a safe integer, which
    [String] prints digit for digit. *)
Theorem leaf_parse_coerced js_Number t input st r st1 v :
  is_leaf t = true -> isNullish input = false ->
  (forall n, input = VNum n -> safe_integer n = true) ->
  check t input st = (Ok (Some r), st1) ->
  fst (coerce js_Number t input st1) = Ok v -> isNullish v = false ->
  let st' := record_input input true t (without_issues [r] (add_issue r st)) in
  parseInput js_Number t input st = (Ok (cleaned t (options (ctx st)) v), st') /\
  (fresh_ids st -> issues (ctx st') = issues (ctx st)) /\
  match t with
  | StringType _ _ _ _ => v = VStr (toString input) /\ typeofObject input = false
  | NumberType _ _ => exists n, js_Number (heap st) input = Some n /\ v = VNum n
  | BooleanType _ _ => v = VBool (toBoolean input)
  | _ => False
  end.
Proof.
  intros Hleaf Hnull _ Hcheck Hco Hv st'.
  destruct (check_leaf t input st Hleaf Hnull) as [Hpass|(c & m & Hc & Hfail)];
    [congruence|].
  cbv zeta in Hfail. rewrite Hfail in Hcheck. injection Hcheck as Hr Hst1.
  subst st1. subst r.
  set (r := mkIssue (next_issue st) (_path (ctx st)) c m) in *.
  destruct (coerce_leaf_value js_Number t input _ v Hleaf Hco Hv) as [Hprim Hshape].
  destruct (coerce_leaf js_Number t input (add_issue r st) Hleaf) as [v' Hrun].
  rewrite Hrun in Hco. cbn [fst] in Hco. injection Hco as ->.
  split; [|split].
  - rewrite parseInput_leaf by exact Hleaf. unfold parseBody. rewrite Hnull.
    unfold bind at 1. unfold bind at 1. rewrite Hfail. cbv iota beta.
    unfold bind at 1. rewrite Hrun. cbv iota beta. rewrite Hv.
    unfold bind at 1.
    change (ParseContext.removeIssues [r] (add_issue r st))
      with (Ok tt, without_issues [r] (add_issue r st)).
    cbv iota beta. unfold ret at 1. cbn [fst snd].
    unfold bind at 1.
    change (ParseContext.setInput input (bool_decide (None = None)) t
              (without_issues [r] (add_issue r st))) with (Ok tt, st').
    cbv iota beta. rewrite Hv. cbn [negb].
    unfold bind at 1. unfold bind at 1. rewrite (clean_leaf _ _ _ Hleaf).
    change (options (ctx st')) with (options (ctx st)).
    pose proof (cleaned_primitive t (options (ctx st)) v Hprim) as Hcl.
    set (out := cleaned t (options (ctx st)) v) in *.
    unfold ret at 1. cbn [fst snd negb].
    unfold bind at 1. rewrite (primitive_isObject out Hcl). unfold lift at 1.
    unfold bind at 1. rewrite (primitive_spread _ out Hcl). rewrite set_heap_same.
    unfold bind at 1. rewrite tryGetCoreIssueOverride_spec.
    change (core_override "" (overrides (attrs t)))
      with (@None (ValidationResultOverride Value)).
    cbv iota beta. unfold bind, ret, gets. reflexivity.
  - intros Hfresh. change (issues (ctx st')) with
      (issues (ctx (without_issues [r] (add_issue r st)))).
    apply removed_fresh; [exact Hfresh|]. reflexivity.
  - change (heap (add_issue r st)) with (heap st) in Hshape. exact Hshape.
Qed.

Lemma leaf_parse_coerced_witness :
  let t := pukka.string None None (Some true) no_overrides in
  fst (parseInput Samples.toNumber t (VNum 42) (new_state [] [])) = Ok (VStr "42") /\
  issues (ctx (snd (parseInput Samples.toNumber t (VNum 42) (new_state [] [])))) = [].
Proof.
  intros t.
  destruct (leaf_parse_coerced Samples.toNumber t (VNum 42) (new_state [] [])
              (mkIssue 0 [] "invalid_type" "Expected: string, Received: 42")
              (add_issue (mkIssue 0 [] "invalid_type" "Expected: string, Received: 42")
                         (new_state [] []))
              (VStr "42"))
    as (Hparse & Hissues & _);
    [reflexivity|reflexivity|intros n [= <-]; reflexivity
    |vm_compute; reflexivity|vm_compute; reflexivity|reflexivity|].
  rewrite Hparse. split; [reflexivity|].
  cbn [snd]. rewrite Hissues; [reflexivity|constructor].
Defined.

(** * Exceptions thrown by core issue overrides *)

(** What is left of [parseInput] on a scalar node once [check] has failed
    and [coerce] had nothing to offer. *)
Lemma leaf_parse_failed js_Number t input st c m v :
  is_leaf t = true -> isNullish input = false ->
  let r := mkIssue (next_issue st) (_path (ctx st)) c m in
  check t input st = (Ok (Some r), add_issue r st) ->
  fst (coerce js_Number t input (add_issue r st)) = Ok v -> isNullish v = true ->
  exists dv,
    parseInput js_Number t input st =
      (issueOverride <- tryGetCoreIssueOverride input c (overrides (attrs t)) ;;
       issue <- match issueOverride with
                | Some o => ParseContext.removeIssues [r] ;;; ret (Some o)
                | None => ret (Some r)
                end ;;
       match issue with
       | Some i => ParseContext.addIssues [i]
       | None => ret tt
       end ;;; ret tt ;;; ret dv) (record_input input false t (add_issue r st)).
Proof.
  intros Hleaf Hnull r Hfail Hcoerce Hv.
  destruct (default_leaf t Hleaf) as (d & Hd & Halloc).
  destruct (Halloc (heap st)) as (dv & Hdv & Hprim).
  exists dv.
  destruct (coerce_leaf js_Number t input (add_issue r st) Hleaf) as (v0 & Hco).
  rewrite Hco in Hcoerce. cbn [fst] in Hcoerce. injection Hcoerce as ->.
  set (recorded := record_input input false t (add_issue r st)).
  rewrite parseInput_leaf by exact Hleaf.
  unfold parseBody. rewrite Hnull.
  unfold bind at 1. unfold bind at 1. rewrite Hfail.
  unfold bind at 1. rewrite Hco. rewrite Hv. unfold ret at 1. cbn [fst snd].
  unfold bind at 1.
  change (ParseContext.setInput input (bool_decide (Some r = None)) t (add_issue r st))
    with (Ok tt, recorded).
  cbv iota beta. rewrite Hv. cbn [negb].
  unfold bind at 1. unfold bind at 1. unfold bind at 1. rewrite Hd. unfold lift at 1.
  unfold bind at 1. change (heap recorded) with (heap st). rewrite Hdv.
  change (set_heap (heap st) recorded) with recorded.
  unfold ret at 1. cbn [fst snd negb].
  unfold bind at 1. rewrite (primitive_isObject dv Hprim). unfold lift at 1.
  unfold bind at 1. change (heap recorded) with (heap st).
  rewrite (primitive_spread _ dv Hprim).
  change (set_heap (heap st) recorded) with recorded.
  reflexivity.
Qed.

(** X4.  An exception thrown by a core issue override is not caught.  When
    a scalar fails [check], [coerce] has nothing to offer and the node's
    override for the issue's code is a callback that throws [e], [parseInput]
    throws [e]; so do [safeParse] (on a node without asynchronous
    refinements) and [safeParseAsync], which return no result. *)
Theorem core_override_exception js_Number t input st r st1 v f e st2 :
  is_leaf t = true -> isNullish input = false ->
  check t input st = (Ok (Some r), st1) ->
  fst (coerce js_Number t input st1) = Ok v -> isNullish v = true ->
  core_override (code r) (overrides (attrs t)) = Some (OverrideFn f) ->
  run false (f input) (record_input input false t st1) = (Thrown e, st2) ->
  parseInput js_Number t input st = (Thrown e, st2) /\
  (forall o h, st = new_state h o ->
     (asyncValidators (attrs t) = [] ->
      safeParse js_Number t input o h = (Thrown e, heap st2)) /\
     safeParseAsync js_Number t input o h = (Thrown e, heap st2)).
Proof.
  intros Hleaf Hnull Hcheck Hco Hv Hov Hrun.
  destruct (check_leaf t input st Hleaf Hnull) as [Hpass|(c & m & Hc & Hfail)];
    [congruence|].
  cbv zeta in Hfail. rewrite Hfail in Hcheck. injection Hcheck as Hr Hst1.
  subst st1. subst r.
  set (r := mkIssue (next_issue st) (_path (ctx st)) c m) in *.
  assert (Hparse : parseInput js_Number t input st = (Thrown e, st2)).
  { destruct (leaf_parse_failed js_Number t input st c m v Hleaf Hnull Hfail Hco Hv)
      as [dv ->].
    fold r. unfold bind at 1. rewrite tryGetCoreIssueOverride_spec.
    change (code r) with c in Hov. rewrite Hov.
    unfold bind at 1. cbn [override_outcome]. rewrite Hrun. reflexivity. }
  split; [exact Hparse|]. intros o h ->.
  split.
  - intros Hsync. unfold safeParse.
    replace (hasAsyncValidators t) with false
      by (destruct t; try discriminate; simpl in *; rewrite Hsync; reflexivity).
    unfold getParseResult, bind. rewrite Hparse. reflexivity.
  - unfold safeParseAsync, getParseResult, bind. rewrite Hparse. reflexivity.
Qed.

Lemma core_override_exception_witness :
  safeParse Samples.toNumber throwing_override (VNum 1) [] [] = (Thrown (UserError "boom"), []).
Proof.
  edestruct (core_override_exception Samples.toNumber throwing_override (VNum 1)
               (new_state [] [])) as [_ Hentry];
    [reflexivity|reflexivity|reflexivity|reflexivity|reflexivity|reflexivity|reflexivity|].
  destruct (Hentry [] [] eq_refl) as [Hsync _].
  exact (Hsync eq_refl).
Defined.

(** * State invariants of the validation phases *)

Section Steps.

Context (R : State -> State -> Prop).
Hypothesis R_refl : forall st, R st st.
Hypothesis R_trans : forall a b c, R a b -> R b c -> R a c.

Lemma steps_ret {A} (a : A) : steps R (ret a).
Proof. intros st. apply R_refl. Qed.

Lemma steps_throw {A} e : steps R (@throw A e).
Proof. intros st. apply R_refl. Qed.

Lemma steps_lift {A} (o : Outcome A) : steps R (lift o).
Proof. intros st. apply R_refl. Qed.

Lemma steps_gets {A} (f : State -> A) : steps R (gets f).
Proof. intros st. apply R_refl. Qed.

Lemma steps_modify f : (forall st, R st (f st)) -> steps R (modify f).
Proof. intros Hf st. apply Hf. Qed.

Lemma steps_bind {A B} (m : M A) (f : A -> M B) :
  steps R m -> (forall a, steps R (f a)) -> steps R (bind m f).
Proof.
  intros Hm Hf st. unfold bind. specialize (Hm st).
  destruct (m st) as [[a|e] st1]; cbn [snd] in *; [|exact Hm].
  eapply R_trans; [exact Hm|apply Hf].
Qed.

Lemma steps_try_finally {A} (m : M A) cleanup :
  steps R m -> (forall st, R st (cleanup st)) -> steps R (try_finally m cleanup).
Proof.
  intros Hm Hc st. unfold try_finally. specialize (Hm st).
  destruct (m st) as [r st1]. cbn [snd] in *. eapply R_trans; [exact Hm|apply Hc].
Qed.

Lemma steps_try_catch {A} (m : M A) handler :
  steps R m -> (forall e, steps R (handler e)) -> steps R (try_catch m handler).
Proof.
  intros Hm Hh st. unfold try_catch. specialize (Hm st).
  destruct (m st) as [[a|e] st1]; cbn [snd] in *; [exact Hm|].
  eapply R_trans; [exact Hm|apply Hh].
Qed.

Lemma steps_for_each {X} (l : list X) (f : X -> M unit) :
  Forall (fun x => steps R (f x)) l -> steps R (for_each l f).
Proof.
  induction 1 as [|x rest Hx _ IH]; simpl; [apply steps_ret|].
  apply steps_bind; [exact Hx|]. intros _. exact IH.
Qed.

End Steps.

Lemma same_path_refl st : same_path st st.
Proof. reflexivity. Qed.

Lemma same_path_trans a b c : same_path a b -> same_path b c -> same_path a c.
Proof. unfold same_path. congruence. Qed.

Lemma same_inputs_refl st : same_inputs st st.
Proof. repeat split; reflexivity. Qed.

Lemma same_inputs_trans a b c : same_inputs a b -> same_inputs b c -> same_inputs a c.
Proof. unfold same_inputs. intros (? & ? & ?) (? & ? & ?). repeat split; congruence. Qed.

(** Whatever the callback does, [withChildPath] and [withProxy] hand the
    context back at the path they found it at. *)
Lemma withChildPath_same_path {A} key (callback : M A) :
  steps same_path (ParseContext.withChildPath key callback).
Proof.
  intros st. unfold ParseContext.withChildPath, bind, gets, try_finally. cbn [snd].
  destruct (ParseContext.setPath _ st) as [[[]|e] st1]; cbn.
  - destruct (callback st1) as [r st2]. reflexivity.
  - reflexivity.
Qed.

Lemma tryGetProxy_same_path v p : steps same_path (Proxy.tryGetProxy v p).
Proof.
  intros st. unfold Proxy.tryGetProxy, bind, lift, gets, modify, ret.
  destruct (isObject v) as [b|e]; cbn; [|reflexivity].
  destruct (negb b && negb (isArray v)); [reflexivity|].
  destruct (assoc (join p) (proxies st)); reflexivity.
Qed.

Lemma withProxy_same_path data callback :
  steps same_path (Proxy.withProxy data callback).
Proof.
  intros st. unfold Proxy.withProxy. unfold bind at 1, gets at 1.
  unfold bind at 1. unfold Proxy.getProxy.
  unfold bind at 1, modify at 1. unfold bind at 1, gets at 1.
  pose proof (tryGetProxy_same_path data (ParseContext.path (ctx (set_proxies [] st)))
                (set_proxies [] st)) as Hp.
  destruct (Proxy.tryGetProxy _ _ _) as [[proxy|e] st1]; cbn [snd] in *.
  - unfold try_finally. destruct (callback _ _ st1) as [r st2]. reflexivity.
  - exact Hp.
Qed.

Ltac steps_step refl trans :=
  lazymatch goal with
  | |- steps _ (ret _) => apply (steps_ret _ refl)
  | |- steps _ (throw _) => apply (steps_throw _ refl)
  | |- steps _ (lift _) => apply (steps_lift _ refl)
  | |- steps _ (gets _) => apply (steps_gets _ refl)
  | |- steps _ (bind _ _) => apply (steps_bind _ trans); [|intros ?]
  | |- steps _ (try_finally _ _) => apply (steps_try_finally _ trans)
  | |- steps _ (try_catch _ _) => apply (steps_try_catch _ trans); [|intros ?]
  | |- steps _ (for_each _ _) => apply (steps_for_each _ refl trans)
  | |- steps _ (if ?b then _ else _) => destruct b
  | |- steps _ (match ?x with _ => _ end) => destruct x
  end.

Lemma validateNode_same_path entries children value :
  steps same_path (validateNode entries children value).
Proof.
  unfold validateNode.
  repeat steps_step same_path_refl same_path_trans.
  - apply Forall_forall. intros kt _. apply withChildPath_same_path.
  - apply withProxy_same_path.
Qed.

Create HintDb frame discriminated.

Ltac si_step := steps_step same_inputs_refl same_inputs_trans.

Ltac si_modify :=
  lazymatch goal with
  | |- steps _ (modify _) =>
      apply steps_modify; intros ?; repeat split; reflexivity
  end.

Ltac si_auto := repeat first [si_step | si_modify | solve [auto with frame]].

Lemma setPath_same_inputs p : steps same_inputs (ParseContext.setPath p).
Proof. unfold ParseContext.setPath. si_modify. Qed.

Lemma addIssues_same_inputs l : steps same_inputs (ParseContext.addIssues l).
Proof. unfold ParseContext.addIssues. si_modify. Qed.

Lemma removeIssues_same_inputs l : steps same_inputs (ParseContext.removeIssues l).
Proof. unfold ParseContext.removeIssues. si_modify. Qed.

Lemma fresh_issue_same_inputs p c m : steps same_inputs (ParseContext.fresh_issue p c m).
Proof. intros st. repeat split; reflexivity. Qed.

#[local] Hint Resolve setPath_same_inputs addIssues_same_inputs removeIssues_same_inputs
  fresh_issue_same_inputs : frame.

Lemma issue_same_inputs args : steps same_inputs (ParseContext.issue args).
Proof.
  unfold ParseContext.issue. induction (conds args) as [|[|] rest IH]; simpl.
  - unfold ParseContext.issue_core. si_step; [si_step|].
    destruct (match first args with FIssue i => _ | _ => None end); si_auto.
  - exact IH.
  - si_step.
Qed.

#[local] Hint Resolve issue_same_inputs : frame.

Lemma issue_of_same_inputs t : steps same_inputs (ParseContext.issue_of t).
Proof. unfold ParseContext.issue_of. si_auto. Qed.

Lemma get_same_inputs key : steps same_inputs (ParseContext.get key).
Proof. unfold ParseContext.get. si_auto. Qed.

Lemma tryGetProxy_same_inputs v p : steps same_inputs (Proxy.tryGetProxy v p).
Proof. unfold Proxy.tryGetProxy. si_auto. Qed.

#[local] Hint Resolve issue_of_same_inputs get_same_inputs tryGetProxy_same_inputs : frame.

Lemma proxy_get_same_inputs pr prop : steps same_inputs (Proxy.get pr prop).
Proof. unfold Proxy.get. si_auto. Qed.

#[local] Hint Resolve proxy_get_same_inputs : frame.

Lemma iter_next_same_inputs v i : steps same_inputs (Proxy.iter_next v i).
Proof. unfold Proxy.iter_next. si_auto. Qed.

Lemma read_same_inputs v prop : steps same_inputs (Proxy.read v prop).
Proof. unfold Proxy.read. si_auto. Qed.

Lemma tracking_issue_same_inputs args : steps same_inputs (IssueTrackingContext.issue args).
Proof.
  unfold IssueTrackingContext.issue. si_step; [apply issue_same_inputs|].
  si_step; [|si_step]. apply steps_modify. intros st.
  destruct (existsb _ _); repeat split; reflexivity.
Qed.

#[local] Hint Resolve iter_next_same_inputs read_same_inputs tracking_issue_same_inputs
  : frame.

Lemma run_same_inputs {R} tracking (c : Cb R) : steps same_inputs (run tracking c).
Proof.
  induction c as [r|x|k IH|k IH|args k IH|v k IH|k IH|key k IH|v prop k IH|v i k IH|p c m k IH];
    simpl; si_auto.
Qed.

#[local] Hint Resolve run_same_inputs : frame.

Lemma overrideIssues_same_inputs value l ov p :
  steps same_inputs (overrideIssues value l ov p).
Proof. unfold overrideIssues. si_auto. Qed.

#[local] Hint Resolve overrideIssues_same_inputs : frame.

Lemma run_refinement_same_inputs value resetPath p entry :
  steps same_inputs resetPath ->
  steps same_inputs (run_refinement value resetPath p entry).
Proof. intros Hr. unfold run_refinement, refinement_body. si_auto. Qed.

Lemma withChildPath_same_inputs {A} key (m : M A) :
  steps same_inputs m -> steps same_inputs (ParseContext.withChildPath key m).
Proof.
  intros Hm. unfold ParseContext.withChildPath. si_auto.
  all: try (intros st; repeat split; reflexivity).
Qed.

Lemma withProxy_same_inputs data callback :
  (forall v r, steps same_inputs r -> steps same_inputs (callback v r)) ->
  steps same_inputs (Proxy.withProxy data callback).
Proof.
  intros Hc. unfold Proxy.withProxy, Proxy.getProxy. si_auto.
  all: try (intros st; repeat split; reflexivity).
Qed.

Lemma validateNode_same_inputs entries children value :
  (forall h v, Forall (fun kt => forall x, steps same_inputs (snd kt x)) (children h v)) ->
  steps same_inputs (validateNode entries (children : Heap -> Value -> _) value).
Proof.
  intros Hc. unfold validateNode. si_auto.
  - eapply Forall_impl; [apply Hc|]. intros kt Hkt. cbv beta in Hkt.
    apply withChildPath_same_inputs. si_auto.
  - apply withProxy_same_inputs. intros v r Hr. si_auto.
    apply Forall_forall. intros entry _.
    apply run_refinement_same_inputs, Hr.
Qed.

Lemma validatePhase_same_inputs async t :
  forall value, steps same_inputs (validatePhase async t value).
Proof.
  induction t as [| | | | | |a vt IH|a props IH|a it co IH|a types IH] using BaseType_tree_ind;
    intros value; simpl; apply validateNode_same_inputs; intros h v; try constructor.
  - unfold recordChildKeys. apply Forall_map. apply Forall_forall. intros k _ x. apply IH.
  - unfold objectChildKeys. apply Forall_map, Forall_map.
    eapply Forall_impl; [exact IH|]. auto.
  - unfold arrayChildKeys. destruct v; try constructor.
    destruct (h !! a0) as [[|items]|]; try constructor.
    apply Forall_forall. intros kt Hin.
    apply list_elem_of_omap in Hin as ([i [x|]] & _ & Hx); [|discriminate].
    injection Hx as <-. intros y. apply IH.
Qed.

(** X5.  Validation restores the path.  Whatever the refinements of a
    schema do (read the value through the tracked view, raise issues, throw),
    and in the synchronous as in the asynchronous phase, the context path
    after [validate] is the path before it, and the recorded inputs and the
    parse options are untouched. *)
Theorem validate_frame async t value st :
  let st' := snd (validatePhase async t value st) in
  _path (ctx st') = _path (ctx st) /\
  inputs (ctx st') = inputs (ctx st) /\
  options (ctx st') = options (ctx st).
Proof.
  intros st'. split.
  - unfold st'. rewrite validatePhase_unfold. apply validateNode_same_path.
  - apply validatePhase_same_inputs.
Qed.

Lemma steps_weaken (R R' : State -> State -> Prop) {A} (m : M A) :
  (forall a b, R a b -> R' a b) -> steps R m -> steps R' m.
Proof. intros HR Hm st. apply HR, Hm. Qed.

(** * Union resolution by discriminant *)

Lemma find_filter_first {A} (f g : A -> bool) before x after :
  Forall (fun y => g y && f y = false) before ->
  g x = true -> f x = true ->
  List.find f (List.filter g (before ++ x :: after)) = Some x.
Proof.
  intros Hb Hg Hf. induction Hb as [|y before Hy _ IH]; simpl.
  - rewrite Hg. simpl. rewrite Hf. reflexivity.
  - destruct (g y) eqn:Eg; [|exact IH]. simpl in *. rewrite Hy. exact IH.
Qed.

Lemma getDiscriminatedMatch_found js_Number before m after (obj : addr) st :
  getLiteralKeys m <> [] ->
  discriminants_match (heap st) (VObj obj) m = true ->
  Forall (fun t => getLiteralKeys t = [] \/
                   discriminants_match (heap st) (VObj obj) t = false) before ->
  getDiscriminatedMatch
    (List.filter (fun m => negb (Nat.eqb (List.length (getLiteralKeys (m_type m))) 0))
       (List.map (as_member js_Number) (before ++ m :: after)))
    (VObj obj) st = (Ok (Some (as_member js_Number m)), st).
Proof.
  intros Hkeys Hmatch Hbefore.
  unfold getDiscriminatedMatch, bind, lift, gets, ret. cbn [isObject negb].
  rewrite List.map_app. cbn [List.map].
  rewrite (find_filter_first _ _ (List.map (as_member js_Number) before)
             (as_member js_Number m) (List.map (as_member js_Number) after));
    [reflexivity| | |].
  - apply Forall_map. eapply Forall_impl; [exact Hbefore|]. intros t Ht.
    cbn [m_type as_member]. destruct Ht as [Ht|Ht].
    + rewrite Ht. reflexivity.
    + unfold discriminants_match in Ht. rewrite Ht.
      rewrite andb_false_r. apply andb_false_r.
  - cbn [m_type as_member]. destruct (getLiteralKeys m); [contradiction|reflexivity].
  - cbn [m_type as_member]. unfold discriminants_match in Hmatch. rewrite Hmatch.
    destruct (getLiteralKeys m); [contradiction|reflexivity].
Qed.

(** X6.  Discriminated unions.  For an object input, the first member, in
    declaration order, that has literal keys and whose literal properties
    all equal the input's is the member the union parses with: the input is
    parsed once on a clone of the context, as for every resolution, and then
    by that member on the context itself, whether or not it fits the
    member's other properties. *)
Theorem union_discriminated_match js_Number a before m after (obj : addr) st :
  let types := before ++ m :: after in
  let input := VObj obj in
  getLiteralKeys m <> [] ->
  discriminants_match (heap st) input m = true ->
  Forall (fun t => getLiteralKeys t = [] \/ discriminants_match (heap st) input t = false)
         before ->
  parseInput js_Number (UnionType a types) input st =
    (on_clone (parseInput js_Number m input) ;;;
     parseBody js_Number a m (childParsers js_Number m) input) st.
Proof.
  intros types input Hkeys Hmatch Hbefore. subst types input.
  change (parseInput js_Number (UnionType a (before ++ m :: after)) (VObj obj))
    with (parseUnion js_Number a
            (List.map (as_member js_Number) (before ++ m :: after)) (VObj obj)).
  unfold parseUnion, getShadowedType.
  unfold bind at 1. unfold bind at 1.
  rewrite (getDiscriminatedMatch_found js_Number before m after obj st Hkeys Hmatch Hbefore).
  unfold bind, ret, gets. cbn [try_types]. unfold bind, gets.
  cbn [m_parse as_member].
  destruct (on_clone (parseInput js_Number m (VObj obj)) st) as [[[v c]|e] st1];
    [|reflexivity].
  cbn [snd]. destruct (Nat.eqb _ _); reflexivity.
Qed.

Lemma union_discriminated_match_witness :
  let st := new_state [HObject [("type", VStr "number"); ("numericValue", VNum 7)]] [] in
  parseInput Samples.toNumber Samples.tagged (VObj 0%nat) st =
    (on_clone (parseInput Samples.toNumber Samples.number_member (VObj 0%nat)) ;;;
     parseBody Samples.toNumber new_attrs Samples.number_member
               (childParsers Samples.toNumber Samples.number_member) (VObj 0%nat)) st.
Proof.
  intros st.
  apply (union_discriminated_match Samples.toNumber new_attrs [Samples.string_member]
           Samples.number_member [] 0%nat st).
  - discriminate.
  - reflexivity.
  - constructor; [right; reflexivity|constructor].
Defined.

(** * Decimal renderings and [parseInt] *)

Lemma digit_val_char (d : N) :
  (d < 10)%N -> digit_val 10 (pretty_N_char d) = Some (Z.of_N d).
Proof.
  intros Hd.
  assert (d = 0 \/ d = 1 \/ d = 2 \/ d = 3 \/ d = 4 \/ d = 5 \/ d = 6 \/ d = 7 \/ d = 8
          \/ d = 9)%N as H by lia.
  repeat (destruct H as [->|H]; [reflexivity|]). subst d. reflexivity.
Qed.

Lemma read_digits_pretty (x : N) :
  (0 < x)%N ->
  exists k, forall s acc,
    read_digits 10 (pretty_N_go x s) acc =
    read_digits 10 s (Some (default 0 acc * k + Z.of_N x)).
Proof.
  induction (N.lt_wf_0 x) as [x _ IH]. intros Hx.
  assert (Hmod : (x `mod` 10 < 10)%N) by (apply N.mod_lt; lia).
  destruct (decide (x `div` 10 = 0)%N) as [Hz|Hnz].
  - exists 10. intros s acc. rewrite pretty_N_go_step by exact Hx.
    rewrite Hz, pretty_N_go_0. cbn [read_digits].
    rewrite digit_val_char by exact Hmod. f_equal. f_equal.
    pose proof (N.Div0.div_mod x 10) as Hdm. rewrite Hz in Hdm.
    clear IH. generalize (default 0 acc). intros a.
    generalize dependent (x `mod` 10)%N. intros. subst x. lia.
  - destruct (IH (x `div` 10)%N) as [k Hk].
    + apply N.div_lt; lia.
    + apply N.neq_0_lt_0. exact Hnz.
    + exists (10 * k). intros s acc. rewrite pretty_N_go_step by exact Hx.
      rewrite Hk. cbn [read_digits]. rewrite digit_val_char by exact Hmod.
      cbn [default]. f_equal. f_equal.
      pose proof (N.Div0.div_mod x 10) as Hdm.
      clear IH Hk. generalize (default 0 acc). intros a.
      generalize dependent (x `mod` 10)%N. generalize dependent (x `div` 10)%N.
      intros. subst x. unfold id. lia.
Qed.

Lemma all_digits_pretty (x : N) s :
  all_digits s = true -> all_digits (pretty_N_go x s) = true.
Proof.
  revert s. induction (N.lt_wf_0 x) as [x _ IH]. intros s Hs.
  destruct (decide (0 < x)%N) as [Hx|Hx].
  - rewrite pretty_N_go_step by exact Hx. apply IH.
    + apply N.div_lt; lia.
    + cbn [all_digits]. rewrite Hs, andb_true_r. unfold is_digit.
      rewrite digit_val_char; [reflexivity|]. apply N.mod_lt. lia.
  - assert (x = 0%N) as -> by lia. rewrite pretty_N_go_0. exact Hs.
Qed.

Lemma pretty_N_go_nonempty (x : N) s : (0 < x)%N -> pretty_N_go x s <> "".
Proof.
  revert s. induction (N.lt_wf_0 x) as [x _ IH]. intros s Hx.
  rewrite pretty_N_go_step by exact Hx.
  destruct (decide (0 < x `div` 10)%N) as [Hd|Hd].
  - apply IH; [apply N.div_lt; lia|exact Hd].
  - assert (x `div` 10 = 0)%N as ->
      by (destruct (x `div` 10)%N; [reflexivity|exfalso; apply Hd; reflexivity]).
    rewrite pretty_N_go_0. discriminate.
Qed.

Lemma digit_not_ws c : is_digit c = true -> is_ws c = false.
Proof.
  unfold is_digit, digit_val, is_ws.
  destruct c as [[] [] [] [] [] [] [] []]; vm_compute; congruence.
Qed.

(** On a non-empty string of decimal digits [parseInt] only reads digits. *)
Lemma parseInt_digits s :
  all_digits s = true -> s <> "" -> parseInt s = read_digits 10 s None.
Proof.
  intros Hs Hne. destruct s as [|c r]; [contradiction|].
  cbn [all_digits] in Hs. apply andb_true_iff in Hs as [Hc Hr].
  unfold parseInt. cbn [trimStart]. rewrite (digit_not_ws c Hc).
  assert (Hsign : c <> "-"%char /\ c <> "+"%char).
  { split; intros ->; discriminate. }
  destruct Hsign as [Hm Hp].
  assert (Hx : forall r', r = String "x" r' \/ r = String "X" r' -> False).
  { intros r' [->| ->]; cbn [all_digits] in Hr; discriminate. }
  destruct c as [[] [] [] [] [] [] [] []]; try discriminate; try contradiction;
    try (destruct (read_digits 10 _ None); cbn; f_equal; lia).
  all: destruct r as [|c' r']; [cbn; reflexivity|].
  all: destruct c' as [[] [] [] [] [] [] [] []];
    try (exfalso; eapply Hx; eauto; fail);
    try (match goal with |- context [read_digits 10 ?s None] =>
           destruct (read_digits 10 s None) end; cbn; f_equal; lia).
Qed.

Lemma parseInt_negative s :
  all_digits s = true -> s <> "" ->
  parseInt (String "-" s) = Z.opp <$> read_digits 10 s None.
Proof.
  intros Hs Hne. destruct s as [|c r]; [contradiction|].
  cbn [all_digits] in Hs. apply andb_true_iff in Hs as [Hc Hr].
  unfold parseInt. cbn [trimStart is_ws nat_of_ascii]. 
  change (is_ws "-") with false. cbv iota.
  assert (Hx : forall r', r = String "x" r' \/ r = String "X" r' -> False).
  { intros r' [->| ->]; cbn [all_digits] in Hr; discriminate. }
  destruct c as [[] [] [] [] [] [] [] []]; try discriminate;
    try (destruct (read_digits 10 _ None); cbn; f_equal; lia).
  all: destruct r as [|c' r']; [cbn; reflexivity|].
  all: destruct c' as [[] [] [] [] [] [] [] []];
    try (exfalso; eapply Hx; eauto; fail);
    try (match goal with |- context [read_digits 10 ?s None] =>
           destruct (read_digits 10 s None) end; cbn; f_equal; lia).
Qed.

Lemma pretty_positive_digits (p : positive) :
  let s := pretty_N_go (Npos p) "" in
  all_digits s = true /\ s <> "" /\ read_digits 10 s None = Some (Zpos p).
Proof.
  intros s. split; [apply all_digits_pretty; reflexivity|].
  split; [apply pretty_N_go_nonempty; reflexivity|].
  destruct (read_digits_pretty (Npos p)) as [k Hk]; [reflexivity|].
  unfold s. rewrite Hk. reflexivity.
Qed.

Lemma parseInt_pretty (n : Z) : parseInt (pretty n) = Some n.
Proof.
  destruct n as [|p|p].
  - reflexivity.
  - destruct (pretty_positive_digits p) as (Hd & Hne & Hr).
    change (pretty (Zpos p)) with (pretty_N_go (Npos p) "").
    rewrite parseInt_digits by assumption. exact Hr.
  - destruct (pretty_positive_digits p) as (Hd & Hne & Hr).
    change (pretty (Zneg p)) with (String "-" (pretty_N_go (Npos p) "")).
    rewrite parseInt_negative by assumption. rewrite Hr. reflexivity.
Qed.

Lemma as_index_pretty (n : Z) : 0 <= n -> as_index (pretty n) = Some (Z.to_nat n).
Proof.
  intros Hn. unfold as_index. rewrite parseInt_pretty.
  rewrite String.eqb_refl. replace (0 <=? n) with true by (symmetry; apply Z.leb_le, Hn).
  reflexivity.
Qed.

Lemma keyOrIndex_number (n : Z) : Proxy.keyOrIndex (pretty n) = KNum n.
Proof. unfold Proxy.keyOrIndex. rewrite parseInt_pretty. reflexivity. Qed.

(** * Arrays behind the path-tracking view *)

Lemma pretty_index_digits (i : nat) :
  all_digits (pretty (Z.of_nat i)) = true /\ pretty (Z.of_nat i) <> "".
Proof.
  destruct (Z.of_nat i) as [|p|p] eqn:E; [split; [reflexivity|discriminate]| |lia].
  destruct (pretty_positive_digits p) as (Hd & Hne & _). split; assumption.
Qed.

Lemma digits_not_word s c r :
  all_digits s = true -> is_digit c = false -> String.eqb s (String c r) = false.
Proof.
  intros Hs Hc. apply String.eqb_neq. intros ->.
  cbn [all_digits] in Hs. rewrite Hc in Hs. discriminate.
Qed.

Lemma get_prop_index h (a : addr) items (i : nat) :
  h !! a = Some (HArray items) ->
  get_prop h (VArr a) (pretty (Z.of_nat i)) = Ok (default VUndefined (mjoin (items !! i))).
Proof.
  intros Ha. unfold get_prop. rewrite Ha.
  destruct (pretty_index_digits i) as [Hd _].
  rewrite (digits_not_word _ "l" "ength" Hd) by reflexivity.
  rewrite as_index_pretty by lia. rewrite Nat2Z.id. reflexivity.
Qed.

(** X7.  Arrays behind the tracked view.  Reading [length] leaves the
    context path at the array itself.  Iterating reads the items by index:
    step [i] inside the array sets the path to the array's path followed by
    the number [i], and yields the item, which must not be [null]: the item
    itself when it is a scalar, its tracked view otherwise.  Past the end
    the iterator is done and the state is untouched. *)
Theorem proxy_array_access pr (a : addr) items st :
  target pr = VArr a -> heap st !! a = Some (HArray items) ->
  (* [data.length] *)
  Proxy.get pr "length" st =
    (Ok (Raw (VNum (Z.of_nat (List.length items)))), at_path (proxy_path pr) st) /\
  (* the iterator, inside the array *)
  (forall i,
     (i < List.length items)%nat ->
     default VUndefined (mjoin (items !! i)) <> VNull ->
     exists pv cache,
       Proxy.iter_next (Proxied pr) i st =
         (Ok (Some pv),
          set_proxies cache (at_path (proxy_path pr ++ [KNum (Z.of_nat i)]) st)) /\
       (is_container (default VUndefined (mjoin (items !! i))) = false ->
        pv = Raw (default VUndefined (mjoin (items !! i))) /\ cache = proxies st)) /\
  (* and at its end *)
  (forall i, (List.length items <= i)%nat ->
     Proxy.iter_next (Proxied pr) i st = (Ok None, st)).
Proof.
  intros Ht Ha. split; [|split].
  - unfold Proxy.get, bind, gets, lift. rewrite Ht. cbn [get_prop]. rewrite Ha.
    cbn [String.eqb Ascii.eqb Bool.eqb isArray andb]. 
    unfold ParseContext.setPath, modify. cbn [fst snd].
    unfold Proxy.tryGetProxy, bind, lift. cbn [isObject negb isArray andb]. reflexivity.
  - intros i Hi Hx.
    set (x := default VUndefined (mjoin (items !! i))) in *.
    destruct (pretty_index_digits i) as [Hd _].
    unfold Proxy.iter_next. unfold bind at 1, gets at 1.
    unfold Proxy.array_length. rewrite Ht, Ha.
    destruct (decide (i < List.length items)%nat) as [_|]; [|lia].
    unfold bind at 1.
    rewrite (proxy_get_child pr (pretty (Z.of_nat i)) x st).
    + rewrite keyOrIndex_number.
      set (p := proxy_path pr ++ [KNum (Z.of_nat i)]).
      destruct (tryGetProxy_frame x p (at_path p st) Hx) as (pv & cache & Hrun).
      exists pv, cache. rewrite Hrun. split; [reflexivity|].
      intros Hc. unfold Proxy.tryGetProxy, bind, lift, ret in Hrun.
      destruct x; try discriminate; try contradiction; cbn in Hrun;
        injection Hrun as <- Hst; (split; [reflexivity|]); cbn in Hst; congruence.
    + rewrite Ht. apply get_prop_index, Ha.
    + apply (digits_not_word _ "v" "alues" Hd). reflexivity.
    + apply (digits_not_word _ "l" "ength" Hd). reflexivity.
  - intros i Hi. unfold Proxy.iter_next, bind, gets. unfold Proxy.array_length.
    rewrite Ht, Ha. destruct (decide (i < List.length items)%nat); [lia|]. reflexivity.
Qed.

Lemma proxy_array_access_witness :
  let pr := {| target := VArr 0%nat; proxy_path := [KStr "tags"] |} in
  let st := new_state [HArray [Some (VStr "a"); Some (VStr "b")]] [] in
  Proxy.get pr "length" st = (Ok (Raw (VNum 2)), at_path [KStr "tags"] st) /\
  Proxy.iter_next (Proxied pr) 2 st = (Ok None, st).
Proof.
  intros pr st.
  destruct (proxy_array_access pr 0%nat [Some (VStr "a"); Some (VStr "b")] st)
    as (Hlen & _ & Hend); [reflexivity|reflexivity|].
  split; [exact Hlen|]. apply Hend. cbn. lia.
Defined.

(** * Looking up the schema node at a path *)

Lemma find_objectChildKeys (props : list (string * BaseType)) k :
  List.find (fun c => key_eqb (fst c) (KStr k)) (objectChildKeys props) =
  (fun c => (KStr k, c)) <$> assoc k props.
Proof.
  unfold assoc, objectChildKeys. induction props as [|[k' c] rest IH]; [reflexivity|].
  cbn [List.map List.find fst snd]. unfold key_eqb at 1.
  destruct (String.eqb k' k) eqn:E.
  - apply String.eqb_eq in E. subst k'. rewrite bool_decide_eq_true_2 by reflexivity.
    reflexivity.
  - apply String.eqb_neq in E. rewrite bool_decide_eq_false_2 by congruence. exact IH.
Qed.

Lemma find_objectChildKeys_number (props : list (string * BaseType)) n :
  List.find (fun c => key_eqb (fst c) (KNum n)) (objectChildKeys props) = None.
Proof.
  unfold objectChildKeys. induction props as [|[k' c] rest IH]; [reflexivity|].
  cbn [List.map List.find fst snd]. unfold key_eqb at 1.
  rewrite bool_decide_eq_false_2 by discriminate. exact IH.
Qed.

Lemma omap_imap_holes {X} (it : X) (i : nat) (v : Value) :
  omap (fun ix : nat * option Value =>
          match snd ix with
          | Some _ => Some (KNum (Z.of_nat (fst ix)), it)
          | None => None
          end)
       (imap (fun j x => (j, x)) (replicate i None ++ [Some v])) =
  [(KNum (Z.of_nat i), it)].
Proof.
  rewrite imap_app, omap_app.
  match goal with |- ?l ++ _ = _ => assert (Hnil : l = []) end.
  { match goal with |- ?l = [] => destruct l as [|c r] eqn:E end; [reflexivity|].
    exfalso.
    assert (Hin : c ∈ c :: r) by left. rewrite <- E in Hin.
    apply list_elem_of_omap in Hin as (x & Hx & HF).
    apply elem_of_lookup_imap in Hx as (j & y & -> & Hy).
    apply lookup_replicate in Hy as [-> _]. discriminate. }
  rewrite Hnil, length_replicate. cbn. rewrite Nat.add_0_r. reflexivity.
Qed.

Lemma array_default_assign {X} (it : X) (n : Z) :
  0 <= n ->
  arrayChildKeys it (set_prop [HArray []] (VArr 0%nat) (pretty n) VUndefined) (VArr 0%nat) =
    [(KNum n, it)].
Proof.
  intros Hn. unfold set_prop.
  replace ([HArray []] !! 0%nat) with (Some (HArray [])) by reflexivity.
  rewrite as_index_pretty by exact Hn.
  unfold items_set. destruct (decide _) as [Hlt|_]; [cbn in Hlt; lia|].
  replace (Z.to_nat n - List.length (@nil (option Value)))%nat with (Z.to_nat n)
    by (cbn; lia).
  unfold arrayChildKeys.
  replace (<[0%nat := HArray ([] ++ replicate (Z.to_nat n) None ++ [Some VUndefined])]>
             [HArray []] !! 0%nat)
    with (Some (HArray (replicate (Z.to_nat n) None ++ [Some VUndefined])))
    by reflexivity.
  rewrite omap_imap_holes. rewrite Z2Nat.id by exact Hn. reflexivity.
Qed.

Lemma arrayChildKeys_numbers {X} (it : X) h v :
  Forall (fun c => exists n, fst c = KNum n) (arrayChildKeys it h v).
Proof.
  unfold arrayChildKeys. destruct v; try constructor.
  destruct (h !! a) as [[|items]|]; try constructor.
  apply Forall_forall. intros c Hin.
  apply list_elem_of_omap in Hin as ([i [x|]] & _ & Hx); [|discriminate].
  injection Hx as <-. eauto.
Qed.

Lemma alloc_object fields h :
  exists a h', alloc (DObject fields) h = (VObj a, h').
Proof.
  cbn [alloc].
  match goal with |- context [let '(_, _) := ?g in _] => destruct g as [fs h1] end.
  cbn. eauto.
Qed.

Lemma default_object a props d :
  defaultValue (ObjectType a props) = Ok d -> exists fields, d = DObject fields.
Proof.
  cbn [defaultValue].
  match goal with |- match ?g with _ => _ end = _ -> _ => destruct g as [fs|e] end;
    [|discriminate].
  intros [= <-]. eauto.
Qed.

(** X8.  [getPathType], one key at a time.  The empty path gives the type
    itself.  Below an object, a string key gives the type of the property of
    that name and nothing for an unknown name; a number key gives nothing.
    Below an array, every number that is an array index (from [0] to
    [2^32 - 2]) gives the item type; any other number and every string key,
    ["0"] included, give nothing.  Records, unions and scalars have nothing
    below them.  The object, record and union cases are those of a node
    whose default value can be computed. *)
Theorem getPathType_steps :
  (forall t, getPathType t [] = Ok (Some t)) /\
  (* an object: the property named by a string key *)
  (forall a props d key rest,
     defaultValue (ObjectType a props) = Ok d ->
     getPathType (ObjectType a props) (key :: rest) =
       match key with
       | KStr k =>
           match assoc k props with
           | Some c => getPathType c rest
           | None => Ok None
           end
       | KNum _ => Ok None
       end) /\
  (* an array: the item type at every index, nothing at any other key *)
  (forall a it co key rest,
     getPathType (ArrayType a it co) (key :: rest) =
       match key with
       | KNum n => if (0 <=? n) && (n <? 4294967295) then getPathType it rest else Ok None
       | KStr _ => Ok None
       end) /\
  (* nothing below a record, a union or a scalar *)
  (forall t d key rest,
     defaultValue t = Ok d ->
     match t with ObjectType _ _ | ArrayType _ _ _ => False | _ => True end ->
     getPathType t (key :: rest) = Ok None).
Proof.
  split; [reflexivity|]. split; [|split].
  - intros a props d key rest Hd. cbn [getPathType]. rewrite Hd.
    destruct (default_object a props d Hd) as [fields ->].
    destruct (alloc_object fields []) as (addr_ & h' & Ealloc). rewrite Ealloc.
    cbn [fst snd isArray andb getChildKeys].
    destruct key as [k|n].
    + rewrite find_objectChildKeys. destruct (assoc k props); reflexivity.
    + rewrite find_objectChildKeys_number. reflexivity.
  - intros a it co key rest. cbn [getPathType defaultValue].
    change (alloc (DArray []) []) with (VArr 0%nat, [HArray []]).
    cbn [fst snd isArray andb getChildKeys].
    destruct key as [k|n].
    + match goal with |- match List.find ?f ?l with _ => _ end = _ =>
        assert (Hnone : List.find f l = None) end.
      { apply find_none. eapply Forall_impl; [apply arrayChildKeys_numbers|].
        intros c [n Hn]. cbv beta. unfold key_eqb. rewrite Hn.
        apply bool_decide_eq_false_2. discriminate. }
      rewrite Hnone. reflexivity.
    + cbn [key_to_string]. unfold is_array_index.
      destruct (0 <=? n) eqn:Hpos.
      * apply Z.leb_le in Hpos. rewrite as_index_pretty by exact Hpos.
        rewrite Z2Nat.id by exact Hpos. cbn [andb].
        destruct (n <? 4294967295); [|reflexivity].
        rewrite array_default_assign by exact Hpos.
        cbn [List.find fst snd]. unfold key_eqb.
        rewrite bool_decide_eq_true_2 by reflexivity. reflexivity.
      * unfold as_index. rewrite parseInt_pretty, Hpos. cbn [andb]. reflexivity.
  - intros t d key rest Hd Hshape. cbn [getPathType]. rewrite Hd.
    destruct t; try contradiction; reflexivity || idtac.
    all: cbn [getChildKeys].
    + unfold recordChildKeys. cbn in Hd. injection Hd as <-. reflexivity.
Qed.

(** X9.  [getPathType] composes along the path: looking up [p ++ q] is
    looking up [p] and then [q] from the type found there; when [p] leads
    nowhere, or a default value on the way cannot be computed, so does
    [p ++ q]. *)
Theorem getPathType_app t p q :
  getPathType t (p ++ q) =
    match getPathType t p with
    | Ok (Some t') => getPathType t' q
    | Ok None => Ok None
    | Thrown e => Thrown e
    end.
Proof.
  revert t. induction p as [|key rest IH]; intros t; [reflexivity|].
  cbn [app getPathType]. destruct (defaultValue t) as [d|e]; [|reflexivity].
  destruct (List.find _ _) as [c|]; [apply IH|reflexivity].
Qed.

(** The repository's example: [getPathType(Customer, ["addresses", 0, "street"])]. *)
Example getPathType_street :
  let Address := pukka.object [("street", Samples.plain_string)] no_overrides in
  let Customer :=
    pukka.object [("name", Samples.plain_string);
                  ("addresses", pukka.array Address None no_overrides)] no_overrides in
  getPathType Customer [KStr "addresses"; KNum 0; KStr "street"] = Ok (Some Samples.plain_string) /\
  getPathType Customer [KStr "addresses"; KStr "0"; KStr "street"] = Ok None.
Proof. split; vm_compute; reflexivity. Qed.

(** * The parsed value of a container is a copy *)

Lemma bind_ok {A B} (m : M A) (f : A -> M B) st b st' :
  bind m f st = (Ok b, st') ->
  exists a st1, m st = (Ok a, st1) /\ f a st1 = (Ok b, st').
Proof.
  unfold bind. destruct (m st) as [[a|e] st1]; [eauto|discriminate].
Qed.

Lemma fold_delete_length (a : addr) keys (h : Heap) :
  List.length (fold_left (fun h key => delete_prop h (VObj a) key) keys h) = List.length h.
Proof.
  revert h. induction keys as [|k rest IH]; intros h; [reflexivity|].
  cbn [fold_left]. rewrite IH. unfold delete_prop.
  destruct (h !! a) as [[fields|]|]; try reflexivity. apply length_insert.
Qed.

Lemma parseBody_checked js_Number this_ actual children input st st2 b v0 h3 v st' :
  isNullish input = false ->
  check actual input st = (Ok None, st) ->
  clean actual input (record_input input true actual st) = (Ok input, st2) ->
  isObject input = Ok b ->
  spread (heap st2) input = (v0, h3) ->
  parseBody js_Number this_ actual children input st = (Ok v, st') -> v = v0.
Proof.
  intros Hnull Hcheck Hclean Hobj Hspread.
  unfold parseBody. rewrite Hnull.
  unfold bind at 1. unfold bind at 1. rewrite Hcheck. unfold ret at 1. cbn [fst snd].
  unfold bind at 1.
  change (ParseContext.setInput input (bool_decide (None = None)) actual st)
    with (Ok tt, record_input input true actual st).
  cbv iota beta. rewrite Hnull. cbn [negb].
  unfold bind at 1. unfold bind at 1. rewrite Hclean. unfold ret at 1. cbn [fst snd negb].
  unfold bind at 1. rewrite Hobj. unfold lift at 1.
  unfold bind at 1. rewrite Hspread.
  unfold bind at 1. rewrite tryGetCoreIssueOverride_spec.
  change (core_override "" (overrides this_)) with (@None (ValidationResultOverride Value)).
  cbv iota beta. unfold bind at 1. unfold ret at 1. unfold bind at 1. unfold ret at 1.
  unfold bind at 1.
  match goal with |- (let (_, _) := ?g in _) = _ -> _ => destruct g as [[[]|e] s'] end;
    [|discriminate].
  unfold ret. intros [= <- _]. reflexivity.
Qed.

(** X10.  The parsed value of a container is a copy.  When [parseInput]
    returns on an object or record type given an object, or on an array type
    given an array, the result is an object (array) allocated by the call,
    different from the input. *)
Theorem container_parse_copies js_Number t input st v st' :
  match t, input with
  | ObjectType _ _, VObj a | RecordType _ _, VObj a =>
      exists fields, heap st !! a = Some (HObject fields)
  | ArrayType _ _ _, VArr a => exists items, heap st !! a = Some (HArray items)
  | _, _ => False
  end ->
  parseInput js_Number t input st = (Ok v, st') ->
  v = (match input with VObj _ => VObj | _ => VArr end) (List.length (heap st)) /\
  v <> input.
Proof.
  intros Hshape Hparse.
  assert (Hv : v = (match input with VObj _ => VObj | _ => VArr end)
                     (List.length (heap st))).
  { destruct t as [| | | | | |a vt|a props|a it co|]; try contradiction;
      destruct input as [| | | | | |obj|arr]; try contradiction.
    - destruct Hshape as [fields Ha].
      eapply (parseBody_checked js_Number a (RecordType a vt) _ (VObj obj) st
                (record_input (VObj obj) true (RecordType a vt) st) true);
        [reflexivity|reflexivity|reflexivity|reflexivity| |exact Hparse].
      unfold spread. change (heap (record_input _ _ _ st)) with (heap st).
      rewrite Ha. reflexivity.
    - destruct Hshape as [fields Ha].
      set (recorded := record_input (VObj obj) true (ObjectType a props) st).
      set (h2 := fold_left (fun h key => delete_prop h (VObj obj) key)
                   (List.filter
                      (fun key => negb (has_property props key))
                      (object_keys (heap recorded) (VObj obj)))
                   (heap recorded)).
      eapply (parseBody_checked js_Number a (ObjectType a props) _ (VObj obj) st
                (set_heap h2 recorded) true);
        [reflexivity|reflexivity|reflexivity|reflexivity| |exact Hparse].
      unfold spread. cbn [heap set_heap]. unfold h2.
      change (heap recorded) with (heap st).
      rewrite (fold_delete_lookup obj _ (heap st) fields Ha).
      unfold heap_alloc. rewrite fold_delete_length. reflexivity.
    - destruct Hshape as [items Ha].
      eapply (parseBody_checked js_Number a (ArrayType a it co) _ (VArr arr) st
                (record_input (VArr arr) true (ArrayType a it co) st) false);
        [reflexivity|reflexivity|reflexivity|reflexivity| |exact Hparse].
      unfold spread. change (heap (record_input _ _ _ st)) with (heap st).
      rewrite Ha. reflexivity. }
  split; [exact Hv|]. subst v.
  destruct t as [| | | | | |a vt|a props|a it co|]; try contradiction;
    destruct input as [| | | | | |obj|arr]; try contradiction;
    destruct Hshape as [x Ha]; apply lookup_lt_Some in Ha; intros [= Heq]; lia.
Qed.

Lemma container_parse_copies_witness :
  exists st',
    parseInput Samples.toNumber Samples.Person (VObj 0%nat)
      (new_state [HObject [("name", VStr "a")]] []) = (Ok (VObj 1%nat), st').
Proof.
  destruct (parseInput Samples.toNumber Samples.Person (VObj 0%nat)
              (new_state [HObject [("name", VStr "a")]] [])) as [[v|e] st'] eqn:E;
    [|vm_compute in E; discriminate].
  destruct (container_parse_copies Samples.toNumber Samples.Person (VObj 0%nat)
              (new_state [HObject [("name", VStr "a")]] []) v st') as [Hv _];
    [eexists; reflexivity|exact E|].
  exists st'. rewrite Hv. reflexivity.
Defined.

(** * Objects of scalars *)

Lemma same_heap_refl st : same_heap st st.
Proof. reflexivity. Qed.

Lemma same_heap_trans a b c : same_heap a b -> same_heap b c -> same_heap a c.
Proof. unfold same_heap. congruence. Qed.

Lemma same_inputs_heap a b : same_inputs a b -> same_heap a b.
Proof. intros [H _]. exact H. Qed.

Lemma steps_bind_post (R : State -> State -> Prop) {A B} (P : A -> Prop)
    (m : M A) (f : A -> M B) :
  (forall a b c, R a b -> R b c -> R a c) ->
  steps R m -> returns P m -> (forall a, P a -> steps R (f a)) -> steps R (bind m f).
Proof.
  intros Htrans Hm Hp Hf st. unfold bind. specialize (Hm st).
  destruct (m st) as [[a|e] st1] eqn:E; cbn [snd] in *; [|exact Hm].
  eapply Htrans; [exact Hm|]. apply Hf. eapply Hp. exact E.
Qed.

Ltac sh_step := steps_step same_heap_refl same_heap_trans.

Ltac sh_frame lemma := apply (steps_weaken _ _ _ same_inputs_heap), lemma.

Lemma check_same_inputs t input : steps same_inputs (check t input).
Proof.
  destruct t; simpl; unfold invalid;
    repeat first [si_step | solve [auto with frame] | apply issue_of_same_inputs].
Qed.

Lemma tryGetCoreIssueOverride_same_inputs input c ovs :
  steps same_inputs (tryGetCoreIssueOverride input c ovs).
Proof.
  unfold tryGetCoreIssueOverride, apply_core_override.
  repeat first [si_step | solve [auto with frame] | apply issue_same_inputs
               | apply run_same_inputs].
Qed.

(** The value a scalar node goes on with is a primitive, or nothing. *)
Lemma returns_any {A} (m : M A) : returns (fun _ => True) m.
Proof. intros st a st' _. exact I. Qed.

Lemma returns_check_primitive t input :
  is_leaf t = true -> isNullish input = false ->
  returns (fun res => res = None -> is_primitive input = true) (check t input).
Proof.
  intros Hleaf Hnull st res st' Hrun ->.
  eapply check_pass_primitive; eauto.
Qed.

Lemma returns_coerce_scalar js_Number t input :
  is_leaf t = true -> returns scalar_value (coerce js_Number t input).
Proof.
  intros Hleaf st v st' Hrun.
  destruct (isNullish v) eqn:Hv; [left; exact Hv|right].
  eapply (coerce_leaf_value js_Number t input st v Hleaf); [rewrite Hrun; reflexivity|exact Hv].
Qed.

Lemma coerce_leaf_same_heap js_Number t input :
  is_leaf t = true -> steps same_heap (coerce js_Number t input).
Proof.
  intros Hleaf st. destruct (coerce_leaf js_Number t input st Hleaf) as [v ->]. reflexivity.
Qed.

Lemma leaf_value_same_heap js_Number t input :
  is_leaf t = true ->
  steps same_heap
    (if isNullish input then
       i1 <- (if negb (isOptional (attrs t)) && strictEq input VUndefined then
                p <- gets (fun st => ParseContext.path (ctx st)) ;;
                i <- ParseContext.issue_of (CORE_ISSUES.required input p) ;;
                ret (Some i)
              else ret None) ;;
       i2 <- (if negb (isNullable (attrs t)) && strictEq input VNull then
                p <- gets (fun st => ParseContext.path (ctx st)) ;;
                i <- ParseContext.issue_of (CORE_ISSUES.required input p) ;;
                ret (Some i)
              else ret i1) ;;
       ret (VUndefined, i2)
     else
       res <- check t input ;;
       match res with
       | None => ret (input, None)
       | Some r =>
           value <- coerce js_Number t input ;;
           if isNullish value then ret (value, Some r)
           else ParseContext.removeIssues [r] ;;; ret (value, None)
       end).
Proof.
  intros Hleaf.
  repeat first [ sh_step
               | sh_frame issue_of_same_inputs
               | sh_frame check_same_inputs
               | sh_frame removeIssues_same_inputs
               | apply coerce_leaf_same_heap; exact Hleaf ].
Qed.

Lemma leaf_value_scalar js_Number t input :
  is_leaf t = true ->
  returns (fun vi : Value * option Issue => scalar_value (fst vi))
    (if isNullish input then
       i1 <- (if negb (isOptional (attrs t)) && strictEq input VUndefined then
                p <- gets (fun st => ParseContext.path (ctx st)) ;;
                i <- ParseContext.issue_of (CORE_ISSUES.required input p) ;;
                ret (Some i)
              else ret None) ;;
       i2 <- (if negb (isNullable (attrs t)) && strictEq input VNull then
                p <- gets (fun st => ParseContext.path (ctx st)) ;;
                i <- ParseContext.issue_of (CORE_ISSUES.required input p) ;;
                ret (Some i)
              else ret i1) ;;
       ret (VUndefined, i2)
     else
       res <- check t input ;;
       match res with
       | None => ret (input, None)
       | Some r =>
           value <- coerce js_Number t input ;;
           if isNullish value then ret (value, Some r)
           else ParseContext.removeIssues [r] ;;; ret (value, None)
       end).
Proof.
  intros Hleaf. destruct (isNullish input) eqn:Hnull.
  - eapply returns_bind; [apply returns_any|]. intros i1 _.
    eapply returns_bind; [apply returns_any|]. intros i2 _.
    apply returns_ret. left. reflexivity.
  - eapply returns_bind; [apply (returns_check_primitive t input Hleaf Hnull)|].
    intros [r|] Hres.
    + eapply returns_bind; [apply (returns_coerce_scalar js_Number t input Hleaf)|].
      intros value Hvalue. destruct (isNullish value).
      * apply returns_ret. exact Hvalue.
      * eapply returns_bind; [apply returns_any|]. intros _ _.
        apply returns_ret. exact Hvalue.
    + apply returns_ret. right. apply Hres. reflexivity.
Qed.

Lemma leaf_parse_same_heap js_Number t input :
  is_leaf t = true -> steps same_heap (parseInput js_Number t input).
Proof.
  intros Hleaf. rewrite parseInput_leaf by exact Hleaf. unfold parseBody.
  eapply steps_bind_post;
    [exact same_heap_trans|apply leaf_value_same_heap, Hleaf
    |apply (leaf_value_scalar js_Number t input Hleaf)|].
  intros [value issue] Hscalar. cbn [fst snd] in *.
  sh_step; [apply steps_modify; intros st; reflexivity|].
  eapply (steps_bind_post _ (fun vd : Value * bool => is_primitive (fst vd) = true));
    [exact same_heap_trans| | |].
  - destruct (isNullish value); cbn [negb].
    + destruct (default_leaf t Hleaf) as (d & Hd & Halloc). rewrite Hd.
      intros st. unfold bind, lift, ret.
      destruct (Halloc (heap st)) as (dv & -> & _). reflexivity.
    + sh_step; [|sh_step]. intros st. rewrite (clean_leaf _ _ _ Hleaf). reflexivity.
  - destruct (isNullish value) eqn:Hv; cbn [negb].
    + destruct (default_leaf t Hleaf) as (d & Hd & Halloc). rewrite Hd.
      intros st vd st' Hrun. unfold bind, lift, ret in Hrun.
      destruct (Halloc (heap st)) as (dv & Hdv & Hprim). rewrite Hdv in Hrun.
      injection Hrun as <- _. exact Hprim.
    + eapply (returns_bind (fun v => is_primitive v = true)).
      * intros st v st' Hrun. rewrite (clean_leaf _ _ _ Hleaf) in Hrun.
        injection Hrun as <- _. apply cleaned_primitive.
        destruct Hscalar as [Hs|Hs]; [congruence|exact Hs].
      * intros v Hprim. apply returns_ret. exact Hprim.
  - intros [v isDefault] Hprim. cbn [fst snd] in *.
    rewrite (primitive_isObject v Hprim).
    sh_step; [sh_step|]. sh_step.
    { intros st. rewrite (primitive_spread _ v Hprim). cbn. destruct st; reflexivity. }
    sh_step; [sh_frame tryGetCoreIssueOverride_same_inputs|].
    repeat first [ sh_step | sh_frame removeIssues_same_inputs
                 | sh_frame addIssues_same_inputs ].
  constructor.
Qed.

Lemma withChildPath_same_heap {A} key (m : M A) :
  steps same_heap m -> steps same_heap (ParseContext.withChildPath key m).
Proof.
  intros Hm. unfold ParseContext.withChildPath, ParseContext.setPath.
  repeat first [sh_step | exact Hm | apply steps_modify; intros st; reflexivity].
Qed.

Lemma fields_set_keys (fs : list (string * Value)) k v k' :
  In k' (List.map fst (fields_set fs k v)) <-> k' = k \/ In k' (List.map fst fs).
Proof.
  induction fs as [|[k0 v0] rest IH]; cbn [fields_set List.map In fst].
  - intuition congruence.
  - destruct (String.eqb k0 k) eqn:E; cbn [List.map In fst].
    + apply String.eqb_eq in E. subst k0. intuition congruence.
    + rewrite IH. intuition congruence.
Qed.


(** [parseInput] on a container that passed [check], up to the loop over
    its children. *)
Lemma parseBody_checked_eq js_Number this_ actual children input st st2 b v0 h3 :
  isNullish input = false ->
  check actual input st = (Ok None, st) ->
  clean actual input (record_input input true actual st) = (Ok input, st2) ->
  isObject input = Ok b ->
  spread (heap st2) input = (v0, h3) ->
  parseBody js_Number this_ actual children input st =
    (for_each (children h3 v0) (fun kt =>
       child <- ParseContext.withChildPath (fst kt)
                  (h' <- gets heap ;;
                   x <- lift (get_prop h' v0 (key_to_string (fst kt))) ;;
                   snd kt x) ;;
       modify (fun st => set_heap (set_prop (heap st) v0 (key_to_string (fst kt)) child) st))
     ;;; ret v0) (set_heap h3 st2).
Proof.
  intros Hnull Hcheck Hclean Hobj Hspread.
  unfold parseBody. rewrite Hnull.
  unfold bind at 1. unfold bind at 1. rewrite Hcheck. unfold ret at 1. cbn [fst snd].
  unfold bind at 1.
  change (ParseContext.setInput input (bool_decide (None = None)) actual st)
    with (Ok tt, record_input input true actual st).
  cbv iota beta. rewrite Hnull. cbn [negb].
  unfold bind at 1. unfold bind at 1. rewrite Hclean. unfold ret at 1. cbn [fst snd negb].
  unfold bind at 1. rewrite Hobj. unfold lift at 1.
  unfold bind at 1. rewrite Hspread.
  unfold bind at 1. rewrite tryGetCoreIssueOverride_spec.
  change (core_override "" (overrides this_)) with (@None (ValidationResultOverride Value)).
  cbv iota beta. unfold bind at 1. unfold ret at 1. unfold bind at 1. unfold ret at 1.
  unfold bind at 1. unfold bind at 2. unfold gets at 1. reflexivity.
Qed.

Lemma flat_children js_Number (n : addr) (props : list (string * BaseType)) :
  Forall (fun kt => is_leaf (snd kt) = true) props ->
  forall s s' fs,
    heap s !! n = Some (HObject fs) ->
    for_each (objectChildKeys
                (List.map (fun kt => (fst kt, parseInput js_Number (snd kt))) props))
      (fun kt =>
         child <- ParseContext.withChildPath (fst kt)
                    (h' <- gets heap ;;
                     x <- lift (get_prop h' (VObj n) (key_to_string (fst kt))) ;;
                     snd kt x) ;;
         modify (fun st =>
           set_heap (set_prop (heap st) (VObj n) (key_to_string (fst kt)) child) st)) s
    = (Ok tt, s') ->
    exists fs',
      heap s' !! n = Some (HObject fs') /\
      (forall k, In k (List.map fst fs') <->
                 In k (List.map fst fs) \/ In k (List.map fst props)) /\
      (forall a, a <> n -> heap s' !! a = heap s !! a) /\
      List.length (heap s') = List.length (heap s).
Proof.
  induction 1 as [|[k t] rest Hleaf _ IH]; intros s s' fs Hn Hrun.
  - cbn in Hrun. injection Hrun as <-. exists fs. split; [exact Hn|].
    split; [cbn; tauto|]. split; reflexivity.
  - cbn [List.map objectChildKeys for_each fst snd] in Hrun.
    unfold objectChildKeys in IH.
    apply bind_ok in Hrun as ([] & s1 & Hstep & Hrest).
    apply bind_ok in Hstep as (child & sa & Hchild & Hset).
    cbn [fst snd key_to_string] in *.
    assert (Hheap : heap sa = heap s).
    { pose proof (withChildPath_same_heap (KStr k)
        (h' <- gets heap ;; x <- lift (get_prop h' (VObj n) k) ;;
         parseInput js_Number t x)) as Hw.
      specialize (Hw ltac:(repeat first [sh_step | apply leaf_parse_same_heap; exact Hleaf]) s).
      rewrite Hchild in Hw. exact Hw. }
    unfold modify in Hset. injection Hset as <-.
    assert (Hlt : (n < List.length (heap s))%nat) by (eapply lookup_lt_Some; exact Hn).
    destruct (IH (set_heap (set_prop (heap sa) (VObj n) k child) sa) s'
                 (fields_set fs k child)) as (fs' & Hn' & Hkeys & Hother & Hlen).
    + cbn [heap set_heap]. rewrite Hheap. unfold set_prop. rewrite Hn.
      apply list_lookup_insert_eq. exact Hlt.
    + exact Hrest.
    + exists fs'. split; [exact Hn'|]. split; [|split].
      * intros k'. rewrite Hkeys. rewrite fields_set_keys. cbn [List.map In fst].
        intuition congruence.
      * intros a Ha. rewrite (Hother a Ha). cbn [heap set_heap]. rewrite Hheap.
        unfold set_prop. rewrite Hn. apply list_lookup_insert_ne. congruence.
      * rewrite Hlen. cbn [heap set_heap]. rewrite Hheap. unfold set_prop. rewrite Hn.
        apply length_insert.
Qed.



Lemma pretty_N_go_app (x : N) s : pretty_N_go x s = pretty_N_go x "" +:+ s.
Proof.
  revert s. induction (N.lt_wf_0 x) as [x _ IH]. intros s.
  destruct (decide (0 < x)%N) as [Hx|Hx].
  - rewrite (pretty_N_go_step x s), (pretty_N_go_step x "") by exact Hx.
    assert (Hlt : (x `div` 10 < x)%N) by (apply N.div_lt; lia).
    set (c := pretty_N_char (x `mod` 10)).
    rewrite (IH _ Hlt (String c s)), (IH _ Hlt (String c "")).
    rewrite string_app_assoc. reflexivity.
  - assert (x = 0)%N as -> by lia. rewrite !pretty_N_go_0. reflexivity.
Qed.

Lemma pretty_N_go_head (x : N) s :
  (0 < x)%N ->
  exists c r, pretty_N_go x s = String c r /\ is_digit c = true /\ c <> "0"%char.
Proof.
  revert s. induction (N.lt_wf_0 x) as [x _ IH]. intros s Hx.
  rewrite pretty_N_go_step by exact Hx.
  destruct (decide (0 < x `div` 10)%N) as [Hd|Hd].
  - apply IH; [apply N.div_lt; lia|exact Hd].
  - assert (Hlt : (x < 10)%N).
    { destruct (decide (x < 10)%N) as [|Hge]; [assumption|].
      exfalso. apply Hd. apply N.div_str_pos. lia. }
    rewrite (N.div_small x 10 Hlt), pretty_N_go_0.
    rewrite N.mod_small by exact Hlt.
    eexists _, _. split; [reflexivity|].
    assert (x = 1 \/ x = 2 \/ x = 3 \/ x = 4 \/ x = 5 \/ x = 6 \/ x = 7 \/ x = 8
            \/ x = 9)%N as H by lia.
    repeat (destruct H as [->|H]; [split; [reflexivity|discriminate]|]).
    subst x. split; [reflexivity|discriminate].
Qed.

Lemma read_digits_stop s acc :
  starts_with_digit s = false -> read_digits 10 s acc = acc.
Proof.
  destruct s as [|c r]; [reflexivity|]. cbn [starts_with_digit read_digits].
  unfold is_digit. destruct (digit_val 10 c); [discriminate|reflexivity].
Qed.

Lemma parseInt_numeric_prefix (p : positive) sfx :
  starts_with_digit sfx = false ->
  parseInt (pretty (Zpos p) +:+ sfx) = Some (Zpos p).
Proof.
  intros Hs. change (pretty (Zpos p)) with (pretty_N_go (Npos p) "").
  rewrite <- pretty_N_go_app.
  destruct (pretty_N_go_head (Npos p) sfx) as (c & r & Heq & Hc & H0); [reflexivity|].
  assert (Hparse : parseInt (String c r) = read_digits 10 (String c r) None).
  { unfold parseInt. cbn [trimStart]. rewrite (digit_not_ws c Hc).
    assert (Hsign : c <> "-"%char /\ c <> "+"%char).
    { split; intros ->; discriminate. }
    destruct Hsign as [Hm Hp].
    destruct c as [[] [] [] [] [] [] [] []]; try discriminate; try congruence;
      (destruct (read_digits 10 _ None); cbn; f_equal; lia). }
  rewrite Heq, Hparse, <- Heq.
  destruct (read_digits_pretty (Npos p)) as [k Hk]; [reflexivity|].
  rewrite Hk, read_digits_stop by exact Hs. cbn [default]. reflexivity.
Qed.

(** X12.  Property names that start with a number.  The tracked view turns
    a property name into a path key with [Number.parseInt]: a name made of
    the decimal digits of a positive safe integer [n] followed by anything
    that does not start with a digit (["2fa"], ["3d"]) is recorded as the
    number [n], not as the name, and that is the last key of the context
    path after the property has been read. *)
Theorem numeric_prefix_key pr (p : positive) sfx v st :
  safe_integer (Zpos p) = true ->
  starts_with_digit sfx = false ->
  let prop := pretty (Zpos p) +:+ sfx in
  get_prop (heap st) (target pr) prop = Ok v ->
  Proxy.keyOrIndex prop = KNum (Zpos p) /\
  _path (ctx (snd (Proxy.get pr prop st))) = proxy_path pr ++ [KNum (Zpos p)].
Proof.
  intros _ Hs prop Hv.
  assert (Hkey : Proxy.keyOrIndex prop = KNum (Zpos p)).
  { unfold Proxy.keyOrIndex, prop. rewrite parseInt_numeric_prefix by exact Hs.
    reflexivity. }
  split; [exact Hkey|].
  destruct (pretty_N_go_head (Npos p) sfx) as (c & r & Heq & Hc & _); [reflexivity|].
  assert (Hprop : prop = String c r).
  { unfold prop. change (pretty (Zpos p)) with (pretty_N_go (Npos p) "").
    rewrite <- pretty_N_go_app. exact Heq. }
  rewrite (proxy_get_child pr prop v st Hv).
  - rewrite Hkey. rewrite (tryGetProxy_same_path v _ (at_path _ st)). reflexivity.
  - rewrite Hprop. clear -Hc.
    destruct c as [[] [] [] [] [] [] [] []]; try discriminate Hc; reflexivity.
  - rewrite Hprop. clear -Hc.
    destruct c as [[] [] [] [] [] [] [] []]; try discriminate Hc; reflexivity.
Qed.

Lemma numeric_prefix_key_witness :
  let pr := {| target := VObj 0%nat; proxy_path := [KStr "user"] |} in
  let st := new_state [HObject [("2fa", VBool true)]] [] in
  Proxy.keyOrIndex "2fa" = KNum 2 /\
  _path (ctx (snd (Proxy.get pr "2fa" st))) = [KStr "user"; KNum 2].
Proof.
  intros pr st.
  apply (numeric_prefix_key pr 2%positive "fa" (VBool true) st); reflexivity.
Defined.

(** * Arrays and records of scalars *)

Lemma array_children js_Number (n : addr) it
    (ks : list (Key * (Value -> M Value))) :
  is_leaf it = true ->
  forall s s' its,
    heap s !! n = Some (HArray its) ->
    Forall (fun c => snd c = parseInput js_Number it /\
                     exists i, fst c = KNum (Z.of_nat i) /\ (i < List.length its)%nat) ks ->
    for_each ks
      (fun kt =>
         child <- ParseContext.withChildPath (fst kt)
                    (h' <- gets heap ;;
                     x <- lift (get_prop h' (VArr n) (key_to_string (fst kt))) ;;
                     snd kt x) ;;
         modify (fun st =>
           set_heap (set_prop (heap st) (VArr n) (key_to_string (fst kt)) child) st)) s
    = (Ok tt, s') ->
    exists its',
      heap s' !! n = Some (HArray its') /\
      List.length its' = List.length its /\
      (Forall is_Some its -> Forall is_Some its') /\
      (forall a, a <> n -> heap s' !! a = heap s !! a) /\
      List.length (heap s') = List.length (heap s).
Proof.
  intros Hleaf. induction ks as [|[k f] rest IH]; intros s s' its Hn Hks Hrun.
  - cbn in Hrun. injection Hrun as <-. exists its. repeat split; auto.
  - apply Forall_cons in Hks as [[Hf (i & Hk & Hi)] Hrest].
    cbn [fst snd] in Hf, Hk. subst f k.
    cbn [for_each fst snd] in Hrun.
    apply bind_ok in Hrun as ([] & s1 & Hstep & Hloop).
    apply bind_ok in Hstep as (child & sa & Hchild & Hset).
    cbn [key_to_string] in *.
    assert (Hheap : heap sa = heap s).
    { pose proof (withChildPath_same_heap (KNum (Z.of_nat i))
        (h' <- gets heap ;; x <- lift (get_prop h' (VArr n) (pretty (Z.of_nat i))) ;;
         parseInput js_Number it x)) as Hw.
      specialize (Hw ltac:(repeat first [sh_step | apply leaf_parse_same_heap; exact Hleaf]) s).
      rewrite Hchild in Hw. exact Hw. }
    unfold modify in Hset. injection Hset as <-.
    assert (Hlt : (n < List.length (heap s))%nat) by (eapply lookup_lt_Some; exact Hn).
    assert (Hset : set_prop (heap sa) (VArr n) (pretty (Z.of_nat i)) child
                   = <[n := HArray (<[i := Some child]> its)]> (heap s)).
    { unfold set_prop. rewrite Hheap, Hn. rewrite as_index_pretty by lia.
      rewrite Nat2Z.id. unfold items_set.
      destruct (decide (i < List.length its)%nat); [reflexivity|contradiction]. }
    unfold set_prop in Hset. rewrite Hset in Hloop.
    destruct (IH (set_heap (<[n := HArray (<[i := Some child]> its)]> (heap s)) sa) s'
                 (<[i := Some child]> its)) as (its' & Hn' & Hlen' & Hsome & Hother & Hlen).
    + cbn [heap set_heap]. apply list_lookup_insert_eq. exact Hlt.
    + rewrite length_insert. exact Hrest.
    + exact Hloop.
    + exists its'. split; [exact Hn'|]. split; [|split; [|split]].
      * rewrite Hlen'. apply length_insert.
      * intros Hall. apply Hsome. apply Forall_insert; [exact Hall|eexists; reflexivity].
      * intros a Ha. rewrite (Hother a Ha). cbn [heap set_heap].
        apply list_lookup_insert_ne. congruence.
      * rewrite Hlen. cbn [heap set_heap]. apply length_insert.
Qed.

(** X13.  Arrays of scalars.  When [parseInput] returns on an array type
    with a scalar item type, the result is a new array with as many items as
    the input and no holes, and every object or array that existed before
    the call, the input array included, is unchanged. *)
Theorem flat_array_shape js_Number a it co (arr : addr) items st v st' :
  is_leaf it = true ->
  heap st !! arr = Some (HArray items) ->
  parseInput js_Number (ArrayType a it co) (VArr arr) st = (Ok v, st') ->
  exists out,
    v = VArr (List.length (heap st)) /\
    heap st' !! List.length (heap st) = Some (HArray out) /\
    List.length out = List.length items /\
    Forall is_Some out /\
    (forall a', (a' < List.length (heap st))%nat -> heap st' !! a' = heap st !! a').
Proof.
  intros Hleaf Ha Hparse.
  set (t := ArrayType a it co) in *.
  set (recorded := record_input (VArr arr) true t st).
  set (copy := (fun x : option Value => Some (default VUndefined x)) <$> items).
  assert (Hlt : (arr < List.length (heap st))%nat) by (eapply lookup_lt_Some; exact Ha).
  change (parseInput js_Number t (VArr arr))
    with (parseBody js_Number a t (arrayChildKeys (parseInput js_Number it)) (VArr arr))
    in Hparse.
  rewrite (parseBody_checked_eq js_Number a t _ (VArr arr) st recorded false
             (VArr (List.length (heap st))) (heap st ++ [HArray copy])) in Hparse;
    [|reflexivity|reflexivity|reflexivity|reflexivity|].
  2:{ unfold spread. change (heap recorded) with (heap st). rewrite Ha. reflexivity. }
  apply bind_ok in Hparse as ([] & s1 & Hloop & Hret).
  unfold ret in Hret. injection Hret as <- <-.
  assert (Hmid : heap (set_heap (heap st ++ [HArray copy]) recorded)
                  !! List.length (heap st) = Some (HArray copy)).
  { cbn [heap set_heap]. apply list_lookup_middle. reflexivity. }
  assert (Hks : Forall (fun c => snd c = parseInput js_Number it /\
                   exists i, fst c = KNum (Z.of_nat i) /\ (i < List.length copy)%nat)
                  (arrayChildKeys (parseInput js_Number it) (heap st ++ [HArray copy])
                     (VArr (List.length (heap st))))).
  { unfold arrayChildKeys.
    replace ((heap st ++ [HArray copy]) !! List.length (heap st))
      with (Some (HArray copy)) by (symmetry; apply list_lookup_middle; reflexivity).
    apply Forall_forall. intros c Hin.
    apply list_elem_of_omap in Hin as ([i [x|]] & Hi & Hx); [|discriminate].
    injection Hx as <-. cbn [fst snd]. split; [reflexivity|]. exists i.
    split; [reflexivity|].
    apply elem_of_lookup_imap in Hi as (j & y & Heq & Hj). injection Heq as -> <-.
    eapply lookup_lt_Some. exact Hj. }
  destruct (array_children js_Number (List.length (heap st)) it _ Hleaf _ _ copy
              Hmid Hks Hloop) as (out & Hout & Hlen' & Hsome & Hother & Hlen).
  exists out. split; [reflexivity|]. split; [exact Hout|].
  split; [rewrite Hlen'; apply length_fmap|]. split.
  - apply Hsome. unfold copy. apply Forall_fmap, Forall_forall.
    intros x _. eexists. reflexivity.
  - intros a' Hlt'. rewrite Hother by lia. cbn [heap set_heap].
    apply lookup_app_l. exact Hlt'.
Qed.

Lemma flat_array_shape_witness :
  exists st' out,
    parseInput Samples.toNumber (pukka.array Samples.plain_string None no_overrides)
      (VArr 0%nat) (new_state [HArray [Some (VStr "a"); None]] [])
      = (Ok (VArr 1%nat), st') /\
    heap st' !! 1%nat = Some (HArray out) /\ List.length out = 2%nat /\
    heap st' !! 0%nat = Some (HArray [Some (VStr "a"); None]).
Proof.
  set (t := pukka.array Samples.plain_string None no_overrides).
  set (st := new_state [HArray [Some (VStr "a"); None]] []).
  destruct (parseInput Samples.toNumber t (VArr 0%nat) st)
    as [[v|e] st'] eqn:E; [|vm_compute in E; discriminate].
  destruct (flat_array_shape Samples.toNumber (attrs t) Samples.plain_string None 0%nat
              [Some (VStr "a"); None] st v st')
    as (out & Hv & Hout & Hlen & _ & Hin);
    [reflexivity|reflexivity|exact E|].
  exists st', out. rewrite Hv. split; [reflexivity|]. split; [exact Hout|].
  split; [exact Hlen|]. apply (Hin 0%nat). cbn. lia.
Defined.

(** X14.  Records of scalars.  When [parseInput] returns on a record type
    with a scalar value type, the result is a new object with exactly the
    keys of the input, and every object that existed before the call, the
    input included, is unchanged: unlike an object type, a record deletes
    nothing. *)
Theorem flat_record_shape js_Number a vt (obj : addr) fields st v st' :
  is_leaf vt = true ->
  heap st !! obj = Some (HObject fields) ->
  parseInput js_Number (RecordType a vt) (VObj obj) st = (Ok v, st') ->
  exists out,
    v = VObj (List.length (heap st)) /\
    heap st' !! List.length (heap st) = Some (HObject out) /\
    (forall k, In k (List.map fst out) <-> In k (List.map fst fields)) /\
    (forall a', (a' < List.length (heap st))%nat -> heap st' !! a' = heap st !! a').
Proof.
  intros Hleaf Ha Hparse.
  set (t := RecordType a vt) in *.
  set (recorded := record_input (VObj obj) true t st).
  set (props := List.map (fun k : string => (k, vt)) (List.map fst fields)).
  change (parseInput js_Number t (VObj obj))
    with (parseBody js_Number a t (recordChildKeys (parseInput js_Number vt)) (VObj obj))
    in Hparse.
  rewrite (parseBody_checked_eq js_Number a t _ (VObj obj) st recorded true
             (VObj (List.length (heap st))) (heap st ++ [HObject fields])) in Hparse;
    [|reflexivity|reflexivity|reflexivity|reflexivity|].
  2:{ unfold spread. change (heap recorded) with (heap st). rewrite Ha. reflexivity. }
  apply bind_ok in Hparse as ([] & s1 & Hloop & Hret).
  unfold ret in Hret. injection Hret as <- <-.
  assert (Hmid : heap (set_heap (heap st ++ [HObject fields]) recorded)
                  !! List.length (heap st) = Some (HObject fields)).
  { cbn [heap set_heap]. apply list_lookup_middle. reflexivity. }
  assert (Hks : recordChildKeys (parseInput js_Number vt) (heap st ++ [HObject fields])
                  (VObj (List.length (heap st)))
                = objectChildKeys
                    (List.map (fun kt => (fst kt, parseInput js_Number (snd kt))) props)).
  { unfold recordChildKeys, objectChildKeys, object_keys, props.
    replace ((heap st ++ [HObject fields]) !! List.length (heap st))
      with (Some (HObject fields)) by (symmetry; apply list_lookup_middle; reflexivity).
    rewrite !List.map_map. reflexivity. }
  rewrite Hks in Hloop.
  assert (Hleaves : Forall (fun kt : string * BaseType => is_leaf (snd kt) = true) props).
  { unfold props. apply Forall_forall. intros kt Hin.
    apply list_elem_of_In, in_map_iff in Hin as (k & <- & _). exact Hleaf. }
  destruct (flat_children js_Number (List.length (heap st)) props Hleaves _ _ fields
              Hmid Hloop) as (out & Hout & Hkeys & Hother & Hlen).
  exists out. split; [reflexivity|]. split; [exact Hout|]. split.
  - intros k. rewrite Hkeys. unfold props. rewrite List.map_map. cbn [fst].
    rewrite List.map_id. tauto.
  - intros a' Hlt'. rewrite Hother by lia. cbn [heap set_heap].
    apply lookup_app_l. exact Hlt'.
Qed.

Lemma flat_record_shape_witness :
  exists st' out,
    parseInput Samples.toNumber (pukka.record Samples.plain_string no_overrides)
      (VObj 0%nat) (new_state [HObject [("a", VStr "x"); ("b", VStr "y")]] [])
      = (Ok (VObj 1%nat), st') /\
    heap st' !! 1%nat = Some (HObject out) /\
    heap st' !! 0%nat = Some (HObject [("a", VStr "x"); ("b", VStr "y")]).
Proof.
  set (t := pukka.record Samples.plain_string no_overrides).
  set (st := new_state [HObject [("a", VStr "x"); ("b", VStr "y")]] []).
  destruct (parseInput Samples.toNumber t (VObj 0%nat) st)
    as [[v|e] st'] eqn:E; [|vm_compute in E; discriminate].
  destruct (flat_record_shape Samples.toNumber (attrs t) Samples.plain_string 0%nat
              [("a", VStr "x"); ("b", VStr "y")] st v st')
    as (out & Hv & Hout & _ & Hin);
    [reflexivity|reflexivity|exact E|].
  exists st', out. rewrite Hv. split; [reflexivity|]. split; [exact Hout|].
  apply (Hin 0%nat). cbn. lia.
Defined.

(** * Parsing a parsed scalar again *)

Lemma rev_app_app (s acc : string) : String.rev_app s acc = String.rev s +:+ acc.
Proof.
  unfold String.rev. revert acc. induction s as [|c s IH]; intros acc; [reflexivity|].
  cbn [String.rev_app]. rewrite IH, (IH (String c "")), string_app_assoc. reflexivity.
Qed.

Lemma rev_app_append (s1 s2 acc : string) :
  String.rev_app (s1 +:+ s2) acc = String.rev_app s2 (String.rev_app s1 acc).
Proof.
  revert acc. induction s1 as [|c s1 IH]; intros acc; [reflexivity|].
  change (String c s1 +:+ s2) with (String c (s1 +:+ s2)).
  cbn [String.rev_app]. apply IH.
Qed.

Lemma rev_snoc (s : string) c : String.rev (s +:+ String c "") = String c (String.rev s).
Proof. unfold String.rev. rewrite rev_app_append. reflexivity. Qed.

Lemma rev_cons (s : string) c : String.rev (String c s) = String.rev s +:+ String c "".
Proof. unfold String.rev at 1. cbn [String.rev_app]. apply rev_app_app. Qed.

Lemma rev_involutive (s : string) : String.rev (String.rev s) = s.
Proof.
  induction s as [|c s IH]; [reflexivity|]. rewrite rev_cons, rev_snoc, IH. reflexivity.
Qed.

Lemma trimStart_idem s : trimStart (trimStart s) = trimStart s.
Proof.
  induction s as [|c s IH]; [reflexivity|]. cbn [trimStart].
  destruct (is_ws c) eqn:E; [exact IH|]. cbn [trimStart]. rewrite E. reflexivity.
Qed.

Lemma trimStart_head s :
  trimStart s = "" \/ exists c r, trimStart s = String c r /\ is_ws c = false.
Proof.
  induction s as [|c s IH]; [left; reflexivity|]. cbn [trimStart].
  destruct (is_ws c) eqn:E; [exact IH|]. right. eauto.
Qed.

Lemma trimStart_snoc u c :
  is_ws c = false -> exists u', trimStart (u +:+ String c "") = u' +:+ String c "".
Proof.
  intros Hc. induction u as [|x u IH].
  - exists "". change ("" +:+ String c "") with (String c ""). cbn [trimStart].
    rewrite Hc. reflexivity.
  - change (String x u +:+ String c "") with (String x (u +:+ String c "")).
    cbn [trimStart]. destruct (is_ws x); [exact IH|]. exists (String x u). reflexivity.
Qed.

Lemma trimEnd_head c r :
  is_ws c = false -> exists r', trimEnd (String c r) = String c r'.
Proof.
  intros Hc. unfold trimEnd. rewrite rev_cons.
  destruct (trimStart_snoc (String.rev r) c Hc) as [u' ->].
  rewrite rev_snoc. eauto.
Qed.

Lemma trimEnd_idem s : trimEnd (trimEnd s) = trimEnd s.
Proof. unfold trimEnd. rewrite rev_involutive, trimStart_idem. reflexivity. Qed.

Lemma trim_idem s : trim (trim s) = trim s.
Proof.
  unfold trim. destruct (trimStart_head s) as [->|(c & r & -> & Hc)]; [reflexivity|].
  destruct (trimEnd_head c r Hc) as [r' Hr]. rewrite Hr.
  cbn [trimStart]. rewrite Hc, <- Hr. apply trimEnd_idem.
Qed.

Lemma trimValue_idem trim_ o s :
  trimValue trim_ o (trimValue trim_ o s) = trimValue trim_ o s.
Proof. unfold trimValue. destruct (default true _); [apply trim_idem|reflexivity]. Qed.

(** A scalar that passes [check] is returned after [clean]. *)
Lemma leaf_parse_checked js_Number t input st st' :
  is_leaf t = true -> isNullish input = false ->
  check t input st = (Ok None, st') ->
  parseInput js_Number t input st =
    (Ok (cleaned t (options (ctx st)) input), record_input input true t st).
Proof.
  intros Hleaf Hnull Hcheck.
  set (v := cleaned t (options (ctx st)) input).
  pose proof (check_pass_primitive _ _ _ _ Hleaf Hnull Hcheck) as Hprim.
  destruct (check_leaf t input st Hleaf Hnull) as [Hpass|(c & m & _ & Hfail)];
    [|simpl in Hfail; congruence].
  pose proof (cleaned_primitive t (options (ctx st)) input Hprim) as Hv. fold v in Hv.
  rewrite parseInput_leaf by exact Hleaf. unfold parseBody. rewrite Hnull.
  unfold bind at 1. unfold bind at 1. rewrite Hpass. unfold ret at 1. cbn [fst snd].
  unfold bind at 1.
  change (ParseContext.setInput input (bool_decide (None = None)) t st)
    with (Ok tt, record_input input true t st).
  cbv iota beta. rewrite Hnull. cbn [negb].
  unfold bind at 1. unfold bind at 1. rewrite (clean_leaf _ _ _ Hleaf).
  change (options (ctx (record_input input true t st))) with (options (ctx st)). fold v.
  unfold ret at 1. cbn [fst snd negb].
  unfold bind at 1. rewrite (primitive_isObject v Hv). unfold lift at 1.
  unfold bind at 1. rewrite (primitive_spread _ v Hv). rewrite set_heap_same.
  unfold bind at 1. rewrite tryGetCoreIssueOverride_spec.
  change (core_override "" (overrides (attrs t)))
    with (@None (ValidationResultOverride Value)).
  reflexivity.
Qed.

(** What passes [check] passes it again after [clean], in any state with
    the same options. *)
Lemma check_cleaned t input st st1 s :
  is_leaf t = true -> isNullish input = false ->
  check t input st = (Ok None, st1) ->
  options (ctx s) = options (ctx st) ->
  check t (cleaned t (options (ctx st)) input) s = (Ok None, s).
Proof.
  intros Hleaf Hnull Hcheck Ho.
  destruct (check_leaf t (cleaned t (options (ctx st)) input) s Hleaf)
    as [Hpass|(c & m & _ & Hfail)]; [|exact Hpass|].
  { destruct t, input; try discriminate; reflexivity. }
  exfalso. cbv zeta in Hfail.
  destruct t; try discriminate; destruct input; try discriminate;
    cbn [cleaned check] in *; try (rewrite Hfail in Hcheck; discriminate).
  all: try (rewrite invalid_run in Hcheck; discriminate).
  all: try (destruct (existsb _ _); [discriminate|rewrite invalid_run in Hcheck; discriminate]).
  all: try (destruct (strictEq _ _); [discriminate|rewrite invalid_run in Hcheck; discriminate]).
  unfold bind, gets in Hcheck, Hfail. rewrite Ho, trimValue_idem in Hfail.
  destruct (negb _ && _); [|discriminate].
  cbn in Hcheck. discriminate.
Qed.

(** * Scalars: the two outcomes of [check] *)

(** Replacing the issue of a failed check by a newly created one. *)
Lemma replaced_fresh r o st :
  fresh_ids st -> issue_id r = next_issue st -> issue_id o = S (next_issue st) ->
  ParseContext.set_add
    (fold_left ParseContext.set_delete [r] ((issues (ctx st) ++ [r]) ++ [o])) o
  = issues (ctx st) ++ [o].
Proof.
  intros Hfresh Hr Ho. cbn [fold_left].
  unfold ParseContext.set_delete. rewrite !List.filter_app. cbn [List.filter].
  unfold same_issue at 2 3. rewrite Hr, Ho, Nat.eqb_refl. cbn [negb].
  replace (next_issue st =? S (next_issue st))%nat with false
    by (symmetry; apply Nat.eqb_neq; lia).
  cbn [negb]. rewrite app_nil_r.
  rewrite (filter_all _ (issues (ctx st))).
  - apply set_add_snoc.
  - eapply Forall_impl; [exact Hfresh|].
    intros i Hi. cbv beta in Hi. unfold same_issue. rewrite Hr.
    apply negb_true_iff, Nat.eqb_neq. lia.
Qed.

(** What is left of [parseInput] on a scalar node once [check] has failed
    and [coerce] had nothing to offer, with the default value named. *)
Lemma leaf_parse_fallback js_Number t input st c m v d dv :
  is_leaf t = true -> isNullish input = false ->
  let r := mkIssue (next_issue st) (_path (ctx st)) c m in
  check t input st = (Ok (Some r), add_issue r st) ->
  fst (coerce js_Number t input (add_issue r st)) = Ok v -> isNullish v = true ->
  defaultValue t = Ok d -> alloc d (heap st) = (dv, heap st) -> is_primitive dv = true ->
  parseInput js_Number t input st =
    (issueOverride <- tryGetCoreIssueOverride input c (overrides (attrs t)) ;;
     issue <- match issueOverride with
              | Some o => ParseContext.removeIssues [r] ;;; ret (Some o)
              | None => ret (Some r)
              end ;;
     match issue with
     | Some i => ParseContext.addIssues [i]
     | None => ret tt
     end ;;; ret tt ;;; ret dv) (record_input input false t (add_issue r st)).
Proof.
  intros Hleaf Hnull r Hfail Hcoerce Hv Hd Hdv Hprim.
  destruct (coerce_leaf js_Number t input (add_issue r st) Hleaf) as (v0 & Hco).
  rewrite Hco in Hcoerce. cbn [fst] in Hcoerce. injection Hcoerce as ->.
  set (recorded := record_input input false t (add_issue r st)).
  rewrite parseInput_leaf by exact Hleaf.
  unfold parseBody. rewrite Hnull.
  unfold bind at 1. unfold bind at 1. rewrite Hfail.
  unfold bind at 1. rewrite Hco. rewrite Hv. unfold ret at 1. cbn [fst snd].
  unfold bind at 1.
  change (ParseContext.setInput input (bool_decide (Some r = None)) t (add_issue r st))
    with (Ok tt, recorded).
  cbv iota beta. rewrite Hv. cbn [negb].
  unfold bind at 1. unfold bind at 1. unfold bind at 1. rewrite Hd. unfold lift at 1.
  unfold bind at 1. change (heap recorded) with (heap st). rewrite Hdv.
  change (set_heap (heap st) recorded) with recorded.
  unfold ret at 1. cbn [fst snd negb].
  unfold bind at 1. rewrite (primitive_isObject dv Hprim). unfold lift at 1.
  unfold bind at 1. change (heap recorded) with (heap st).
  rewrite (primitive_spread _ dv Hprim).
  change (set_heap (heap st) recorded) with recorded.
  reflexivity.
Qed.

(** C1 (amended).  For a leaf node and an input that is neither [null] nor
    [undefined].  When [check] passes, [parseInput] returns the input after
    [clean], records the input as parsed and leaves the issue set as it was.
    When [check] fails with the issue [r] and [coerce] yields [null] or
    [undefined]: [r] is an [invalid_type] or [required] issue at the current
    path, the only issue added so far, and the input is recorded as not
    parsed.  Without a core issue override for the code of [r],
    [parseInput] returns the node's default value and [r] stays.  With a
    string override it returns the default value and [r] is replaced by one
    new issue with the code and the path of [r] and the override's message.
    With a callback override the callback runs first: when it throws,
    [parseInput] throws its exception; when it returns, [parseInput]
    returns the default value, [r] is taken out and the callback's result is
    added, a string as a new issue with the code of [r] at the current path,
    an issue as it is, with the code and the path it was created with;
    whatever else the callback did to the issue set stays. *)
Theorem leaf_parse js_Number t input st :
  is_leaf t = true -> isNullish input = false ->
  (* the input passes [check] *)
  (forall st', check t input st = (Ok None, st') ->
     let v := cleaned t (options (ctx st)) input in
     clean t input st = (Ok v, st) /\
     parseInput js_Number t input st = (Ok v, record_input input true t st) /\
     issues (ctx (record_input input true t st)) = issues (ctx st)) /\
  (* the input fails [check] and [coerce] has nothing to offer *)
  (forall r st1 v,
     check t input st = (Ok (Some r), st1) ->
     fst (coerce js_Number t input st1) = Ok v -> isNullish v = true ->
     exists d dv,
       defaultValue t = Ok d /\ alloc d (heap st) = (dv, heap st) /\
       st1 = add_issue r st /\
       path r = _path (ctx st) /\ (code r = "invalid_type" \/ code r = "required") /\
       let recorded := record_input input false t st1 in
       issues (ctx recorded) = issues (ctx st) ++ [r] /\
       match core_override (code r) (overrides (attrs t)) with
       | None => parseInput js_Number t input st = (Ok dv, recorded)
       | Some (OverrideStr s) =>
           let o := mkIssue (S (next_issue st)) (_path (ctx st)) (code r) s in
           let st' := with_issue o (without_issues [r] (add_issue o recorded)) in
           parseInput js_Number t input st = (Ok dv, st') /\
           (fresh_ids st -> issues (ctx st') = issues (ctx st) ++ [o])
       | Some (OverrideFn f) =>
           (forall e st2,
              run false (f input) recorded = (Thrown e, st2) ->
              parseInput js_Number t input st = (Thrown e, st2)) /\
           (forall res st2,
              run false (f input) recorded = (Ok res, st2) ->
              parseInput js_Number t input st =
                (Ok dv, with_issue (fst (replacement (code r) res st2))
                          (without_issues [r] (snd (replacement (code r) res st2)))))
       end).
Proof.
  intros Hleaf Hnull. split.
  - intros st' Hcheck v.
    split; [apply clean_leaf, Hleaf|]. split; [|reflexivity].
    eapply leaf_parse_checked; eassumption.
  - intros r st1 v Hcheck Hcoerce Hv.
    destruct (check_leaf t input st Hleaf Hnull) as [Hpass|(c & m & Hc & Hfail)];
      [congruence|].
    cbv zeta in Hfail. rewrite Hfail in Hcheck. injection Hcheck as <- <-.
    set (r := mkIssue (next_issue st) (_path (ctx st)) c m) in *.
    destruct (default_leaf t Hleaf) as (d & Hd & Halloc).
    destruct (Halloc (heap st)) as (dv & Hdv & Hprim).
    exists d, dv. split; [exact Hd|]. split; [exact Hdv|]. split; [reflexivity|].
    split; [reflexivity|]. split; [exact Hc|].
    intros recorded. split; [reflexivity|].
    rewrite (leaf_parse_fallback js_Number t input st c m v d dv Hleaf Hnull Hfail
               Hcoerce Hv Hd Hdv Hprim).
    fold r. fold recorded. change (code r) with c.
    destruct (core_override c (overrides (attrs t))) as [[s|f]|] eqn:Hov.
    + set (o := mkIssue (S (next_issue st)) (_path (ctx st)) c s).
      cbv zeta. split.
      * unfold bind at 1. rewrite tryGetCoreIssueOverride_spec, Hov. reflexivity.
      * intros Hfresh. unfold with_issue, without_issues.
        cbn [ctx set_ctx issues ctx_set_issues].
        change (issues (ctx (add_issue o recorded)))
          with ((issues (ctx st) ++ [r]) ++ [o]).
        apply replaced_fresh; [exact Hfresh|reflexivity|reflexivity].
    + split.
      * intros e st2 Hout. unfold bind at 1.
        rewrite tryGetCoreIssueOverride_spec, Hov. cbn [override_outcome].
        unfold bind at 1. rewrite Hout. reflexivity.
      * intros res st2 Hout. unfold bind at 1.
        rewrite tryGetCoreIssueOverride_spec, Hov. cbn [override_outcome].
        unfold bind at 1. rewrite Hout.
        destruct (replacement c res st2) as [i st3]. reflexivity.
    + unfold bind at 1. rewrite tryGetCoreIssueOverride_spec, Hov.
      unfold bind, ret. cbv beta iota. unfold ParseContext.addIssues, modify.
      cbn [fold_left].
      change (issues (ctx recorded)) with (issues (ctx st) ++ [r]).
      rewrite set_add_snoc. reflexivity.
Qed.

(** C1 (amended) at [z.string()]: the input ["a"] passes, the input [1]
    fails and falls back to the default value. *)
Lemma leaf_parse_witness :
  is_leaf Samples.plain_string = true /\
  parseInput Samples.toNumber Samples.plain_string (VStr "a") (new_state [] []) =
    (Ok (VStr "a"),
     record_input (VStr "a") true Samples.plain_string (new_state [] [])) /\
  parseInput Samples.toNumber Samples.plain_string (VNum 1) (new_state [] []) =
    (Ok (VStr ""),
     record_input (VNum 1) false Samples.plain_string
       (add_issue (mkIssue 0 [] "invalid_type" "Expected: string, Received: 1")
                  (new_state [] []))).
Proof.
  split; [reflexivity|].
  destruct (leaf_parse Samples.toNumber Samples.plain_string (VStr "a") (new_state [] [])
              eq_refl eq_refl) as [Hpass _].
  destruct (Hpass (new_state [] []) eq_refl) as (_ & Hparse & _).
  split; [exact Hparse|].
  destruct (leaf_parse Samples.toNumber Samples.plain_string (VNum 1) (new_state [] [])
              eq_refl eq_refl) as [_ Hfail].
  destruct (Hfail (mkIssue 0 [] "invalid_type" "Expected: string, Received: 1")
              (add_issue (mkIssue 0 [] "invalid_type" "Expected: string, Received: 1")
                         (new_state [] []))
              VUndefined eq_refl eq_refl eq_refl)
    as (d & dv & Hd & Hdv & _ & _ & _ & _ & Hrun).
  injection Hd as <-. injection Hdv as <-. exact Hrun.
Defined.

(** X15.  Parsing a scalar is idempotent.  When an input passes [check]
    at a scalar node, [parseInput] returns it after [clean]; parsing that
    result again, in any state with the same options, passes [check] too
    and returns the very same value (a trimmed string is not trimmed
    further). *)
Theorem leaf_parse_idempotent js_Number t input st st1 s :
  is_leaf t = true -> isNullish input = false ->
  check t input st = (Ok None, st1) ->
  options (ctx s) = options (ctx st) ->
  let v := cleaned t (options (ctx st)) input in
  parseInput js_Number t input st = (Ok v, record_input input true t st) /\
  parseInput js_Number t v s = (Ok v, record_input v true t s).
Proof.
  intros Hleaf Hnull Hcheck Ho v.
  split; [eapply leaf_parse_checked; eassumption|].
  assert (Hnull' : isNullish v = false).
  { unfold v. destruct t, input; try discriminate; reflexivity. }
  rewrite (leaf_parse_checked js_Number t v s s Hleaf Hnull').
  - rewrite Ho. f_equal. f_equal. unfold v.
    destruct t, input; try reflexivity. cbn [cleaned]. rewrite trimValue_idem. reflexivity.
  - eapply check_cleaned; eassumption.
Qed.

Lemma leaf_parse_idempotent_witness :
  let st := new_state [] [] in
  parseInput Samples.toNumber Samples.plain_string (VStr "  homer ") st =
    (Ok (VStr "homer"), record_input (VStr "  homer ") true Samples.plain_string st) /\
  parseInput Samples.toNumber Samples.plain_string (VStr "homer") st =
    (Ok (VStr "homer"), record_input (VStr "homer") true Samples.plain_string st).
Proof.
  intros st.
  apply (leaf_parse_idempotent Samples.toNumber Samples.plain_string (VStr "  homer ")
           st st st); reflexivity.
Defined.

(** * [ctx.isDefined] inside a callback *)

Lemma tryGetProxy_scalar v p st :
  is_container v = false -> v <> VNull ->
  Proxy.tryGetProxy v p st = (Ok (Raw v), st).
Proof.
  intros Hc Hn. unfold Proxy.tryGetProxy, bind, lift, ret.
  destruct v; try discriminate; try contradiction; reflexivity.
Qed.

Lemma proxy_get_field pr (a : addr) fields prop st :
  target pr = VObj a -> heap st !! a = Some (HObject fields) ->
  let v := default VUndefined (assoc prop fields) in
  is_container v = false -> v <> VNull ->
  Proxy.get pr prop st =
    (Ok (Raw v), at_path (proxy_path pr ++ [Proxy.keyOrIndex prop]) st).
Proof.
  intros Ht Ha v Hc Hn. unfold Proxy.get, bind, gets, lift. rewrite Ht.
  cbn [get_prop]. rewrite Ha. cbn [isArray andb].
  unfold ParseContext.setPath, modify. cbn [fst snd].
  apply tryGetProxy_scalar; assumption.
Qed.

(** X16.  [ctx.isDefined] answers for the property read last.  After a
    callback has read the properties [p1] and then [p2] of an object through
    the tracked view, neither of them holding an object, an array or [null],
    [ctx.isDefined(...)] tells whether the input
    recorded at the path of [p2] is neither [null] nor [undefined] (and
    [false] when no input was recorded there), whatever it is called with;
    the context path stays at [p2]. *)
Theorem isDefined_last_read {R} tracking pr (a : addr) fields p1 p2
    (k : bool -> Cb R) st :
  target pr = VObj a -> heap st !! a = Some (HObject fields) ->
  is_container (default VUndefined (assoc p1 fields)) = false ->
  default VUndefined (assoc p1 fields) <> VNull ->
  is_container (default VUndefined (assoc p2 fields)) = false ->
  default VUndefined (assoc p2 fields) <> VNull ->
  let st2 := at_path (proxy_path pr ++ [Proxy.keyOrIndex p2]) st in
  let answer :=
    match inputs (ctx st) !! join (proxy_path pr ++ [Proxy.keyOrIndex p2]) with
    | Some e => negb (isNullish (in_value e))
    | None => false
    end in
  run tracking
    (ReadProp (Proxied pr) p1 (fun _ =>
     ReadProp (Proxied pr) p2 (fun _ => IsDefined k))) st
  = run tracking (k answer) st2.
Proof.
  intros Ht Ha Hc1 Hn1 Hc2 Hn2 st2 answer.
  cbn [run Proxy.read]. unfold bind at 1.
  rewrite (proxy_get_field pr a fields p1 st Ht Ha Hc1 Hn1).
  unfold bind at 1.
  rewrite (proxy_get_field pr a fields p2 (at_path _ st) Ht Ha Hc2 Hn2).
  unfold bind, gets. reflexivity.
Qed.

Lemma isDefined_last_read_witness :
  let pr := {| target := VObj 0%nat; proxy_path := [] |} in
  let fields := [("password", VStr "secret"); ("confirm", VStr "")] in
  let e v := {| in_value := v; in_parsed := true; in_type := Samples.plain_string |} in
  let st := set_ctx {| _path := [];
                       inputs := {[ "password" := e (VStr "secret");
                                    "confirm" := e VUndefined ]};
                       issues := []; options := [] |}
              (new_state [HObject fields] []) in
  run true
    (ReadProp (Proxied pr) "password" (fun _ =>
     ReadProp (Proxied pr) "confirm" (fun _ => IsDefined Return))) st
  = (Ok false, at_path [KStr "confirm"] st).
Proof.
  intros pr fields e st.
  rewrite (isDefined_last_read true pr 0%nat fields "password" "confirm" Return st);
    [reflexivity|reflexivity|reflexivity|reflexivity|discriminate|reflexivity|discriminate].
Defined.

(** * Validation below a union *)

Lemma ctx_set_path_same c : ctx_set_path (_path c) c = c.
Proof. destruct c; reflexivity. Qed.

Lemma set_ctx_same st : set_ctx (ctx st) st = st.
Proof. destruct st; reflexivity. Qed.

(** X17.  Refinements below a union never run.  Validation walks
    [this.getChildKeys], which a union does not override: validating a
    union is the same whatever its members are, and a union without
    refinements of its own leaves the context, its issue set included, and
    the heap as they were, whatever refinements its members and their
    descendants carry. *)
Theorem union_members_not_validated async a types value st :
  (forall types',
     validatePhase async (UnionType a types) value st =
     validatePhase async (UnionType a types') value st) /\
  (validators a = [] -> asyncValidators a = [] ->
   let st' := snd (validatePhase async (UnionType a types) value st) in
   ctx st' = ctx st /\ heap st' = heap st).
Proof.
  split; [reflexivity|].
  intros Hv Ha st'. subst st'.
  change (validatePhase async (UnionType a types))
    with (validateNode (phase_entries async a) (fun _ _ => @nil (Key * (Value -> M unit)))).
  assert (He : phase_entries async a = []) by (unfold phase_entries; destruct async; assumption).
  rewrite He.
  assert (H : exists r p,
    validateNode [] (fun _ _ => @nil (Key * (Value -> M unit))) value st =
      (r, set_proxies p st)).
  { unfold validateNode. unfold bind at 1, gets at 1.
    destruct (ParseContext.pathHasErrors (ctx st)).
    { exists (Ok tt), (proxies st). destruct st; reflexivity. }
    unfold bind at 1, gets at 1. cbn [for_each]. unfold bind at 1, ret at 1.
    unfold Proxy.withProxy. unfold bind at 1, gets at 1. unfold bind at 1.
    unfold Proxy.getProxy. unfold bind at 1, modify at 1. unfold bind at 1, gets at 1.
    unfold Proxy.tryGetProxy, bind, lift, gets, modify, ret, try_finally. cbn [for_each].
    unfold ParseContext.path.
    destruct (isObject value) as [b|e]; cbn; [|eexists _, _; reflexivity].
    destruct (negb b && negb (isArray value)); cbn.
    - rewrite ctx_set_path_same. eexists _, _. reflexivity.
    - rewrite ctx_set_path_same. eexists _, _. reflexivity. }
  destruct H as (r & p & ->). split; reflexivity.
Qed.

(** [z.union([z.string().refine(...)])] accepts what its only member
    rejects. *)
Example union_member_refinement_ignored :
  fst (safeParse Samples.toNumber refined_member (VStr "x") [] []) =
    Ok (ParseFailure [mkIssue 0 [] "custom" "never seen"]) /\
  fst (safeParse Samples.toNumber union_of_refined (VStr "x") [] []) =
    Ok (ParseSuccess (VStr "x")).
Proof. split; vm_compute; reflexivity. Qed.
